(** * Beautiful-Christmas-Tree: ornament placement and interpolation engine

    A shallow embedding of the parts of the repository that place the
    ornaments of the tree, blend them between their "chaos" and "formed"
    poses, load photo textures and keep the image cache bounded.

    Sources embedded here:
    - [components/Ornaments.tsx], the file [src/unnamed/part_001]
      (distributor, per-frame composers, photo texture loader, click
      handler)
    - [components/SpiralLights.tsx], the file [src/unnamed/part_000]
      (interpolation of the light strip)
    - [App.tsx] ([clampValue], [handleSaveSignature])
    - [utils/idb.ts] (image cache)

    Conventions.  A JavaScript [number] is read as a real number: rounding,
    [NaN] and the infinities are outside the model.  Counts, indices and
    millisecond timestamps are integers.  React refs are [option]s (a ref
    that is not attached yet is [None]); a frame callback is a function from
    the component state to the next state.  [Math.random] draws from an
    explicit stream that is threaded through the code that consumes it. *)

From Stdlib Require Import Reals Lra Psatz ZArith List Ascii String.
From stdpp Require Import base option list sorting gmap strings pretty.

(* ===================================================================== *)
(** * Part I: the model                                                   *)
(* ===================================================================== *)

(** ** Numbers and vectors *)

Module Num.
Local Open Scope R_scope.

(** [THREE.MathUtils.clamp(value, min, max)] is
    [Math.max(min, Math.min(max, value))]. *)
Definition clamp (value lo hi : R) : R := Rmax lo (Rmin hi value).

(** [App.tsx]: [const clampValue = (v, min, max) =>
    Math.min(max, Math.max(min, v))]. *)
Definition clampValue (v lo hi : R) : R := Rmin hi (Rmax lo v).

(** [THREE.MathUtils.mapLinear(x, a1, a2, b1, b2)]. *)
Definition mapLinear (x a1 a2 b1 b2 : R) : R :=
  b1 + (x - a1) * (b2 - b1) / (a2 - a1).

(** [Math.pow] on a non-negative base: [Rpower] is [exp (y * ln x)], which
    is only the power function for a positive base, so the base [0] is
    handled apart ([Math.pow(0, y)] is [0] for a positive [y]).  A negative
    base with a fractional exponent ([NaN] in JavaScript) is outside the
    model. *)
Definition Math_pow (x y : R) : R :=
  if Req_dec_T x 0 then (if Req_dec_T y 0 then 1 else 0) else Rpower x y.

(** Modelled from the spec: [lerp] of [utils/math], which is imported by the
    components but is not among the sources.  The spec gives the transition
    rule [current + (target - current) * clamp(k * dt, 0, 1)] and names it
    [lerp(current, target, k * dt)]. *)
Definition lerp (start finish t : R) : R :=
  start + (finish - start) * clamp t 0 1.

(** The comparisons of the code are decidable tests. *)
#[global] Instance Rlt_decision (x y : R) : Decision (x < y) := Rlt_dec x y.
#[global] Instance Rgt_decision (x y : R) : Decision (x > y) := Rgt_dec x y.

(** JavaScript's [a || b] on numbers: [a] unless it is falsy (zero). *)
Definition num_or (a b : R) : R := if Req_dec_T a 0 then b else a.

Record Vector3 := mkVector3 { vx : R; vy : R; vz : R }.

(** [THREE.Vector3.lerpVectors(v1, v2, alpha)]: no clamping of [alpha]. *)
Definition lerpVectors (v1 v2 : Vector3) (alpha : R) : Vector3 :=
  mkVector3 (vx v1 + (vx v2 - vx v1) * alpha)
            (vy v1 + (vy v2 - vy v1) * alpha)
            (vz v1 + (vz v2 - vz v1) * alpha).

Definition multiplyScalar (v : Vector3) (s : R) : Vector3 :=
  mkVector3 (vx v * s) (vy v * s) (vz v * s).

Definition setScalar (s : R) : Vector3 := mkVector3 s s s.

Definition distanceTo (a b : Vector3) : R :=
  sqrt ((vx a - vx b) * (vx a - vx b) + (vy a - vy b) * (vy a - vy b)
        + (vz a - vz b) * (vz a - vz b)).

Record Euler := mkEuler { ex : R; ey : R; ez : R }.

(** The stream [Math.random] draws from: the next value and the rest. *)
Definition Rng : Type := nat -> R.

Definition Math_random (g : Rng) : R * Rng := (g O, fun n => g (S n)).

End Num.

(** ** Photo textures: [usePhotoTexture] and the save path of [App.tsx] *)

Module Texture.
Import Num.
Local Open Scope R_scope.

(** [PhotoTransform]; every field is read through [?.] and [??], so a stale
    stored value may lack any of them. *)
Record Offset := mkOffset { off_x : option R; off_y : option R }.
Record PhotoTransform := mkPhotoTransform
  { scale : option R; offset : option Offset }.

Definition transform_scale (transform : option PhotoTransform) : option R :=
  transform ≫= scale.
Definition transform_offset_x (transform : option PhotoTransform) : option R :=
  (transform ≫= offset) ≫= off_x.
Definition transform_offset_y (transform : option PhotoTransform) : option R :=
  (transform ≫= offset) ≫= off_y.

(** Lines 229-231 of [usePhotoTexture]. *)
Definition safeScale (transform : option PhotoTransform) : R :=
  clamp (default 1 (transform_scale transform)) 0.5 2.5.
Definition ox (transform : option PhotoTransform) : R :=
  clamp (default 0 (transform_offset_x transform)) (-0.6) 0.6.
Definition oy (transform : option PhotoTransform) : R :=
  clamp (default 0 (transform_offset_y transform)) (-0.6) 0.6.

(** What [handleSaveSignature] stores under the photo's key. *)
Record StoredTransform := mkStoredTransform
  { st_scale : R; st_offset_x : R; st_offset_y : R }.

Record FocusedEntry := mkFocusedEntry
  { fe_is_image : bool;
    fe_cacheKey : option string;
    fe_url : option string;
    fe_id : option string;
    fe_editable : bool }.

(** JavaScript's [a || b] on optional strings: the empty string is falsy. *)
Definition str_or (a b : option string) : option string :=
  match a with
  | Some s => if decide (s = EmptyString) then b else a
  | None => b
  end.

(** The image branch of [handleSaveSignature]: the transform table after the
    save.  Nothing is stored for a missing or read-only entry, for a card, or
    when no key can be found. *)
Definition handleSaveSignature (focusedEntry : option FocusedEntry)
    (focusScale focusOffset_x focusOffset_y : R)
    (photoTransforms : gmap string StoredTransform)
  : gmap string StoredTransform :=
  match focusedEntry with
  | None => photoTransforms
  | Some fe =>
    if negb (fe_editable fe) then photoTransforms
    else if fe_is_image fe then
      match str_or (str_or (fe_cacheKey fe) (fe_url fe)) (fe_id fe) with
      | None => photoTransforms
      | Some key =>
        if decide (key = EmptyString) then photoTransforms
        else
          <[ key := mkStoredTransform
                      (clampValue focusScale 0.5 2.5)
                      (clampValue focusOffset_x (-0.6) 0.6)
                      (clampValue focusOffset_y (-0.6) 0.6) ]> photoTransforms
      end
    else photoTransforms
  end.

(** *** The loader: [loadImageElement], [createFallbackTexture] and the
    effect of [usePhotoTexture] *)

(** An [HTMLImageElement] as the loader reads it; a dimension the element
    does not have ([videoWidth] on an image) reads as the falsy [0]. *)
Record Image := mkImage
  { naturalWidth : R; naturalHeight : R;
    videoWidth : R; videoHeight : R;
    img_width : R; img_height : R }.

Definition Blob : Type := string.

Inductive Error :=
| ImageErrorEvent
| FetchStatus (status : nat)
| NetworkError
| NoCanvasCtx.

(** The answer of [fetch(url)] when it resolves. *)
Record Response := mkResponse
  { res_ok : bool; res_status : nat; res_blob : option Blob }.

(** The browser as the loader sees it. *)
Record Browser := mkBrowser
  { fromUrl : string -> option Image;
    fetch : string -> option Response;
    createObjectURL : Blob -> string;
    getContext2d : bool }.

Inductive Result (A : Type) :=
| Return (a : A)
| Throw (e : Error).
Arguments Return {A} a.
Arguments Throw {A} e.

(** [loadImageElement]: the element first, then [fetch] and a blob URL. *)
Definition loadImageElement (b : Browser) (url : string) : Result Image :=
  match fromUrl b url with
  | Some img => Return img
  | None =>
    match fetch b url with
    | None => Throw NetworkError
    | Some res =>
      if negb (res_ok res) then Throw (FetchStatus (res_status res))
      else
        match res_blob res with
        | None => Throw NetworkError
        | Some blob =>
          match fromUrl b (createObjectURL b blob) with
          | Some img => Return img
          | None => Throw ImageErrorEvent
          end
        end
    end
  end.

(** A [THREE.CanvasTexture], as what was drawn on its canvas. *)
Inductive CanvasTexture :=
| PhotoCanvas (img : Image) (width height : R)
              (translate_x translate_y scale_xy : R)
| FallbackCanvas (width height : R) (label : option string).

(** [createFallbackTexture(label)]: a 512 x 640 canvas; the label is drawn
    only when a 2d context is available. *)
Definition createFallbackTexture (b : Browser) (label : string)
  : CanvasTexture :=
  FallbackCanvas 512 640 (if getContext2d b then Some label else None).

(** State of one [usePhotoTexture] hook: the React state [texture], the
    effect's [activeTexture] and what was sent to [console.warn]. *)
Record HookState := mkHookState
  { texture : option CanvasTexture;
    activeTexture : option CanvasTexture;
    warnings : list (string * Error) }.

(** Effectful code of the hook: state passing with exceptions. *)
Definition M (A : Type) : Type := HookState -> Result A * HookState.

Definition ret {A} (a : A) : M A := fun st => (Return a, st).
Definition throw {A} (e : Error) : M A := fun st => (Throw e, st).
Definition bind {A B} (m : M A) (k : A -> M B) : M B :=
  fun st =>
    match m st with
    | (Return a, st') => k a st'
    | (Throw e, st') => (Throw e, st')
    end.
Definition lift {A} (r : Result A) : M A := fun st => (r, st).
Definition try_catch {A} (body : M A) (handler : Error -> M A) : M A :=
  fun st =>
    match body st with
    | (Return a, st') => (Return a, st')
    | (Throw e, st') => handler e st'
    end.

Notation "'let!' x ':=' m 'in' k" := (bind m (fun x => k))
  (at level 10, x name, m at level 100, k at level 200).
Notation "'do!' m 'in' k" := (bind m (fun _ => k))
  (at level 10, m at level 100, k at level 200).

Definition set_activeTexture (tex : CanvasTexture) : M unit :=
  fun st => (Return tt, mkHookState (texture st) (Some tex) (warnings st)).
Definition setTexture (tex : CanvasTexture) : M unit :=
  fun st => (Return tt, mkHookState (Some tex) (activeTexture st) (warnings st)).
Definition console_warn (url : string) (err : Error) : M unit :=
  fun st =>
    (Return tt,
     mkHookState (texture st) (activeTexture st) (warnings st ++ [(url, err)])).

Definition fallbackLabel : string := "加载失败".

(** The [try] block of [load].  [cancelled] is the flag as it reads once
    the awaited image has arrived. *)
Definition load_try (b : Browser) (url : string)
    (transform : option PhotoTransform) (cancelled : bool) : M unit :=
  let! img := lift (loadImageElement b url) in
  if cancelled then ret tt
  else
    let width :=
      num_or (naturalWidth img)
             (num_or (videoWidth img) (num_or (img_width img) 1024)) in
    let height :=
      num_or (naturalHeight img)
             (num_or (videoHeight img) (num_or (img_height img) 1024)) in
    if negb (getContext2d b) then throw NoCanvasCtx
    else
      let tex :=
        PhotoCanvas img width height
                    (width / 2 + ox transform * width)
                    (height / 2 + oy transform * height)
                    (safeScale transform) in
      do! set_activeTexture tex in setTexture tex.

(** The [catch] block of [load]. *)
Definition load_catch (b : Browser) (url : string) (cancelled : bool)
    (err : Error) : M unit :=
  do! console_warn url err in
  if cancelled then ret tt
  else
    let tex := createFallbackTexture b fallbackLabel in
    do! set_activeTexture tex in setTexture tex.

Definition load (b : Browser) (url : string)
    (transform : option PhotoTransform) (cancelled : bool) : M unit :=
  try_catch (load_try b url transform cancelled) (load_catch b url cancelled).

(** A freshly mounted hook: [useState(null)], nothing active, no warning. *)
Definition initialHook : HookState := mkHookState None None [].

(** [UserPhotoOrnament]: nothing while the texture is [null], otherwise a
    [PhotoFrameMesh] over that texture. *)
Definition UserPhotoOrnament (st : HookState) : option CanvasTexture :=
  texture st.

(** A browser in which the image element fails and the request for the
    same URL answers 404. *)
Definition browser404 : Browser :=
  mkBrowser (fun _ => None)
            (fun _ => Some (mkResponse false 404 None))
            (fun blob => blob)
            true.





End Texture.

(** ** [Ornaments.tsx]: the distributor *)

Module Ornaments.
Import Num.
Local Open Scope R_scope.

Inductive OrnamentType := BALL | BOX | STAR | CANDY | CRYSTAL | PHOTO.

#[global] Instance OrnamentType_eq_dec : EqDecision OrnamentType.
Proof. solve_decision. Defined.

(** [OrnamentData]; a [THREE.Color] is kept as the string it was built
    from. *)
Record OrnamentData := mkOrnamentData
  { chaosPos : Vector3;
    targetPos : Vector3;
    rotation : Euler;
    color : string;
    targetScale : Vector3;
    chaosScale : Vector3;
    chaosTilt : R }.

(** Phase offsets of the ornament types. *)
Definition getTypeOffsetIndex (type : OrnamentType) : nat :=
  match type with
  | BALL => 0
  | BOX => 1
  | STAR => 2
  | CANDY => 3
  | CRYSTAL => 4
  | PHOTO => 5
  end.

(** Golden spiral constants of the [data] memo. *)
Definition goldenAngle : R := PI * (3 - sqrt 5).
Definition treeHeight : R := 18.
Definition treeRadiusBase : R := 7.5.
Definition apexY : R := 9.

Definition angleOffset (type : OrnamentType) : R :=
  INR (getTypeOffsetIndex type) * (PI * 2 / 6).

(** The loop body's [progress], [r], [y] and [theta] for slot [i]. *)
Definition progress (count i : nat) : R :=
  sqrt ((INR i + 1) / INR count) * 0.9.
Definition radius (count i : nat) : R := progress count i * treeRadiusBase.
Definition height (count i : nat) : R := apexY - progress count i * treeHeight.
Definition theta (type : OrnamentType) (i : nat) : R :=
  INR i * goldenAngle + angleOffset type.

Definition pushOut (type : OrnamentType) : R :=
  match type with
  | STAR | PHOTO => 1.15
  | _ => 1.08
  end.

(** [tPos] after [multiplyScalar(pushOut)]. *)
Definition formedPosition (type : OrnamentType) (count i : nat) : Vector3 :=
  multiplyScalar
    (mkVector3 (radius count i * cos (theta type i))
               (height count i)
               (radius count i * sin (theta type i)))
    (pushOut type).

(** The chaos arrangement of the photo slots: a wider spiral. *)
Definition photoChaosPosition (count i : nat) : Vector3 :=
  let chaosRadius := 18 in
  let chaosHeightRange := 12 in
  let chaosY := (INR i / INR count - 0.5) * chaosHeightRange in
  let chaosTheta := INR i * goldenAngle in
  mkVector3 (chaosRadius * cos chaosTheta) chaosY (chaosRadius * sin chaosTheta).

Definition photoChaosTilt (i : nat) : R := (INR (i mod 5) - 2) * 0.15.

(** [colors[Math.floor(u * colors.length)]]; an index outside the array
    reads [undefined], and [new THREE.Color(undefined)] is white. *)
Definition pickColor (colors : list string) (u : R) : string :=
  let k := Int_part (u * INR (length colors)) in
  if (k <? 0)%Z then "#ffffff"
  else default "#ffffff" (colors !! Z.to_nat k).

(** [photoCount] and the loop bound [total]. *)
Definition photoCount (type : OrnamentType) (count nImages nCards : nat)
  : nat :=
  if decide (type = PHOTO) then (nImages + nCards)%nat else count.

Section Distributor.

(** [randomVector3] of [utils/math] is imported but is not among the
    sources: it is a parameter, a function of its argument and of the
    random stream it consumes. *)
Variable randomVector3 : R -> Rng -> Vector3 * Rng.

(** The props read by the memo. *)
Variable type : OrnamentType.
Variable count : nat.
Variable colors : option (list string).
Variable scale : R.

(** One iteration of the loop, with the draws of [Math.random] in the
    order the code makes them: [randomVector3] (non-photo types), the
    colour index (when [colors] is given), [randScale], the three sides of
    a box, [photoScale] (photos) and the two angles of the rotation.  For a
    stream [g], [g 0] is its next draw, [g 1] the one after, and
    [fun n => g (k + n)] is what is left after [k] draws. *)
Definition layout (i : nat) (g0 : Rng) : OrnamentData * Rng :=
  let tPos := formedPosition type count i in
  let chaos :=
    if decide (type = PHOTO)
    then (photoChaosPosition count i, photoChaosTilt i, g0)
    else (fst (randomVector3 25 g0), 0, snd (randomVector3 25 g0)) in
  let cPos := fst (fst chaos) in
  let tilt := snd (fst chaos) in
  let g1 := snd chaos in
  let colorHex :=
    match colors with
    | Some cs => pickColor cs (fst (Math_random g1))
    | None => "#ffffff"%string
    end in
  let g2 := match colors with Some _ => snd (Math_random g1) | None => g1 end in
  let randScale := fst (Math_random g2) * 0.4 + 0.8 in
  let g3 := snd (Math_random g2) in
  let baseScaleVec :=
    match type with
    | CANDY => setScalar 0.7
    | CRYSTAL => setScalar 0.6
    | STAR => setScalar 0.7
    | BOX =>
      mkVector3 (1.0 + g3 0%nat * 0.3) (0.7 + g3 1%nat * 0.4)
                (1.0 + g3 2%nat * 0.3)
    | _ => mkVector3 1 1 1
    end in
  let g4 :=
    match type with
    | BOX => fun n => g3 (3 + n)%nat
    | _ => g3
    end in
  let tScale := multiplyScalar baseScaleVec (scale * randScale) in
  let cScale :=
    if decide (type = PHOTO)
    then multiplyScalar tScale (3.5 + fst (Math_random g4) * 1.5)
    else tScale in
  let g5 := if decide (type = PHOTO) then snd (Math_random g4) else g4 in
  let rot := mkEuler (g5 0%nat * PI) (g5 1%nat * PI) 0 in
  let g6 : Rng := fun n => g5 (2 + n)%nat in
  (mkOrnamentData cPos tPos rot colorHex tScale cScale tilt, g6).

(** [for (let i = 0; i < total; i++)]: [n] iterations are left, the next
    index is [i]. *)
Fixpoint data_from (n i : nat) (g : Rng) : list OrnamentData :=
  match n with
  | O => []
  | S n' => fst (layout i g) :: data_from n' (S i) (snd (layout i g))
  end.

(** The [data] memo: [total] is [photoCount] for photos, [count]
    otherwise, while [progress] always divides by [count]. *)
Definition data (nImages nCards : nat) (g : Rng) : list OrnamentData :=
  let total :=
    if decide (type = PHOTO) then photoCount type count nImages nCards
    else count in
  data_from total 0 g.

End Distributor.

(** *** The per-frame composers *)

(** What the code leaves in [rotation] / [quaternion] of an object: either
    Euler angles written directly, or the result of [lookAt(target)]
    followed by at most one [rotateY] / [rotateZ]. *)
Inductive Spin := RotateY (angle : R) | RotateZ (angle : R).

Inductive Orientation :=
| FromEuler (e : Euler)
| LookAt (target : Vector3) (spin : option Spin).

Record Object3D := mkObject3D
  { position : Vector3; orientation : Orientation; obj_scale : Vector3 }.

(** [const smooth = (t) => t * t * (3 - 2 * t)]. *)
Definition smooth (t : R) : R := t * t * (3 - 2 * t).

(** [rotation.copy(item.rotation)] and the tumble of the generic
    ornaments. *)
Definition tumble (e : Euler) (t delta : R) : Euler :=
  if bool_decide (t < 0.5)
  then mkEuler (ex e + delta * 0.5) (ey e + delta * 0.5) (ez e)
  else e.

(** **** [OrnamentMesh] *)

Record OrnamentMeshState := mkOrnamentMeshState
  { om_currentMixRef : R;
    om_meshRef : option Object3D;
    om_materialRef : bool }.

(** First render, commit and the layout effect: [useRef(mixFactor)], the
    mesh built from the JSX props, then moved to the pose of the current
    mix. *)
Definition OrnamentMesh_mount (item : OrnamentData) (mixFactor : R)
  : OrnamentMeshState :=
  let t := smooth mixFactor in
  mkOrnamentMeshState mixFactor
    (Some (mkObject3D
             (lerpVectors (chaosPos item) (targetPos item) t)
             (FromEuler (rotation item))
             (lerpVectors (chaosScale item) (targetScale item) t)))
    true.

Definition OrnamentMesh_useFrame (item : OrnamentData) (mixFactor : R)
    (type : OrnamentType) (delta : R) (st : OrnamentMeshState)
  : OrnamentMeshState :=
  match om_meshRef st with
  | None => st
  | Some _ =>
    if negb (om_materialRef st) then st
    else
      let speed := 0.9 * delta in
      let mix := lerp (om_currentMixRef st) mixFactor speed in
      let t := smooth mix in
      let currentPos := lerpVectors (chaosPos item) (targetPos item) t in
      let rot :=
        if bool_decide (type = STAR) && bool_decide (t > 0.8)
        then LookAt (mkVector3 0 (vy currentPos) 0) (Some (RotateZ (PI / 2)))
        else if bool_decide (type = CRYSTAL) && bool_decide (t > 0.8)
        then LookAt (mkVector3 0 (vy currentPos) 0) None
        else FromEuler (tumble (rotation item) t delta) in
      let currentScale :=
        lerpVectors (chaosScale item) (targetScale item) t in
      mkOrnamentMeshState mix
        (Some (mkObject3D currentPos rot currentScale)) true
  end.

(** **** [GiftBoxMesh] *)

Record GiftBoxMeshState := mkGiftBoxMeshState
  { gb_currentMixRef : R; gb_groupRef : option Object3D }.

(** A [<group>] without props: at the origin, unrotated, unit scale. *)
Definition defaultGroup : Object3D :=
  mkObject3D (mkVector3 0 0 0) (FromEuler (mkEuler 0 0 0)) (mkVector3 1 1 1).

Definition GiftBoxMesh_mount (mixFactor : R) : GiftBoxMeshState :=
  mkGiftBoxMeshState mixFactor (Some defaultGroup).

Definition GiftBoxMesh_useFrame (item : OrnamentData) (mixFactor : R)
    (delta : R) (st : GiftBoxMeshState) : GiftBoxMeshState :=
  match gb_groupRef st with
  | None => st
  | Some _ =>
    let speed := 0.9 * delta in
    let mix := lerp (gb_currentMixRef st) mixFactor speed in
    let t := smooth mix in
    let vecPos := lerpVectors (chaosPos item) (targetPos item) t in
    let vecScale := lerpVectors (chaosScale item) (targetScale item) t in
    mkGiftBoxMeshState mix
      (Some (mkObject3D vecPos
                        (FromEuler (tumble (rotation item) t delta))
                        vecScale))
  end.

(** **** [PhotoFrameMesh] *)

(** What a frame callback reads from the renderer: the viewport width, the
    camera position and, for [getWorldPosition], the world transform of the
    parent group. *)
Record FrameState := mkFrameState
  { viewport_width : R;
    camera_position : Vector3;
    parentToWorld : Vector3 -> Vector3 }.

Record PhotoFrameMeshState := mkPhotoFrameMeshState
  { pf_currentMixRef : R;
    pf_groupRef : option Object3D;
    pf_innerRotationZ : option R;
    pf_emissiveIntensity : option R }.

(** [useRef(1)]; the groups without props; the photo material with its
    JSX [emissiveIntensity]. *)
Definition PhotoFrameMesh_mount (mixFactor : R) : PhotoFrameMeshState :=
  mkPhotoFrameMeshState 1 (Some defaultGroup) (Some 0) (Some 0.25).

Definition PhotoFrameMesh_useFrame (item : OrnamentData) (mixFactor : R)
    (state : FrameState) (delta : R) (st : PhotoFrameMeshState)
  : PhotoFrameMeshState :=
  match pf_groupRef st, pf_innerRotationZ st with
  | Some _, Some innerZ =>
    let speed := 0.8 * delta in
    let tRaw := lerp (pf_currentMixRef st) mixFactor speed in
    let t := Math_pow tRaw 0.6 in
    let vecPos := lerpVectors (chaosPos item) (targetPos item) t in
    let vecScale0 := lerpVectors (chaosScale item) (targetScale item) t in
    let isSmallScreen := bool_decide (viewport_width state < 22) in
    let responsiveBaseScale := if isSmallScreen then 0.6 else 1.0 in
    let vecScale1 := multiplyScalar vecScale0 responsiveBaseScale in
    let effectStrength := 1.0 - t in
    let distToCamera :=
      distanceTo (parentToWorld state vecPos) (camera_position state) in
    let maxZoom := if isSmallScreen then 1.1 else 1.5 in
    let minZoom := 0.6 in
    let perspectiveFactor := mapLinear distToCamera 10 60 maxZoom minZoom in
    let dynamicScale := lerp 1.0 perspectiveFactor effectStrength in
    let brightness := mapLinear distToCamera 12 50 0.9 0.2 in
    let vecScale :=
      if bool_decide (t < 0.99) then multiplyScalar vecScale1 dynamicScale
      else vecScale1 in
    let emissive :=
      if bool_decide (t < 0.99) then Rmax 0.2 brightness * effectStrength
      else 0.25 in
    let facing :=
      if bool_decide (t > 0.8)
      then LookAt (mkVector3 0 (vy vecPos) 0) (Some (RotateY PI))
      else LookAt (camera_position state) None in
    let innerZ' :=
      if bool_decide (t > 0.8) then lerp innerZ 0 speed
      else lerp innerZ (chaosTilt item) speed in
    mkPhotoFrameMeshState tRaw
      (Some (mkObject3D vecPos facing vecScale))
      (Some innerZ')
      ((fun _ => emissive) <$> pf_emissiveIntensity st)
  | _, _ => st
  end.

(** **** The click handler of a photo frame and [emitFocus] *)

Inductive Kind := image | card.

Record PhotoEntry := mkPhotoEntry
  { pe_key : string;
    pe_kind : Kind;
    pe_url : option string;
    pe_message : option string;
    pe_signatureText : option string;
    pe_id : option string;
    pe_cacheKey : option string;
    pe_editable : bool }.

Record ScreenPos := mkScreenPos { sp_x : R; sp_y : R }.

(** The pointer event: [e.camera] through its projection to normalised
    device coordinates, and the client coordinates of the pointer. *)
Record PointerEvent := mkPointerEvent
  { camera_project : Vector3 -> Vector3; clientX : R; clientY : R }.

Record Window := mkWindow { innerWidth : R; innerHeight : R }.

(** [onPointerDown] of the outer group: the call made to [onFocus], if any.
    The guard reads the prop [mixFactor]. *)
Definition PhotoFrameMesh_onPointerDown (onFocus : bool)
    (entry : option PhotoEntry) (mixFactor : R)
    (parentToWorld : Vector3 -> Vector3) (window : Window)
    (e : PointerEvent) (st : PhotoFrameMeshState)
  : option (PhotoEntry * ScreenPos) :=
  match entry with
  | Some en =>
    if onFocus && bool_decide (mixFactor < 0.25)
    then
      match pf_groupRef st with
      | Some group =>
        let worldVec := parentToWorld (position group) in
        let projVec := camera_project e worldVec in
        let sx := (vx projVec * 0.5 + 0.5) * innerWidth window in
        let sy := (vy projVec * -0.5 + 0.5) * innerHeight window in
        Some (en, mkScreenPos sx sy)
      | None => Some (en, mkScreenPos (clientX e) (clientY e))
      end
    else None
  | None => None
  end.

(** The descriptor handed to the host's [onFocusMedia]. *)
Record MediaEntry := mkMediaEntry
  { me_kind : Kind;
    me_url : option string;
    me_message : option string;
    me_signature : option string;
    me_id : option string;
    me_cacheKey : option string;
    me_editable : bool }.

Definition emitFocus (onFocusMedia : bool) (entry : PhotoEntry)
    (origin : ScreenPos) : option (MediaEntry * ScreenPos) :=
  if negb onFocusMedia then None
  else
    Some (mkMediaEntry (pe_kind entry) (pe_url entry) (pe_message entry)
                       (pe_signatureText entry) (pe_id entry)
                       (pe_cacheKey entry) (pe_editable entry),
          origin).

(** A click on a photo frame rendered by [Ornaments], which always passes
    [emitFocus] as [onFocus]: what reaches the host. *)
Definition photoClick (onFocusMedia : bool) (entry : option PhotoEntry)
    (mixFactor : R) (parentToWorld : Vector3 -> Vector3) (window : Window)
    (e : PointerEvent) (st : PhotoFrameMeshState)
  : option (MediaEntry * ScreenPos) :=
  PhotoFrameMesh_onPointerDown true entry mixFactor parentToWorld window e st
  ≫= (fun call => emitFocus onFocusMedia (fst call) (snd call)).

(** **** The component [Ornaments] chooses per type *)

Inductive MeshState :=
| IsOrnamentMesh (st : OrnamentMeshState)
| IsGiftBoxMesh (st : GiftBoxMeshState)
| IsPhotoFrameMesh (st : PhotoFrameMeshState).

Definition mountSlot (type : OrnamentType) (item : OrnamentData)
    (mixFactor : R) : MeshState :=
  match type with
  | PHOTO => IsPhotoFrameMesh (PhotoFrameMesh_mount mixFactor)
  | BOX => IsGiftBoxMesh (GiftBoxMesh_mount mixFactor)
  | _ => IsOrnamentMesh (OrnamentMesh_mount item mixFactor)
  end.

(** One rendered frame of a slot. *)
Definition slot_useFrame (type : OrnamentType) (item : OrnamentData)
    (mixFactor : R) (state : FrameState) (delta : R) (m : MeshState)
  : MeshState :=
  match m with
  | IsOrnamentMesh st =>
    IsOrnamentMesh (OrnamentMesh_useFrame item mixFactor type delta st)
  | IsGiftBoxMesh st =>
    IsGiftBoxMesh (GiftBoxMesh_useFrame item mixFactor delta st)
  | IsPhotoFrameMesh st =>
    IsPhotoFrameMesh (PhotoFrameMesh_useFrame item mixFactor state delta st)
  end.

Definition currentMix (m : MeshState) : R :=
  match m with
  | IsOrnamentMesh st => om_currentMixRef st
  | IsGiftBoxMesh st => gb_currentMixRef st
  | IsPhotoFrameMesh st => pf_currentMixRef st
  end.

Definition object3D (m : MeshState) : option Object3D :=
  match m with
  | IsOrnamentMesh st => om_meshRef st
  | IsGiftBoxMesh st => gb_groupRef st
  | IsPhotoFrameMesh st => pf_groupRef st
  end.

(** Every ref of the slot is attached, so that its frame callback runs. *)
Definition attached (m : MeshState) : bool :=
  match m with
  | IsOrnamentMesh st => bool_decide (is_Some (om_meshRef st)) && om_materialRef st
  | IsGiftBoxMesh st => bool_decide (is_Some (gb_groupRef st))
  | IsPhotoFrameMesh st =>
    bool_decide (is_Some (pf_groupRef st))
    && bool_decide (is_Some (pf_innerRotationZ st))
  end.

Definition innerRotationZ (m : MeshState) : option R :=
  match m with
  | IsPhotoFrameMesh st => pf_innerRotationZ st
  | _ => None
  end.

(** **** A slot over time *)

(** One rendered frame as the slot sees it: the value of the prop
    [mixFactor] at that frame, the renderer state and the elapsed time. *)
Record Frame := mkFrame
  { f_mixFactor : R; f_state : FrameState; f_delta : R }.

Definition renderFrame (type : OrnamentType) (item : OrnamentData)
    (m : MeshState) (f : Frame) : MeshState :=
  slot_useFrame type item (f_mixFactor f) (f_state f) (f_delta f) m.

(** A slot mounted while the prop is [mixFactor0], then rendered for the
    given frames. *)
Definition renderFrames (type : OrnamentType) (item : OrnamentData)
    (mixFactor0 : R) (frames : list Frame) : MeshState :=
  foldl (renderFrame type item) (mountSlot type item mixFactor0) frames.

(** The constant in [const speed = ... * delta] of the frame callback that
    renders the type, and the easing the callback applies to its mix. *)
Definition convergenceSpeed (type : OrnamentType) : R :=
  match type with
  | PHOTO => 0.8
  | _ => 0.9
  end.

Definition ease (type : OrnamentType) (t : R) : R :=
  match type with
  | PHOTO => Math_pow t 0.6
  | _ => smooth t
  end.

(** What holds of a slot of [type] from its mount on: it is the component
    [Ornaments] renders for that type and its refs are attached. *)
Definition slotInv (type : OrnamentType) (m : MeshState) : Prop :=
  match m with
  | IsOrnamentMesh st =>
    type <> PHOTO /\ type <> BOX
    /\ is_Some (om_meshRef st) /\ om_materialRef st = true
  | IsGiftBoxMesh st => type = BOX /\ is_Some (gb_groupRef st)
  | IsPhotoFrameMesh st =>
    type = PHOTO
    /\ is_Some (pf_groupRef st) /\ is_Some (pf_innerRotationZ st)
  end.

(** **** [SpiralLights] ([SpiralLights.tsx]): the mix of the light strip *)

Record SpiralLightsState := mkSpiralLightsState
  { sl_currentMixRef : R; sl_meshRef : bool }.

Definition SpiralLights_mount (mixFactor : R) : SpiralLightsState :=
  mkSpiralLightsState 1 true.

Definition SpiralLights_useFrame (mixFactor delta : R)
    (st : SpiralLightsState) : SpiralLightsState :=
  if negb (sl_meshRef st) then st
  else
    let speed := 2.0 * delta in
    mkSpiralLightsState (lerp (sl_currentMixRef st) mixFactor speed) true.

(** The light strip mounted, then rendered for the given frames
    ([mixFactor] and [delta] of each). *)
Definition SpiralLights_frames (mixFactor0 : R) (frames : list (R * R))
  : SpiralLightsState :=
  foldl (fun st f => SpiralLights_useFrame (fst f) (snd f) st)
        (SpiralLights_mount mixFactor0) frames.

(** *** Concrete inputs used in the examples *)

Definition exampleItem : OrnamentData :=
  mkOrnamentData (mkVector3 10 0 0) (mkVector3 0 4 2) (mkEuler 1 2 0)
                 "#ffffff" (mkVector3 1 1 1) (mkVector3 1 1 1) 0.3.

Definition exampleFrameState : FrameState :=
  mkFrameState 30 (mkVector3 0 0 32) (fun v => v).

Definition exampleEntry : PhotoEntry :=
  mkPhotoEntry "k-0" image (Some "blob:photo"%string) None None None
               (Some "k"%string) false.

Definition exampleWindow : Window := mkWindow 1280 720.

Definition exampleEvent : PointerEvent :=
  mkPointerEvent (fun v => mkVector3 (vx v / 40) (vy v / 40) 0) 100 200.

(** An instance of the parameter for running the distributor on concrete
    inputs.  The photo layout never calls it. *)
Definition randomVector3_origin (r : R) (g : Rng) : Vector3 * Rng :=
  (mkVector3 0 0 0, g).

End Ornaments.

(** ** [utils/idb.ts]: the image cache *)

Module Idb.
Local Open Scope Z_scope.

Definition Blob : Type := string.

(** [ImageRecord]; [createdAt] is a millisecond timestamp. *)
Record ImageRecord := mkImageRecord { blob : Blob; createdAt : Z }.

(** The object store ['images']: out-of-line string keys, one record per
    key. *)
Abbreviation Store := (gmap string ImageRecord).

(** [Array.prototype.sort(cmp)]: a stable sort; an element goes in front of
    the first one it does not have to follow. *)
Fixpoint sort_insert {A} (cmp : A -> A -> Z) (x : A) (l : list A) : list A :=
  match l with
  | [] => [x]
  | y :: l' =>
    if cmp x y <=? 0 then x :: y :: l' else y :: sort_insert cmp x l'
  end.

Definition sort {A} (cmp : A -> A -> Z) (l : list A) : list A :=
  foldr (sort_insert cmp) [] l.

(** [Array.prototype.slice]: a negative index counts from the end. *)
Definition relativeIndex (len : nat) (k : Z) : nat :=
  if k <? 0 then Z.to_nat (Z.max (Z.of_nat len + k) 0)
  else Z.to_nat (Z.min k (Z.of_nat len)).

Definition slice {A} (l : list A) (start finish : Z) : list A :=
  let from := relativeIndex (length l) start in
  let to := relativeIndex (length l) finish in
  take (to - from)%nat (drop from l).

Definition slice_from {A} (l : list A) (start : Z) : list A :=
  drop (relativeIndex (length l) start) l.

(** The order in which the store hands out its keys. *)
Definition key_cmp (a b : string) : Z :=
  match String.compare a b with
  | Lt => -1
  | Eq => 0
  | Gt => 1
  end.

(** [getAllRecords]: [getAll] zipped with [getAllKeys], both in key
    order. *)
Definition getAllRecords (store : Store) : list (string * ImageRecord) :=
  sort (fun a b => key_cmp (fst a) (fst b)) (map_to_list store).

(** [deleteKeys]: one [store.delete] per key. *)
Definition deleteKeys (keys : list string) (store : Store) : Store :=
  foldr (fun key st => delete key st) store keys.

(** What [URL.createObjectURL] returns for a blob: [ObjectURL b] stands
    for an object URL of the blob [b].  The browser mints a new URL string
    at every call; the model keeps only which blob a URL is for, so it
    says nothing about whether two calls give the same string. *)
Inductive Url := ObjectURL (b : Blob).

Definition newestFirst (a b : string * ImageRecord) : Z :=
  createdAt (snd b) - createdAt (snd a).

Definition withUrl (r : string * ImageRecord) : string * Url :=
  (fst r, ObjectURL (blob (snd r))).

(** [a] was created no earlier than [b]. *)
Definition newerOrEqual (a b : string * ImageRecord) : Prop :=
  createdAt (snd b) <= createdAt (snd a).

(** [loadCachedImagesWithKeys]; a stored value always has its blob here. *)
Definition loadCachedImagesWithKeys (limit : Z) (store : Store)
  : list (string * Url) :=
  withUrl <$> slice (sort newestFirst (getAllRecords store)) 0 limit.

(** The key of the file at [idx]: timestamp, index and the hexadecimal
    digits [suffix idx] drawn from [Math.random]. *)
Definition fileKey (timestamp : Z) (suffix : nat -> string) (idx : nat)
  : string :=
  pretty timestamp +:+ "-" +:+ pretty idx +:+ "-" +:+ suffix idx.

(** The first transaction of [saveImagesToCacheWithKeys]: one [put] per
    file, in order; [idx] is the index of the first file of [files]. *)
Fixpoint putFiles (timestamp : Z) (suffix : nat -> string) (idx : nat)
    (files : list Blob) (store : Store) : Store :=
  match files with
  | [] => store
  | file :: rest =>
    putFiles timestamp suffix (S idx) rest
      (<[ fileKey timestamp suffix idx :=
            mkImageRecord file (timestamp + Z.of_nat idx) ]> store)
  end.

(** [saveImagesToCacheWithKeys(files, limit)] when every request succeeds:
    the store afterwards and the list the promise resolves to.
    [timestamp] is [Date.now()]. *)
Definition saveImagesToCacheWithKeys (timestamp : Z) (suffix : nat -> string)
    (files : list Blob) (limit : Z) (store : Store)
  : Store * list (string * Url) :=
  match files with
  | [] => (store, [])
  | _ =>
    let store1 := putFiles timestamp suffix 0 files store in
    let sorted := sort newestFirst (getAllRecords store1) in
    let toDelete := fst <$> slice_from sorted limit in
    let store2 :=
      match toDelete with
      | [] => store1
      | _ => deleteKeys toDelete store1
      end in
    (store2, withUrl <$> slice sorted 0 limit)
  end.

(** [deleteCachedImages]. *)
Definition deleteCachedImages (keys : list string) (store : Store) : Store :=
  deleteKeys keys store.

(** The wrappers that drop the keys. *)
Definition loadCachedImages (limit : Z) (store : Store) : list Url :=
  snd <$> loadCachedImagesWithKeys limit store.

Definition saveImagesToCache (timestamp : Z) (suffix : nat -> string)
    (files : list Blob) (limit : Z) (store : Store) : Store * list Url :=
  let saved := saveImagesToCacheWithKeys timestamp suffix files limit store in
  (fst saved, snd <$> snd saved).

(** No character of the string is the separator of [fileKey]. *)
Fixpoint dashFree (s : string) : Prop :=
  match s with
  | EmptyString => True
  | String c s' => c <> "-"%char /\ dashFree s'
  end.

(** The comparison [getAllRecords] orders by. *)
Definition byKey (a b : string * ImageRecord) : Z := key_cmp (fst a) (fst b).

(** The key of [a] comes before the key of [b] in the store. *)
Definition keyBefore (a b : string * ImageRecord) : Prop :=
  String.compare (fst a) (fst b) = Lt.

(** [a] was created after [b], or at the same time under a smaller key. *)
Definition listedBefore (a b : string * ImageRecord) : Prop :=
  createdAt (snd b) < createdAt (snd a)
  \/ (createdAt (snd a) = createdAt (snd b)
      /\ String.compare (fst a) (fst b) = Lt).

(** A cache of two records, for the examples. *)
Definition exampleStore : Store :=
  <[ "a"%string := mkImageRecord "blobA" 1 ]>
    (<[ "b"%string := mkImageRecord "blobB" 2 ]> ∅).

End Idb.

(** ** [functions/api/share.ts]: the share endpoints *)

Module Share.

(** A parsed JSON value; the handlers never look at a number's value. *)
#[warnings="-register-all"] Inductive Json :=
| JNull
| JBool (b : bool)
| JNumber (isZero : bool)
| JString (s : string)
| JArray (items : list Json)
| JObject (fields : list (string * Json)).

(** [payload.images]: the last field of that name of an object, [undefined]
    on anything else. *)
Fixpoint getField (name : string) (fields : list (string * Json))
  : option Json :=
  match fields with
  | [] => None
  | (k, v) :: rest =>
    match getField name rest with
    | Some later => Some later
    | None => if decide (k = name) then Some v else None
    end
  end.

Definition property (j : Json) (name : string) : option Json :=
  match j with
  | JObject fields => getField name fields
  | _ => None
  end.

(** JavaScript truthiness of a JSON value. *)
Definition truthy (j : Json) : bool :=
  match j with
  | JNull => false
  | JBool b => b
  | JNumber isZero => negb isZero
  | JString s => negb (bool_decide (s = EmptyString))
  | JArray _ | JObject _ => true
  end.

Definition isArray (j : option Json) : bool :=
  match j with
  | Some (JArray _) => true
  | _ => false
  end.

(** What [request.json()] gives: the parsed body, or the message of the
    error it throws. *)
Inductive Body := Parsed (payload : Json) | ParseError (message : string).

(** The body of a response: [{ error }], [{ id, success: true }], or a
    stored value handed back as it is. *)
Inductive ResponseBody :=
| ErrorBody (error : string)
| SuccessBody (id : string)
| StoredValue (value : string).

Record Response := mkResponse
  { status : nat; body : ResponseBody; jsonContentType : bool }.

(** The namespace [TREE_KV]. *)
Abbreviation KV := (gmap string string).

Section Handlers.

(** [JSON.stringify]. *)
Variable JSON_stringify : Json -> string.

(** [onRequestPost]: the response and the namespace afterwards.  [env] is
    [None] without the binding; [uuid] is what [crypto.randomUUID()]
    returns; [putError] is the message of the error [put] throws, if it
    does. *)
Definition onRequestPost (env : option KV) (request : Body) (uuid : string)
    (putError : option string) : Response * option KV :=
  match env with
  | None =>
    (mkResponse 500 (ErrorBody "KV binding TREE_KV not found") true, env)
  | Some kv =>
    match request with
    | ParseError message => (mkResponse 500 (ErrorBody message) true, env)
    | Parsed payload =>
      if negb (truthy payload)
         || negb (from_option truthy false (property payload "images"))
         || negb (isArray (property payload "images"))
      then (mkResponse 400 (ErrorBody "Invalid payload") true, env)
      else
        match putError with
        | Some message => (mkResponse 500 (ErrorBody message) true, env)
        | None =>
          (mkResponse 200 (SuccessBody uuid) true,
           Some (<[ uuid := JSON_stringify payload ]> kv))
        end
    end
  end.

End Handlers.

(** [params.id]: a string or an array of strings. *)
Inductive IdParam := IdString (s : string) | IdArray (l : list string).

Definition idKey (id : option IdParam) : option string :=
  match id with
  | Some (IdArray l) => head l
  | Some (IdString s) => Some s
  | None => None
  end.

(** [onRequestGet]. *)
Definition onRequestGet (env : option KV) (id : option IdParam) : Response :=
  match idKey id with
  | None => mkResponse 400 (ErrorBody "Missing ID") false
  | Some key =>
    if decide (key = EmptyString)
    then mkResponse 400 (ErrorBody "Missing ID") false
    else
      match env with
      | None =>
        mkResponse 500 (ErrorBody "KV binding TREE_KV not found") true
      | Some kv =>
        match kv !! key with
        | None => mkResponse 404 (ErrorBody "Not found") true
        | Some value =>
          if decide (value = EmptyString)
          then mkResponse 404 (ErrorBody "Not found") true
          else mkResponse 200 (StoredValue value) true
        end
      end
  end.

(** A stand-in for [JSON.stringify] in the examples. *)
Definition stringifyExample (j : Json) : string := "{}".

End Share.

(** ** [utils/assetPath.ts] *)

Module AssetPath.

(** [relativePath.replace(/^\/+/, '')]. *)
Fixpoint stripLeadingSlashes (s : string) : string :=
  match s with
  | String c rest =>
    if decide (c = "/"%char) then stripLeadingSlashes rest else s
  | EmptyString => s
  end.

Definition resolveAssetPath (relativePath : string) : string :=
  "/christmas-assets/" +:+ stripLeadingSlashes relativePath.

End AssetPath.

(** ** [components/Experience.tsx]: the scene controller *)

Module SceneController.
Import Num.
Local Open Scope R_scope.

(** [THREE.MathUtils.lerp(x, y, t)]. *)
Definition MathUtils_lerp (x y t : R) : R := (1 - t) * x + t * y.

(** [inputRef.current]; [isDetected] and [isOpen] are optional and read
    through [!!]. *)
Record InputRef := mkInputRef
  { in_x : R; in_y : R;
    in_isDetected : option bool; in_isOpen : option bool }.

(** The refs of [SceneController], the camera position and
    [groupRef.current.rotation.y] ([None] while the group ref is empty). *)
Record Controller := mkController
  { zoomTarget : R;
    isDragging : bool;
    lastPointerX : R;
    lastTouchDistance : option R;
    rotationVelocity : R;
    wasDetected : bool;
    lastHandX : option R;
    currentInput_x : R;
    currentInput_y : R;
    cameraPosition : Vector3;
    groupRotationY : option R }.

Definition mount (camera : Vector3) (group : option R) : Controller :=
  mkController 32 false 0 None 0.002 false None 0 0 camera group.

Definition onWheel (deltaY : R) (c : Controller) : Controller :=
  mkController (clamp (zoomTarget c + deltaY * 0.02) 12 55)
    (isDragging c) (lastPointerX c) (lastTouchDistance c)
    (rotationVelocity c) (wasDetected c) (lastHandX c)
    (currentInput_x c) (currentInput_y c) (cameraPosition c)
    (groupRotationY c).

Definition onPointerDown (isPrimary : bool) (button : Z) (clientX : R)
    (c : Controller) : Controller :=
  if isPrimary && bool_decide (button = 0%Z)
  then
    mkController (zoomTarget c) true clientX (lastTouchDistance c)
      0 (wasDetected c) (lastHandX c)
      (currentInput_x c) (currentInput_y c) (cameraPosition c)
      (groupRotationY c)
  else c.

Definition onPointerUp (isPrimary : bool) (c : Controller) : Controller :=
  if isPrimary
  then
    mkController (zoomTarget c) false (lastPointerX c) (lastTouchDistance c)
      (rotationVelocity c) (wasDetected c) (lastHandX c)
      (currentInput_x c) (currentInput_y c) (cameraPosition c)
      (groupRotationY c)
  else c.

Definition onPointerMove (isPrimary : bool) (clientX : R) (c : Controller)
  : Controller :=
  if isPrimary && isDragging c
  then
    match groupRotationY c, lastTouchDistance c with
    | Some rotationY, None =>
      let deltaX := clientX - lastPointerX c in
      let rotationAmount := deltaX * 0.005 in
      mkController (zoomTarget c) (isDragging c) clientX None
        rotationAmount (wasDetected c) (lastHandX c)
        (currentInput_x c) (currentInput_y c) (cameraPosition c)
        (Some (rotationY + rotationAmount))
    | _, _ => c
    end
  else c.

(** The distance between the two touches of a two-finger gesture. *)
Definition touchDistance (touches : list (R * R)) : option R :=
  match touches with
  | [t0; t1] =>
    let dx := fst t0 - fst t1 in
    let dy := snd t0 - snd t1 in
    Some (sqrt (dx * dx + dy * dy))
  | _ => None
  end.

Definition setLastTouchDistance (d : option R) (zoom : R) (c : Controller)
  : Controller :=
  mkController zoom (isDragging c) (lastPointerX c) d
    (rotationVelocity c) (wasDetected c) (lastHandX c)
    (currentInput_x c) (currentInput_y c) (cameraPosition c)
    (groupRotationY c).

Definition onTouchStart (touches : list (R * R)) (c : Controller)
  : Controller :=
  match touchDistance touches with
  | Some distance => setLastTouchDistance (Some distance) (zoomTarget c) c
  | None => c
  end.

Definition onTouchMove (touches : list (R * R)) (c : Controller)
  : Controller :=
  match touchDistance touches with
  | Some distance =>
    let zoom :=
      match lastTouchDistance c with
      | Some last =>
        let diff := last - distance in
        let sensitivity := 0.15 in
        clamp (zoomTarget c + diff * sensitivity) 12 55
      | None => zoomTarget c
      end in
    setLastTouchDistance (Some distance) zoom c
  | None => c
  end.

Definition onTouchEnd (c : Controller) : Controller :=
  setLastTouchDistance None (zoomTarget c) c.

(** The frame callback. *)
Definition useFrame (input : InputRef) (delta : R) (c : Controller)
  : Controller :=
  let safeDelta := Rmin delta 0.1 in
  let targetX := in_x input in
  let targetY := in_y input in
  let isHandDetected := default false (in_isDetected input) in
  let inputSmoothing := 4.0 * safeDelta in
  let cx := MathUtils_lerp (currentInput_x c) targetX inputSmoothing in
  let cy := MathUtils_lerp (currentInput_y c) targetY inputSmoothing in
  let camX := cx * 4 in
  let camY := cy * 2 in
  let camZ := zoomTarget c + Rabs cx * 2 in
  let camera :=
    lerpVectors (cameraPosition c) (mkVector3 camX camY camZ)
                (4.0 * safeDelta) in
  match groupRotationY c with
  | None =>
    mkController (zoomTarget c) (isDragging c) (lastPointerX c)
      (lastTouchDistance c) (rotationVelocity c) (wasDetected c)
      (lastHandX c) cx cy camera None
  | Some rotationY =>
    let isHandOpen := default false (in_isOpen input) in
    if isHandDetected && isHandOpen && negb (isDragging c)
    then
      let currentX := cx in
      match lastHandX c with
      | None =>
        mkController (zoomTarget c) (isDragging c) (lastPointerX c)
          (lastTouchDistance c) 0 true (Some currentX) cx cy camera
          (Some rotationY)
      | Some last =>
        let dx := currentX - last in
        let deadzone := 0.01 in
        if bool_decide (Rabs dx > deadzone)
        then
          let WAVE_ROTATION_FACTOR := 3.5 in
          let rotationAmount := dx * WAVE_ROTATION_FACTOR in
          mkController (zoomTarget c) (isDragging c) (lastPointerX c)
            (lastTouchDistance c) rotationAmount true (Some currentX)
            cx cy camera (Some (rotationY + rotationAmount))
        else
          mkController (zoomTarget c) (isDragging c) (lastPointerX c)
            (lastTouchDistance c) (rotationVelocity c) true (Some currentX)
            cx cy camera (Some rotationY)
      end
    else
      let velocity :=
        if wasDetected c && bool_decide (Rabs (rotationVelocity c) < 0.0001)
        then 0.002
        else rotationVelocity c in
      if negb (isDragging c)
      then
        let baseSpeed := 0.002 in
        mkController (zoomTarget c) (isDragging c) (lastPointerX c)
          (lastTouchDistance c)
          (MathUtils_lerp velocity baseSpeed (safeDelta * 0.5))
          false None cx cy camera (Some (rotationY + velocity))
      else
        mkController (zoomTarget c) (isDragging c) (lastPointerX c)
          (lastTouchDistance c) velocity false None cx cy camera
          (Some rotationY)
  end.

(** What reaches the controller over time. *)
Inductive Event :=
| Wheel (deltaY : R)
| PointerDown (isPrimary : bool) (button : Z) (clientX : R)
| PointerUp (isPrimary : bool)
| PointerMove (isPrimary : bool) (clientX : R)
| TouchStart (touches : list (R * R))
| TouchMove (touches : list (R * R))
| TouchEnd
| Frame (input : InputRef) (delta : R).

Definition step (c : Controller) (ev : Event) : Controller :=
  match ev with
  | Wheel deltaY => onWheel deltaY c
  | PointerDown isPrimary button clientX =>
    onPointerDown isPrimary button clientX c
  | PointerUp isPrimary => onPointerUp isPrimary c
  | PointerMove isPrimary clientX => onPointerMove isPrimary clientX c
  | TouchStart touches => onTouchStart touches c
  | TouchMove touches => onTouchMove touches c
  | TouchEnd => onTouchEnd c
  | Frame input delta => useFrame input delta c
  end.

Definition run (c : Controller) (events : list Event) : Controller :=
  foldl step c events.

(** The frames of a run have an elapsed time that is not negative. *)
Definition forwardInTime (ev : Event) : Prop :=
  match ev with
  | Frame _ delta => 0 <= delta
  | _ => True
  end.

(** What [handleGesture] of [App.tsx] writes into [inputRef.current] for a
    detected hand, and its update for a lost hand: [isOpen] is never
    written. *)
Record HandGesture := mkHandGesture
  { hg_isOpen : bool; hg_x : R; hg_y : R; hg_isDetected : bool }.

Definition handleGesture_input (data : HandGesture) (current : InputRef)
  : InputRef :=
  if hg_isDetected data
  then mkInputRef (hg_x data * 1.2) (hg_y data) (Some true) None
  else mkInputRef (in_x current) (in_y current) (Some false)
                  (in_isOpen current).

(** [inputRef] as [App] creates it. *)
Definition initialInput : InputRef := mkInputRef 0 0 (Some false) None.

(** The frames of a run only see inputs without [isOpen]. *)
Definition withoutIsOpen (ev : Event) : Prop :=
  match ev with
  | Frame input _ => in_isOpen input = None
  | _ => True
  end.

End SceneController.

(** ** [App.tsx]: the mix target, the photo editor and the gallery *)

Module App.
Import Num Texture.
Local Open Scope R_scope.

(** *** The mix target *)

(** What the handlers do to [targetMix]: [handleGesture], [toggleState],
    [handleAddCard], and the two writes of [handleFileChange] (dispersing
    at once, assembling after the timers). *)
Inductive MixEvent :=
| Gesture (isDetected isOpen : bool)
| ToggleState
| AddCard
| FilesChosen
| FilesAssembled.

Definition handleGesture (isDetected isOpen : bool) (prev : R) : R :=
  if isDetected
  then
    let newTarget := if isOpen then 0 else 1 in
    if Req_dec_T prev newTarget then prev else newTarget
  else prev.

Definition toggleState (prev : R) : R := if Req_dec_T prev 1 then 0 else 1.

Definition mixStep (prev : R) (ev : MixEvent) : R :=
  match ev with
  | Gesture isDetected isOpen => handleGesture isDetected isOpen prev
  | ToggleState => toggleState prev
  | AddCard => 1
  | FilesChosen => 0
  | FilesAssembled => 1
  end.

(** [useState(1)], then the events. *)
Definition targetMix (events : list MixEvent) : R := foldl mixStep 1 events.

(** *** [DraggableZoomableImage] and the controls of the focus overlay *)

(** [Math.sign]. *)
Definition Math_sign (x : R) : R :=
  if bool_decide (x < 0) then -1 else if bool_decide (x > 0) then 1 else 0.

(** The transform being edited ([scale], [offset]) and the refs of the
    component. *)
Record Editor := mkEditor
  { ed_scale : R; ed_offset_x : R; ed_offset_y : R;
    draggingRef : bool; lastRef_x : R; lastRef_y : R }.

Inductive EditorEvent :=
| EdPointerDown (clientX clientY : R)
| EdPointerMove (clientX clientY rectWidth rectHeight : R)
| EdPointerUp
| EdWheel (deltaY : R)
| EdMinus
| EdPlus
| EdNudge (delta : R)
| EdReset.

(** One event on an image shown with the given [editable] flag.  The
    buttons ([EdMinus], [EdPlus], [EdNudge]) exist only on an editable
    image. *)
Definition editorStep (editable : bool) (ed : Editor) (ev : EditorEvent)
  : Editor :=
  match ev with
  | EdPointerDown clientX clientY =>
    if negb editable then ed
    else mkEditor (ed_scale ed) (ed_offset_x ed) (ed_offset_y ed)
                  true clientX clientY
  | EdPointerMove clientX clientY rectWidth rectHeight =>
    if negb editable || negb (draggingRef ed) then ed
    else
      let dx := clientX - lastRef_x ed in
      let dy := clientY - lastRef_y ed in
      let normDx := if Req_dec_T rectWidth 0 then 0 else dx / rectWidth in
      let normDy := if Req_dec_T rectHeight 0 then 0 else dy / rectHeight in
      mkEditor (ed_scale ed)
               (clampValue (ed_offset_x ed + normDx) (-0.6) 0.6)
               (clampValue (ed_offset_y ed + normDy) (-0.6) 0.6)
               (draggingRef ed) clientX clientY
  | EdPointerUp =>
    if negb editable then ed
    else mkEditor (ed_scale ed) (ed_offset_x ed) (ed_offset_y ed)
                  false (lastRef_x ed) (lastRef_y ed)
  | EdWheel deltaY =>
    if negb editable then ed
    else
      let delta := - Math_sign deltaY * 0.1 in
      mkEditor (clampValue (ed_scale ed + delta) 0.5 2.5)
               (ed_offset_x ed) (ed_offset_y ed)
               (draggingRef ed) (lastRef_x ed) (lastRef_y ed)
  | EdMinus =>
    if negb editable then ed
    else mkEditor (clampValue (ed_scale ed - 0.15) 0.5 2.5)
                  (ed_offset_x ed) (ed_offset_y ed)
                  (draggingRef ed) (lastRef_x ed) (lastRef_y ed)
  | EdPlus =>
    if negb editable then ed
    else mkEditor (clampValue (ed_scale ed + 0.15) 0.5 2.5)
                  (ed_offset_x ed) (ed_offset_y ed)
                  (draggingRef ed) (lastRef_x ed) (lastRef_y ed)
  | EdNudge delta =>
    if negb editable then ed
    else mkEditor (clampValue (ed_scale ed + delta) 0.5 2.5)
                  (ed_offset_x ed) (ed_offset_y ed)
                  (draggingRef ed) (lastRef_x ed) (lastRef_y ed)
  | EdReset =>
    if negb editable then ed
    else mkEditor 1 0 0 (draggingRef ed) (lastRef_x ed) (lastRef_y ed)
  end.

Definition edit (editable : bool) (ed : Editor) (events : list EditorEvent)
  : Editor :=
  foldl (editorStep editable) ed events.




(** The three values are inside the safe ranges. *)
Definition inSafeRange (t : StoredTransform) : Prop :=
  0.5 <= st_scale t <= 2.5
  /\ -0.6 <= st_offset_x t <= 0.6
  /\ -0.6 <= st_offset_y t <= 0.6.

(** *** Focusing a photo or a card *)

(** The entry [handleFocusMedia] receives; [editable] may be missing. *)
Record FocusRequest := mkFocusRequest
  { fr_is_image : bool;
    fr_url : option string;
    fr_signature : option string;
    fr_id : option string;
    fr_cacheKey : option string;
    fr_editable : option bool }.

(** What [handleFocusMedia] sets. *)
Record Focus := mkFocus
  { focusedEntry : FocusedEntry;
    focusedSignature : string;
    focusScale : R;
    focusOffset_x : R;
    focusOffset_y : R }.

Definition handleFocusMedia (entry : FocusRequest)
    (photoSignatures : gmap string string)
    (photoTransforms : gmap string StoredTransform) : Focus :=
  let key :=
    default EmptyString
      (str_or (str_or (fr_cacheKey entry) (fr_url entry)) (fr_id entry)) in
  let normalizedEntry :=
    mkFocusedEntry (fr_is_image entry) (fr_cacheKey entry) (fr_url entry)
      (fr_id entry)
      (default (fr_is_image entry) (fr_editable entry)) in
  if fr_is_image entry
  then
    let t :=
      if decide (key = EmptyString) then None else photoTransforms !! key in
    mkFocus normalizedEntry
      (default EmptyString (photoSignatures !! key))
      (default 1 (st_scale <$> t))
      (default 0 (st_offset_x <$> t))
      (default 0 (st_offset_y <$> t))
  else
    mkFocus normalizedEntry (default EmptyString (fr_signature entry)) 1 0 0.



(** The save button of the overlay pressed on what was focused. *)
Definition saveFocus (f : Focus)
    (photoTransforms : gmap string StoredTransform)
  : gmap string StoredTransform :=
  handleSaveSignature (Some (focusedEntry f)) (focusScale f)
                      (focusOffset_x f) (focusOffset_y f) photoTransforms.

(** *** The gallery: [applyImageRecords] and [handleDeletePhoto] *)

(** A record of the gallery: cache key and object URL. *)
Record ImageRef := mkImageRef { ref_key : string; ref_url : string }.

Record Gallery := mkGallery
  { userImages : list string;
    userImageRecords : list ImageRef;
    photoSignatures : gmap string string;
    photoTransforms : gmap string StoredTransform;
    revoked : list string }.

(** [url && url.startsWith('blob:')]. *)
Definition isBlobUrl (url : string) : bool := String.prefix "blob:" url.

Definition revokeBlobUrls (urls : list string) (already : list string)
  : list string :=
  already ++ filter (fun url => isBlobUrl url = true) urls.

(** The transforms kept by [applyImageRecords]: those of the keys of the
    records, and the old table itself when none was dropped. *)
Definition keptTransforms (records : list ImageRef)
    (prev : gmap string StoredTransform) : gmap string StoredTransform :=
  let next :=
    foldl (fun next rec =>
             match prev !! ref_key rec with
             | Some t => <[ ref_key rec := t ]> next
             | None => next
             end)
          ∅ records in
  if decide (size prev = size next) then prev else next.

Definition applyImageRecords (records : list ImageRef) (g : Gallery)
  : Gallery :=
  let urls := ref_url <$> records in
  let toRevoke := filter (fun u => u ∉ urls) (userImages g) in
  mkGallery urls records (photoSignatures g)
            (keptTransforms records (photoTransforms g))
            (revokeBlobUrls toRevoke (revoked g)).

(** [handleDeletePhoto]; the cache is given with the answer of
    [deleteCachedImages] ([false] when the deletion was rejected and only
    logged). *)
Definition handleDeletePhoto (recordKey url : string) (deleted : bool)
    (g : Gallery) (cache : Idb.Store) : Gallery * Idb.Store :=
  let revoked1 := revokeBlobUrls [url] (revoked g) in
  let next :=
    filter (fun r => ref_key r <> recordKey) (userImageRecords g) in
  let g1 :=
    applyImageRecords next
      (mkGallery (userImages g) (userImageRecords g) (photoSignatures g)
                 (photoTransforms g) revoked1) in
  (mkGallery (userImages g1) (userImageRecords g1)
             (delete recordKey (photoSignatures g1))
             (delete recordKey (photoTransforms g1))
             (revoked g1),
   if deleted then Idb.deleteCachedImages [recordKey] cache else cache).

End App.

(** ** [Ornaments.tsx]: the photo entries and their slots *)

Module Registry.
Import Num Texture Ornaments.

(** A custom card. *)
Record Card := mkCard
  { card_id : string; card_message : string; card_signature : string }.

(** [imageKeyMap] as [Experience.tsx] builds it from the records:
    [map[rec.url] = rec.key], a later record overwriting an earlier one of
    the same URL. *)
Definition imageKeyMap (userImageRecords : list App.ImageRef)
  : gmap string string :=
  foldl (fun map rec => <[ App.ref_url rec := App.ref_key rec ]> map)
        ∅ userImageRecords.

(** [imageKeyMap[url] || `img-${idx}-${url}`]. *)
Definition cacheKeyOf (keyMap : gmap string string) (idx : nat)
    (url : string) : string :=
  let fallback := "img-" +:+ pretty idx +:+ "-" +:+ url in
  match keyMap !! url with
  | Some key => if decide (key = EmptyString) then fallback else key
  | None => fallback
  end.

(** An entry with the transform looked up for it. *)
Definition Entry : Type := PhotoEntry * option PhotoTransform.

Definition imageEntry (keyMap : gmap string string)
    (signatureText : option string)
    (photoTransforms : gmap string PhotoTransform)
    (idx : nat) (url : string) : Entry :=
  let key := cacheKeyOf keyMap idx url in
  (mkPhotoEntry (key +:+ "-" +:+ pretty idx) image (Some url) None
                signatureText None (Some key) false,
   photoTransforms !! key).

(** [userImages.forEach((url, idx) => { if (url) ... })], from index
    [idx] on. *)
Fixpoint imageEntries (keyMap : gmap string string)
    (signatureText : option string)
    (photoTransforms : gmap string PhotoTransform)
    (idx : nat) (userImages : list string) : list Entry :=
  match userImages with
  | [] => []
  | url :: rest =>
    let later :=
      imageEntries keyMap signatureText photoTransforms (S idx) rest in
    if decide (url = EmptyString) then later
    else imageEntry keyMap signatureText photoTransforms idx url :: later
  end.

Definition cardEntry (c : Card) : Entry :=
  (mkPhotoEntry ("card-" +:+ card_id c) card None (Some (card_message c))
                (Some (card_signature c)) (Some (card_id c)) None false,
   None).

(** The [photoEntries] memo of a photo layer. *)
Definition photoEntries (userImages : list string)
    (keyMap : gmap string string) (signatureText : option string)
    (customCards : list Card)
    (photoTransforms : gmap string PhotoTransform) : list Entry :=
  imageEntries keyMap signatureText photoTransforms 0 userImages
  ++ (cardEntry <$> customCards).

(** Whether the slot's entry is drawn: an image with its URL, or a card
    (whose texture always exists). *)
Definition drawn (e : Entry) : bool :=
  match pe_kind (fst e) with
  | image =>
    match pe_url (fst e) with
    | Some url => negb (bool_decide (url = EmptyString))
    | None => false
    end
  | card => true
  end.

(** The photo branch of the render: nothing at all without entries,
    otherwise one element per slot of [data], empty where the slot has no
    entry. *)
Definition renderPhotos (data : list OrnamentData) (entries : list Entry)
  : option (list (option (OrnamentData * Entry))) :=
  match entries with
  | [] => None
  | _ =>
    Some (imap (fun i item =>
                  match entries !! i with
                  | Some entry =>
                    if drawn entry then Some (item, entry) else None
                  | None => None
                  end) data)
  end.

(** The number of user images that are not the empty URL. *)
Definition shownImages (userImages : list string) : nat :=
  length (filter (fun url => url <> EmptyString) userImages).

(** [onFocusMedia] is handed down unchanged from [App] ([handleFocusMedia])
    through [Experience]: the descriptor [emitFocus] builds, as the handler
    reads it. *)
Definition onFocusMedia (m : MediaEntry) : App.FocusRequest :=
  App.mkFocusRequest
    (match me_kind m with image => true | card => false end)
    (me_url m) (me_signature m) (me_id m) (me_cacheKey m)
    (Some (me_editable m)).

(** The manager's button of an image record:
    [handleFocusMedia({ kind: 'image', url: rec.url, cacheKey: rec.key,
    editable: true })]. *)
Definition managerImage (rec : App.ImageRef) : App.FocusRequest :=
  App.mkFocusRequest true (Some (App.ref_url rec)) None None
                     (Some (App.ref_key rec)) (Some true).

End Registry.

(** ** [Ornaments.tsx]: the frame around a photo *)

Module PhotoFrame.
Import Num Texture.
Local Open Scope R_scope.

(** [texture.image] of a canvas texture is its canvas, read for its
    size. *)
Definition image_size (tex : CanvasTexture) : R * R :=
  match tex with
  | PhotoCanvas _ width height _ _ _ => (width, height)
  | FallbackCanvas width height _ => (width, height)
  end.

Record FrameLayout := mkFrameLayout
  { frameArgs : R * R * R;
    photoArgs : R * R;
    photoPos : Vector3;
    textPos : Vector3;
    textArgs : R * R }.

Definition maxSize : R := 0.85.
Definition mSide : R := 0.08.
Definition mTop : R := 0.08.
Definition mBottom : R := 0.20.

(** The layout memo of [PhotoFrameMesh], from [img?.width] and
    [img?.height]. *)
Definition frameLayout (imgWidth imgHeight : R) : FrameLayout :=
  let width := num_or imgWidth 1 in
  let height := num_or imgHeight 1 in
  let aspect := width / height in
  let pw := if Rge_dec aspect 1 then maxSize else maxSize * aspect in
  let ph := if Rge_dec aspect 1 then maxSize / aspect else maxSize in
  let fw := pw + mSide * 2 in
  let fh := ph + mTop + mBottom in
  let py := fh / 2 - mTop - ph / 2 in
  let ty := - (fh / 2) + mBottom / 2 in
  mkFrameLayout (fw, fh, 0.05) (pw, ph) (mkVector3 0 py 0.03)
                (mkVector3 0 ty 0.03) (fw, mBottom).

Definition PhotoFrameMesh_layout (tex : CanvasTexture) : FrameLayout :=
  frameLayout (fst (image_size tex)) (snd (image_size tex)).

End PhotoFrame.

(** ** The draws of [Math.random] *)

(** Every draw of the stream is in [[0, 1)], as [Math.random] promises. *)
Definition unitDraws (g : Num.Rng) : Prop := forall n : nat, (0 <= g n < 1)%R.

(* ===================================================================== *)
(** * Part II: the properties                                             *)
(* ===================================================================== *)

Section ClampFacts.
Import Num.
Local Open Scope R_scope.

Lemma clamp_range (v lo hi : R) : lo <= hi -> lo <= clamp v lo hi <= hi.
Proof.
  intros Hle. unfold clamp, Rmax, Rmin.
  repeat destruct Rle_dec; lra.
Qed.

Lemma clampValue_range (v lo hi : R) :
  lo <= hi -> lo <= clampValue v lo hi <= hi.
Proof.
  intros Hle. unfold clampValue, Rmax, Rmin.
  repeat destruct Rle_dec; lra.
Qed.



Lemma clamp_inside (v lo hi : R) : lo <= v <= hi -> clamp v lo hi = v.
Proof.
  intros Hv. unfold clamp, Rmax, Rmin.
  repeat destruct Rle_dec; lra.
Qed.

End ClampFacts.

(** ** Photo transforms and the texture loader *)

Section TextureFacts.
Import Num Texture.
Local Open Scope R_scope.










End TextureFacts.

Section LoaderFacts.
Import Num Texture.
Local Open Scope R_scope.

(** The handler of [load] cannot throw. *)
Lemma load_catch_returns (b : Browser) (url : string) (cancelled : bool)
    (err : Error) (st : HookState) :
  fst (load_catch b url cancelled err st) = Return tt.
Proof.
  unfold load_catch, bind, console_warn.
  by destruct cancelled.
Qed.

(** [load] catches whatever its body throws. *)
Lemma load_never_throws (b : Browser) (url : string)
    (transform : option PhotoTransform) (cancelled : bool) (st : HookState) :
  fst (load b url transform cancelled st) = Return tt.
Proof.
  unfold load, try_catch.
  destruct (load_try b url transform cancelled st) as [[[]|e] st'] eqn:Htry.
  - reflexivity.
  - apply load_catch_returns.
Qed.

(** C9.  When the image of an entry cannot be loaded or decoded, the run of
    [load] for that entry returns normally, the hook's texture is the
    generated fallback placeholder (so the entry is rendered over it), the
    failure is only logged, and no run of [load] ever ends in an
    exception. *)
Theorem load_failure_gives_fallback (b : Browser) (url : string)
    (transform : option PhotoTransform) (st : HookState) (e : Error) :
  loadImageElement b url = Throw e ->
  let fallback := createFallbackTexture b fallbackLabel in
  load b url transform false st
  = (Return tt,
     mkHookState (Some fallback) (Some fallback) (warnings st ++ [(url, e)]))
  /\ UserPhotoOrnament (snd (load b url transform false st)) = Some fallback
  /\ (exists label, fallback = FallbackCanvas 512 640 label)
  /\ forall (url' : string) (transform' : option PhotoTransform)
            (cancelled : bool) (st' : HookState),
      fst (load b url' transform' cancelled st') = Return tt.
Proof.
  intros Hfail fallback.
  assert (Hload : load b url transform false st
                  = (Return tt,
                     mkHookState (Some fallback) (Some fallback)
                                 (warnings st ++ [(url, e)]))).
  { unfold load, try_catch, load_try, load_catch, bind, lift.
    rewrite Hfail. reflexivity. }
  split; [exact Hload|].
  split; [by rewrite Hload|].
  split; [by eexists|].
  intros. apply load_never_throws.
Qed.

(** The URL that answers 404 (scenario D of the spec). *)
Lemma load_failure_gives_fallback_404 :
  loadImageElement browser404 "https://example.org/missing.png"
  = Throw (FetchStatus 404)
  /\ load browser404 "https://example.org/missing.png" None false initialHook
     = (Return tt,
        mkHookState
          (Some (FallbackCanvas 512 640 (Some fallbackLabel)))
          (Some (FallbackCanvas 512 640 (Some fallbackLabel)))
          [("https://example.org/missing.png"%string, FetchStatus 404)]).
Proof.
  split; [reflexivity|].
  apply (load_failure_gives_fallback browser404
           "https://example.org/missing.png" None initialHook
           (FetchStatus 404)).
  reflexivity.
Defined.

End LoaderFacts.

(** ** The distributor *)

Section DistributorFacts.
Import Num Ornaments.
Local Open Scope R_scope.

Variable randomVector3 : R -> Rng -> Vector3 * Rng.
Variable type : OrnamentType.
Variable count : nat.

Lemma progress_nonneg (i : nat) : 0 <= progress count i.
Proof.
  unfold progress.
  pose proof (sqrt_pos ((INR i + 1) / INR count)). lra.
Qed.

Lemma fraction_mono (i j : nat) :
  (0 < count)%nat -> (i <= j)%nat ->
  (INR i + 1) / INR count <= (INR j + 1) / INR count.
Proof.
  intros Hc Hij.
  apply lt_0_INR in Hc. apply le_INR in Hij.
  unfold Rdiv. apply Rmult_le_compat_r; [|lra].
  left. by apply Rinv_0_lt_compat.
Qed.

Lemma progress_mono (i j : nat) :
  (0 < count)%nat -> (i <= j)%nat -> progress count i <= progress count j.
Proof.
  intros Hc Hij. unfold progress.
  pose proof (sqrt_le_1_alt _ _ (fraction_mono i j Hc Hij)). lra.
Qed.

Lemma progress_last : (0 < count)%nat -> progress count (count - 1) = 0.9.
Proof.
  intros Hc. unfold progress.
  replace (INR (count - 1) + 1) with (INR count).
  - unfold Rdiv. rewrite Rinv_r, sqrt_1; [lra|].
    apply not_0_INR. lia.
  - rewrite minus_INR by lia. simpl. lra.
Qed.

Lemma progress_le_cap (i : nat) :
  (i < count)%nat -> progress count i <= 0.9.
Proof.
  intros Hi. rewrite <- progress_last by lia.
  apply progress_mono; lia.
Qed.

(** The formed position of a slot does not look at the random stream, at
    the colours or at the scale prop. *)
Lemma layout_targetPos (colors : option (list string)) (scale : R)
    (i : nat) (g : Rng) :
  targetPos (fst (layout randomVector3 type count colors scale i g))
  = formedPosition type count i.
Proof. reflexivity. Qed.

Lemma data_from_length (colors : option (list string)) (scale : R)
    (n i0 : nat) (g : Rng) :
  length (data_from randomVector3 type count colors scale n i0 g) = n.
Proof.
  revert i0 g. induction n as [|n IH]; intros i0 g; simpl; [done|].
  by rewrite IH.
Qed.

(** Slot [k] of the loop started at index [i0] is the item the loop body
    builds for index [i0 + k], from some state of the random stream. *)
Lemma data_from_lookup (colors : option (list string)) (scale : R)
    (n i0 : nat) (g : Rng) (k : nat) (item : OrnamentData) :
  data_from randomVector3 type count colors scale n i0 g !! k = Some item ->
  (k < n)%nat
  /\ exists g', item
       = fst (layout randomVector3 type count colors scale (i0 + k) g').
Proof.
  revert i0 g k. induction n as [|n IH]; intros i0 g k; simpl; [done|].
  destruct k as [|k]; simpl.
  - intros [= <-]. split; [lia|]. exists g. by rewrite Nat.add_0_r.
  - intros Hk. apply IH in Hk as [Hlt [g' ->]].
    split; [lia|]. exists g'. by rewrite Nat.add_succ_r.
Qed.

Lemma data_lookup (colors : option (list string)) (scale : R)
    (nImages nCards : nat) (g : Rng) (i : nat) (item : OrnamentData) :
  data randomVector3 type count colors scale nImages nCards g !! i = Some item ->
  exists g', item = fst (layout randomVector3 type count colors scale i g').
Proof.
  unfold data. intros Hi. by apply data_from_lookup in Hi as [_ Hi].
Qed.

Lemma data_length (colors : option (list string)) (scale : R)
    (nImages nCards : nat) (g : Rng) :
  length (data randomVector3 type count colors scale nImages nCards g)
  = if decide (type = PHOTO) then (nImages + nCards)%nat else count.
Proof.
  unfold data, photoCount. rewrite data_from_length.
  by destruct (decide (type = PHOTO)).
Qed.

End DistributorFacts.

Section DistributorClaims.
Import Num Ornaments.
Local Open Scope R_scope.

(** C2.  For every type and every [count > 0], the slot built for an index
    [i < count] has progress [sqrt((i+1)/count) * 0.9], radius
    [progress * 7.5] and height [9 - progress * 18] (its formed position is
    the point of that radius and height at angle [theta], pushed out by the
    type's factor); every slot below [count] is built for the non-photo
    types; the progress lies in [[0, 0.9]] and does not decrease with the
    index; and [count = 1] gives progress [0.9], radius [6.75] and height
    [-7.2]. *)
Theorem formed_layout_progress (type : OrnamentType) (count i : nat) :
  (0 < count)%nat -> (i < count)%nat ->
  let p := sqrt ((INR i + 1) / INR count) * 0.9 in
  (forall randomVector3 colors scale nImages nCards g item,
      data randomVector3 type count colors scale nImages nCards g !! i
      = Some item ->
      targetPos item
      = multiplyScalar
          (mkVector3 (p * 7.5 * cos (theta type i))
                     (9 - p * 18)
                     (p * 7.5 * sin (theta type i)))
          (pushOut type))
  /\ (type <> PHOTO ->
      forall randomVector3 colors scale nImages nCards g,
        is_Some
          (data randomVector3 type count colors scale nImages nCards g !! i))
  /\ 0 <= p <= 0.9
  /\ (forall j : nat,
         (i <= j < count)%nat -> p <= sqrt ((INR j + 1) / INR count) * 0.9)
  /\ (count = 1%nat -> p = 0.9 /\ p * 7.5 = 6.75 /\ 9 - p * 18 = -7.2).
Proof.
  intros Hc Hi p.
  assert (Hp : p = progress count i) by reflexivity.
  split.
  { intros rv colors scale nImages nCards g item Hitem.
    apply data_lookup in Hitem as [g' ->].
    rewrite layout_targetPos. reflexivity. }
  split.
  { intros Hty rv colors scale nImages nCards g.
    apply lookup_lt_is_Some. rewrite data_length.
    by destruct (decide (type = PHOTO)). }
  split.
  { rewrite Hp. split; [apply progress_nonneg | by apply progress_le_cap]. }
  split.
  { intros j [Hij Hj]. rewrite Hp. by apply progress_mono. }
  intros ->. assert (i = 0%nat) as Hi0 by lia.
  assert (Hp1 : p = 0.9).
  { rewrite Hp, Hi0. apply (progress_last 1). lia. }
  rewrite Hp1. lra.
Qed.

(** Scenario A of the spec: a single ball. *)
Lemma formed_layout_progress_single :
  sqrt ((INR 0 + 1) / INR 1) * 0.9 = 0.9
  /\ sqrt ((INR 0 + 1) / INR 1) * 0.9 * 7.5 = 6.75
  /\ 9 - sqrt ((INR 0 + 1) / INR 1) * 0.9 * 18 = -7.2.
Proof.
  apply (formed_layout_progress BALL 1 0); lia.
Defined.

(** C3, as the code has it.  The formed position of a slot is a function
    of the index, the type and the count alone, and so are the chaos
    position and the chaos tilt of a photo slot: two builds of the layout
    agree on them whatever the random draws, the colours and the scale
    prop are.  (The other fields are built from [Math.random] draws.) *)
Theorem formed_layout_deterministic
    (randomVector3 : R -> Rng -> Vector3 * Rng) (type : OrnamentType)
    (count i nImages nCards : nat)
    (colors1 colors2 : option (list string)) (scale1 scale2 : R)
    (g1 g2 : Rng) :
  let build1 := data randomVector3 type count colors1 scale1 nImages nCards g1 in
  let build2 := data randomVector3 type count colors2 scale2 nImages nCards g2 in
  targetPos <$> build1 !! i = targetPos <$> build2 !! i
  /\ (forall item, build1 !! i = Some item ->
                   targetPos item = formedPosition type count i)
  /\ (type = PHOTO ->
      chaosPos <$> build1 !! i = chaosPos <$> build2 !! i
      /\ chaosTilt <$> build1 !! i = chaosTilt <$> build2 !! i
      /\ forall item, build1 !! i = Some item ->
                      chaosPos item = photoChaosPosition count i
                      /\ chaosTilt item = photoChaosTilt i).
Proof.
  intros build1 build2.
  assert (Hlen : length build1 = length build2).
  { unfold build1, build2. by rewrite !data_length. }
  assert (Hfield : forall (A : Type) (f : OrnamentData -> A) (v : A),
             (forall colors scale g,
                 f (fst (layout randomVector3 type count colors scale i g)) = v) ->
             f <$> build1 !! i = f <$> build2 !! i).
  { intros A f v Hf.
    destruct (build1 !! i) as [item1|] eqn:H1;
      destruct (build2 !! i) as [item2|] eqn:H2; simpl.
    - apply data_lookup in H1 as [g1' ->].
      apply data_lookup in H2 as [g2' ->].
      by rewrite !Hf.
    - apply lookup_lt_Some in H1. apply lookup_ge_None in H2. lia.
    - apply lookup_lt_Some in H2. apply lookup_ge_None in H1. lia.
    - reflexivity. }
  split; [by apply (Hfield _ targetPos (formedPosition type count i))|].
  split.
  { intros item Hitem. apply data_lookup in Hitem as [g' ->]. reflexivity. }
  intros ->.
  split; [by apply (Hfield _ chaosPos (photoChaosPosition count i))|].
  split; [by apply (Hfield _ chaosTilt (photoChaosTilt i))|].
  intros item Hitem. apply data_lookup in Hitem as [g' ->]. by split.
Qed.

(** C3 as stated fails: the same index, type and count (one photo slot),
    built once with every draw [0] and once with every draw [0.5], give
    different layouts; they differ in the scale pair and in the
    rotation. *)
Lemma layout_depends_on_random_draws :
  data randomVector3_origin PHOTO 1 None 1 1 0 (fun _ => 0)
  <> data randomVector3_origin PHOTO 1 None 1 1 0 (fun _ => 0.5).
Proof.
  intros Heq.
  assert (Hx := f_equal
                  (fun l => match l with
                            | item :: _ => vx (targetScale item)
                            | [] => 0
                            end) Heq).
  unfold data, photoCount in Hx. simpl in Hx. lra.
Qed.

End DistributorClaims.

(** ** The per-frame composers *)

Section ComposerFacts.
Import Num Ornaments.
Local Open Scope R_scope.

Variable type : OrnamentType.
Variable item : OrnamentData.

Lemma mountSlot_inv (mixFactor : R) :
  slotInv type (mountSlot type item mixFactor).
Proof. destruct type; simpl; eauto 10. Qed.

Lemma renderFrame_inv (m : MeshState) (f : Frame) :
  slotInv type m -> slotInv type (renderFrame type item m f).
Proof.
  destruct m as [st|st|st]; simpl.
  - intros (Hp & Hb & [mesh Hmesh] & Hmat).
    unfold OrnamentMesh_useFrame. rewrite Hmesh, Hmat. simpl. eauto 10.
  - intros (Hb & [group Hgroup]).
    unfold GiftBoxMesh_useFrame. rewrite Hgroup. simpl. eauto.
  - intros (Hp & [group Hgroup] & [z Hz]).
    unfold PhotoFrameMesh_useFrame. rewrite Hgroup, Hz. simpl. eauto 10.
Qed.

Lemma foldl_renderFrame_inv (frames : list Frame) (m : MeshState) :
  slotInv type m -> slotInv type (foldl (renderFrame type item) m frames).
Proof.
  revert m. induction frames as [|f frames IH]; intros m Hm; simpl; [done|].
  apply IH. by apply renderFrame_inv.
Qed.

Lemma renderFrames_inv (mixFactor0 : R) (frames : list Frame) :
  slotInv type (renderFrames type item mixFactor0 frames).
Proof. apply foldl_renderFrame_inv, mountSlot_inv. Qed.

(** One frame moves the mix by [lerp] at the speed of the component. *)
Lemma renderFrame_mix (m : MeshState) (f : Frame) :
  slotInv type m ->
  currentMix (renderFrame type item m f)
  = lerp (currentMix m) (f_mixFactor f) (convergenceSpeed type * f_delta f).
Proof.
  destruct m as [st|st|st]; simpl.
  - intros (Hp & Hb & [mesh Hmesh] & Hmat).
    unfold OrnamentMesh_useFrame. rewrite Hmesh, Hmat. simpl.
    by destruct type.
  - intros (-> & [group Hgroup]).
    unfold GiftBoxMesh_useFrame. by rewrite Hgroup.
  - intros (-> & [group Hgroup] & [z Hz]).
    unfold PhotoFrameMesh_useFrame. by rewrite Hgroup, Hz.
Qed.

(** After a frame the object sits at the eased blend of its two poses. *)
Lemma renderFrame_position (m : MeshState) (f : Frame) :
  slotInv type m ->
  let m' := renderFrame type item m f in
  position <$> object3D m'
  = Some (lerpVectors (chaosPos item) (targetPos item)
                      (ease type (currentMix m'))).
Proof.
  destruct m as [st|st|st]; simpl.
  - intros (Hp & Hb & [mesh Hmesh] & Hmat).
    unfold OrnamentMesh_useFrame. rewrite Hmesh, Hmat. simpl.
    by destruct type.
  - intros (-> & [group Hgroup]).
    unfold GiftBoxMesh_useFrame. by rewrite Hgroup.
  - intros (-> & [group Hgroup] & [z Hz]).
    unfold PhotoFrameMesh_useFrame. by rewrite Hgroup, Hz.
Qed.

End ComposerFacts.

Section ComposerClaims.
Import Num Ornaments.
Local Open Scope R_scope.

Lemma SpiralLights_frames_attached (mixFactor0 : R) (frames : list (R * R)) :
  sl_meshRef (SpiralLights_frames mixFactor0 frames) = true.
Proof.
  unfold SpiralLights_frames.
  assert (Hgen : forall st, sl_meshRef st = true ->
            sl_meshRef (foldl (fun st f =>
                                 SpiralLights_useFrame (fst f) (snd f) st)
                              st frames) = true).
  { induction frames as [|f frames IH]; intros st Hst; simpl; [done|].
    apply IH. unfold SpiralLights_useFrame. by rewrite Hst. }
  by apply Hgen.
Qed.

(** C1, as the code has it.  On every rendered frame of every ornament
    slot the mix moves by
    [current + (target - current) * clamp(k * dt, 0, 1)], where [k] is
    [0.9] for the types ball, box, star, candy and crystal and [0.8] for
    photo frames; the light strip follows the same rule with [k = 2.0]. *)
Theorem mix_transition_rule (type : OrnamentType) (item : OrnamentData)
    (mixFactor0 : R) (frames : list Frame) (f : Frame)
    (lightFrames : list (R * R)) (mixFactor delta : R) :
  let m := renderFrames type item mixFactor0 frames in
  let lights := SpiralLights_frames mixFactor0 lightFrames in
  currentMix (renderFrame type item m f)
  = currentMix m
    + (f_mixFactor f - currentMix m)
      * clamp ((if decide (type = PHOTO) then 0.8 else 0.9) * f_delta f) 0 1
  /\ sl_currentMixRef (SpiralLights_useFrame mixFactor delta lights)
     = sl_currentMixRef lights
       + (mixFactor - sl_currentMixRef lights) * clamp (2.0 * delta) 0 1.
Proof.
  intros m lights. split.
  - rewrite renderFrame_mix by apply renderFrames_inv.
    unfold lerp. by destruct type.
  - unfold SpiralLights_useFrame.
    unfold lights. by rewrite SpiralLights_frames_attached.
Qed.

(** C1 as stated fails for the non-photo types: a ball at mix [0] with
    target [1] and a frame of [0.1] s moves to [0.09], not to the [0.2]
    that a speed of [2.0] per second gives. *)
Lemma ball_speed_is_not_two :
  let m := mountSlot BALL exampleItem 0 in
  let f := mkFrame 1 exampleFrameState 0.1 in
  currentMix (renderFrame BALL exampleItem m f) = 0.09
  /\ currentMix m + (f_mixFactor f - currentMix m) * clamp (2.0 * f_delta f) 0 1
     = 0.2
  /\ currentMix (renderFrame BALL exampleItem m f)
     <> currentMix m
        + (f_mixFactor f - currentMix m) * clamp (2.0 * f_delta f) 0 1.
Proof.
  simpl. unfold lerp.
  rewrite (clamp_inside (0.9 * 0.1)) by lra.
  rewrite (clamp_inside (2.0 * 0.1)) by lra.
  repeat split; lra.
Qed.

(** C4.  On every rendered frame the position of a slot is
    [lerp(chaosPosition, formedPosition, ease(t))] for its current mix
    [t]; the ease is the smoothstep [t * t * (3 - 2 * t)] for ball, box,
    star, candy and crystal and the power [t ^ 0.6] for photo frames. *)
Theorem composed_position (type : OrnamentType) (item : OrnamentData)
    (mixFactor0 : R) (frames : list Frame) (f : Frame) :
  let m' := renderFrame type item (renderFrames type item mixFactor0 frames) f in
  position <$> object3D m'
  = Some (lerpVectors (chaosPos item) (targetPos item)
                      (ease type (currentMix m')))
  /\ (forall t : R,
         ease type t
         = if decide (type = PHOTO) then Math_pow t 0.6
           else t * t * (3 - 2 * t))
  /\ Math_pow 0 0.6 = 0
  /\ (forall t : R, 0 < t -> Math_pow t 0.6 = Rpower t 0.6).
Proof.
  intros m'. split.
  - apply renderFrame_position, renderFrames_inv.
  - split; [by destruct type|].
    unfold Math_pow. split.
    + destruct (Req_dec_T 0 0) as [_|Hne]; [|lra].
      destruct (Req_dec_T 0.6 0); [lra|done].
    + intros t Ht. destruct (Req_dec_T t 0); [lra|done].
Qed.

End ComposerClaims.

Section OrientationClaims.
Import Num Ornaments.
Local Open Scope R_scope.

(** On [[0, 1]] the smoothstep crosses one half exactly where its argument
    does. *)
Lemma smooth_below_half (t : R) :
  0 <= t <= 1 -> (smooth t < 0.5 <-> t < 0.5).
Proof.
  intros Ht. unfold smooth.
  assert (Hfact : t * t * (3 - 2 * t) - 0.5
                  = (t - 0.5) * (1 + 2 * t * (1 - t))) by lra.
  assert (Hpos : 1 <= 1 + 2 * t * (1 - t)) by nra.
  split; intros H; nra.
Qed.

Lemma renderFrame_orientation (type : OrnamentType) (item : OrnamentData)
    (m : MeshState) (f : Frame) :
  slotInv type m ->
  let m' := renderFrame type item m f in
  let e := ease type (currentMix m') in
  let axis :=
    mkVector3 0 (vy (lerpVectors (chaosPos item) (targetPos item) e)) 0 in
  let tumbling := FromEuler (tumble (rotation item) e (f_delta f)) in
  orientation <$> object3D m'
  = Some match type with
         | STAR =>
           if bool_decide (e > 0.8)
           then LookAt axis (Some (RotateZ (PI / 2))) else tumbling
         | CRYSTAL =>
           if bool_decide (e > 0.8) then LookAt axis None else tumbling
         | PHOTO =>
           if bool_decide (e > 0.8)
           then LookAt axis (Some (RotateY PI))
           else LookAt (camera_position (f_state f)) None
         | _ => tumbling
         end.
Proof.
  destruct m as [st|st|st]; simpl.
  - intros (Hp & Hb & [mesh Hmesh] & Hmat).
    unfold OrnamentMesh_useFrame. rewrite Hmesh, Hmat. simpl.
    destruct type; try done; simpl;
      try reflexivity; by destruct (bool_decide (_ > 0.8)).
  - intros (-> & [group Hgroup]).
    unfold GiftBoxMesh_useFrame. by rewrite Hgroup.
  - intros (-> & [group Hgroup] & [z Hz]).
    unfold PhotoFrameMesh_useFrame. rewrite Hgroup, Hz. simpl.
    by destruct (bool_decide (_ > 0.8)).
Qed.

Lemma renderFrame_tilt (item : OrnamentData) (m : MeshState) (f : Frame) :
  slotInv PHOTO m ->
  let m' := renderFrame PHOTO item m f in
  let e := ease PHOTO (currentMix m') in
  innerRotationZ m'
  = (fun z => lerp z (if bool_decide (e > 0.8) then 0 else chaosTilt item)
                   (0.8 * f_delta f))
    <$> innerRotationZ m.
Proof.
  destruct m as [st|st|st]; simpl.
  - by intros (Hp & _).
  - by intros (Hb & _).
  - intros (_ & [group Hgroup] & [z Hz]).
    unfold PhotoFrameMesh_useFrame. rewrite Hgroup, Hz. simpl.
    by destruct (bool_decide (_ > 0.8)).
Qed.

(** C5, as the code has it.  The thresholds are compared with the eased
    value [e = ease(t)] of the current mix [t], not with [t] itself.  Ball,
    box and candy take the slot's fixed rotation, with [dt * 0.5] added to
    [rotation.x] and [rotation.y] exactly while [e < 0.5] (for a mix in
    [[0, 1]] that is exactly while [t < 0.5]); star and crystal face the
    vertical axis through the scene centre exactly when [e > 0.8] and
    otherwise do as the others; a photo frame faces the camera while
    [e <= 0.8] and faces outward from the axis when [e > 0.8], its tilt
    moving by [lerp] at the photo speed [0.8 * dt] toward zero when
    [e > 0.8] and toward the slot's chaos tilt otherwise. *)
Theorem composed_orientation (type : OrnamentType) (item : OrnamentData)
    (mixFactor0 : R) (frames : list Frame) (f : Frame) :
  let m := renderFrames type item mixFactor0 frames in
  let m' := renderFrame type item m f in
  let e := ease type (currentMix m') in
  let dt := f_delta f in
  let axis :=
    mkVector3 0 (vy (lerpVectors (chaosPos item) (targetPos item) e)) 0 in
  let tumbling :=
    FromEuler (if bool_decide (e < 0.5)
               then mkEuler (ex (rotation item) + dt * 0.5)
                            (ey (rotation item) + dt * 0.5)
                            (ez (rotation item))
               else rotation item) in
  orientation <$> object3D m'
  = Some match type with
         | STAR =>
           if bool_decide (e > 0.8)
           then LookAt axis (Some (RotateZ (PI / 2))) else tumbling
         | CRYSTAL =>
           if bool_decide (e > 0.8) then LookAt axis None else tumbling
         | PHOTO =>
           if bool_decide (e > 0.8)
           then LookAt axis (Some (RotateY PI))
           else LookAt (camera_position (f_state f)) None
         | _ => tumbling
         end
  /\ (type = PHOTO ->
      innerRotationZ m'
      = (fun z => lerp z (if bool_decide (e > 0.8) then 0 else chaosTilt item)
                       (0.8 * dt))
        <$> innerRotationZ m)
  /\ (type <> PHOTO ->
      0 <= currentMix m' <= 1 -> (e < 0.5 <-> currentMix m' < 0.5)).
Proof.
  intros m m' e dt axis tumbling.
  split; [apply renderFrame_orientation, renderFrames_inv|].
  split.
  - intros ->. apply renderFrame_tilt, renderFrames_inv.
  - intros Hty Hrange. unfold e.
    replace (ease type (currentMix m')) with (smooth (currentMix m'))
      by (by destruct type).
    by apply smooth_below_half.
Qed.

(** C5 as stated fails when the thresholds are read on the mix [t]: a star
    mounted in chaos (mix [0]) whose target turns to [1] is, after one frame
    of [0.85] s, at mix [0.765] (not above [0.8]) and already faces the
    axis, because its eased value is [0.86028075]. *)
Lemma star_billboards_below_mix_threshold :
  let m := mountSlot STAR exampleItem 0 in
  let m' := renderFrame STAR exampleItem m
                        (mkFrame 1 exampleFrameState 0.85) in
  currentMix m' = 0.765
  /\ ~ currentMix m' > 0.8
  /\ smooth (currentMix m') = 0.86028075
  /\ orientation <$> object3D m'
     = Some (LookAt (mkVector3 0 (0 + (4 - 0) * 0.86028075) 0)
                    (Some (RotateZ (PI / 2)))).
Proof.
  intros m m'.
  assert (Hmix : currentMix m' = 0.765).
  { simpl. unfold lerp. rewrite (clamp_inside (0.9 * 0.85)) by lra. lra. }
  assert (Hsmooth : smooth (currentMix m') = 0.86028075).
  { rewrite Hmix. unfold smooth. lra. }
  split; [exact Hmix|]. split; [lra|]. split; [exact Hsmooth|].
  pose proof (renderFrame_orientation STAR exampleItem m
                (mkFrame 1 exampleFrameState 0.85)
                (mountSlot_inv STAR exampleItem 0)) as Hor.
  cbv zeta in Hor. fold m' in Hor. rewrite Hor.
  change (ease STAR (currentMix m')) with (smooth (currentMix m')).
  rewrite Hsmooth, bool_decide_true by lra.
  reflexivity.
Qed.

End OrientationClaims.

Section MountClaims.
Import Num Ornaments.
Local Open Scope R_scope.

(** [lerp] from a value to itself stays there. *)
Lemma lerp_same (x t : R) : lerp x x t = x.
Proof. unfold lerp. lra. Qed.

(** C6, as the code has it.  The mix of a ball, box, star, candy or
    crystal slot is initialised to the external target [mixFactor], so its
    first rendered frame leaves it there and puts the slot at the pose that
    target dictates; a photo frame and the light strip start from [1]
    (formed) whatever the target is. *)
Theorem mix_initialisation (type : OrnamentType) (item : OrnamentData)
    (mixFactor : R) (state : FrameState) (delta : R) :
  let m0 := mountSlot type item mixFactor in
  let m1 := slot_useFrame type item mixFactor state delta m0 in
  currentMix m0 = (if decide (type = PHOTO) then 1 else mixFactor)
  /\ (type <> PHOTO ->
      currentMix m1 = mixFactor
      /\ position <$> object3D m1
         = Some (lerpVectors (chaosPos item) (targetPos item)
                             (smooth mixFactor))
      /\ obj_scale <$> object3D m1
         = Some (lerpVectors (chaosScale item) (targetScale item)
                             (smooth mixFactor)))
  /\ (type <> PHOTO -> type <> BOX ->
      position <$> object3D m0
      = Some (lerpVectors (chaosPos item) (targetPos item)
                          (smooth mixFactor)))
  /\ sl_currentMixRef (SpiralLights_mount mixFactor) = 1.
Proof.
  intros m0 m1. split; [by destruct type|].
  split.
  { intros Hty. unfold m1, m0.
    destruct type; try done; simpl; by rewrite lerp_same. }
  split; [|done].
  intros Hp Hb. unfold m0. by destruct type.
Qed.

(** C6 as stated fails for photo frames: mounted while the target is [0]
    (chaos), a photo frame starts from mix [1], and after a first frame of
    [0.1] s it is at [0.92], not at the target. *)
Lemma photo_mix_starts_formed :
  let m0 := mountSlot PHOTO exampleItem 0 in
  let m1 := slot_useFrame PHOTO exampleItem 0 exampleFrameState 0.1 m0 in
  currentMix m0 = 1
  /\ currentMix m0 <> 0
  /\ currentMix m1 = 0.92
  /\ currentMix m1 <> 0.
Proof.
  simpl. unfold lerp.
  rewrite (clamp_inside (0.8 * 0.1)) by lra.
  repeat split; lra.
Qed.

End MountClaims.

Section ClickClaims.
Import Num Ornaments.
Local Open Scope R_scope.

(** C7, as the code has it.  A pointer click on a photo frame is accepted
    as a focus request exactly when a callback and an entry are present
    and the external target [mixFactor] is below [0.25]; the interpolated
    mix of the frame is not consulted.  An accepted click on a frame whose
    group is attached reports the screen projection of the group's world
    position, [((x * 0.5 + 0.5) * innerWidth, (y * -0.5 + 0.5) *
    innerHeight)] for the projected point [(x, y)], and that origin reaches
    the host callback together with the entry's descriptor. *)
Theorem click_to_focus (onFocus : bool) (entry : option PhotoEntry)
    (mixFactor : R) (parentToWorld : Vector3 -> Vector3) (window : Window)
    (e : PointerEvent) (st : PhotoFrameMeshState) :
  let call :=
    PhotoFrameMesh_onPointerDown onFocus entry mixFactor parentToWorld
                                 window e st in
  (is_Some call <-> onFocus = true /\ is_Some entry /\ mixFactor < 0.25)
  /\ (forall st' : PhotoFrameMeshState,
         pf_groupRef st' = pf_groupRef st ->
         PhotoFrameMesh_onPointerDown onFocus entry mixFactor parentToWorld
                                      window e st' = call)
  /\ (forall (en : PhotoEntry) (origin : ScreenPos) (group : Object3D),
         call = Some (en, origin) ->
         pf_groupRef st = Some group ->
         let proj := camera_project e (parentToWorld (position group)) in
         entry = Some en
         /\ origin = mkScreenPos ((vx proj * 0.5 + 0.5) * innerWidth window)
                                 ((vy proj * -0.5 + 0.5) * innerHeight window))
  /\ (forall (en : PhotoEntry) (origin : ScreenPos),
         call = Some (en, origin) ->
         onFocus = true ->
         photoClick true entry mixFactor parentToWorld window e st
         = Some (mkMediaEntry (pe_kind en) (pe_url en) (pe_message en)
                              (pe_signatureText en) (pe_id en)
                              (pe_cacheKey en) (pe_editable en),
                 origin)).
Proof.
  intros call. unfold call, photoClick, PhotoFrameMesh_onPointerDown.
  split.
  { destruct entry as [en|]; simpl.
    - destruct onFocus; simpl.
      + destruct (bool_decide (mixFactor < 0.25)) eqn:Hlt.
        * apply bool_decide_eq_true in Hlt.
          destruct (pf_groupRef st); split; eauto.
        * apply bool_decide_eq_false in Hlt.
          split; [by intros [? ?]|]. intros (_ & _ & H). done.
      + split; [by intros [? ?]|]. by intros (? & _).
    - split; [by intros [? ?]|]. by intros (_ & [? ?] & _). }
  split.
  { intros st' Href. by rewrite Href. }
  split.
  { intros en origin group Hcall Hgroup. rewrite Hgroup in Hcall.
    destruct entry as [en'|]; [|done].
    destruct (onFocus && bool_decide (mixFactor < 0.25)); [|done].
    by injection Hcall as -> <-. }
  intros en origin Hcall ->. simpl in *. rewrite Hcall. reflexivity.
Qed.

(** C7 as stated fails when [t] is the interpolated mix of the frame: a
    photo frame that has just been mounted is at mix [1], yet with the
    target at [0] its click is accepted. *)
Lemma click_accepted_at_mix_one :
  let st := PhotoFrameMesh_mount 0 in
  pf_currentMixRef st = 1
  /\ ~ pf_currentMixRef st < 0.25
  /\ PhotoFrameMesh_onPointerDown true (Some exampleEntry) 0 (fun v => v)
                                  exampleWindow exampleEvent st
     = Some (exampleEntry, mkScreenPos ((0 / 40 * 0.5 + 0.5) * 1280)
                                       ((0 / 40 * -0.5 + 0.5) * 720)).
Proof.
  simpl. split; [done|]. split; [lra|].
  unfold PhotoFrameMesh_onPointerDown. simpl.
  rewrite bool_decide_true by lra. reflexivity.
Qed.

End ClickClaims.

(** ** The image cache *)

Section IdbFacts.
Import Idb.

Lemma sort_insert_perm {A} (cmp : A -> A -> Z) (x : A) (l : list A) :
  sort_insert cmp x l ≡ₚ x :: l.
Proof.
  induction l as [|y l IH]; simpl; [done|].
  destruct (cmp x y <=? 0)%Z; [done|].
  rewrite IH. apply Permutation_swap.
Qed.

Lemma sort_perm {A} (cmp : A -> A -> Z) (l : list A) : sort cmp l ≡ₚ l.
Proof.
  unfold sort. induction l as [|x l IH]; simpl; [done|].
  rewrite sort_insert_perm. by f_equiv.
Qed.

Lemma sort_insert_sorted (x : string * ImageRecord)
    (l : list (string * ImageRecord)) :
  StronglySorted newerOrEqual l ->
  StronglySorted newerOrEqual (sort_insert newestFirst x l).
Proof.
  induction l as [|y l IH]; simpl; intros Hs.
  - repeat constructor.
  - apply StronglySorted_cons in Hs as [Hall Hs].
    destruct (Z.leb_spec (newestFirst x y) 0) as [Hle|Hgt];
      unfold newestFirst in *.
    + constructor; [by constructor|].
      constructor; [unfold newerOrEqual; lia|].
      eapply Forall_impl; [exact Hall|].
      unfold newerOrEqual. intros z Hz. lia.
    + constructor; [by apply IH|].
      rewrite sort_insert_perm. constructor; [unfold newerOrEqual; lia|done].
Qed.

Lemma sort_sorted (l : list (string * ImageRecord)) :
  StronglySorted newerOrEqual (sort newestFirst l).
Proof.
  unfold sort. induction l as [|x l IH]; simpl; [constructor|].
  by apply sort_insert_sorted.
Qed.

Lemma relativeIndex_nonneg (len : nat) (k : Z) :
  (0 <= k)%Z -> relativeIndex len k = min (Z.to_nat k) len.
Proof.
  intros Hk. unfold relativeIndex.
  destruct (Z.ltb_spec k 0); lia.
Qed.

Lemma slice_take {A} (l : list A) (limit : Z) :
  (0 <= limit)%Z -> slice l 0 limit = take (Z.to_nat limit) l.
Proof.
  intros Hl. unfold slice.
  rewrite !relativeIndex_nonneg by lia. simpl.
  rewrite Nat.sub_0_r, drop_0.
  destruct (decide (Z.to_nat limit <= length l)) as [Hle|Hgt].
  - by rewrite Nat.min_l.
  - rewrite Nat.min_r by lia. by rewrite !take_ge by lia.
Qed.

Lemma slice_from_drop {A} (l : list A) (limit : Z) :
  (0 <= limit)%Z -> slice_from l limit = drop (Z.to_nat limit) l.
Proof.
  intros Hl. unfold slice_from.
  rewrite relativeIndex_nonneg by lia.
  destruct (decide (Z.to_nat limit <= length l)) as [Hle|Hgt].
  - by rewrite Nat.min_l.
  - rewrite Nat.min_r by lia. by rewrite !drop_ge by lia.
Qed.

Lemma sorted_records_perm (store : Store) :
  sort newestFirst (getAllRecords store) ≡ₚ map_to_list store.
Proof. unfold getAllRecords. by rewrite !sort_perm. Qed.

Lemma deleteKeys_lookup (keys : list string) (store : Store) (k : string) :
  deleteKeys keys store !! k
  = if decide (k ∈ keys) then None else store !! k.
Proof.
  induction keys as [|key keys IH]; simpl.
  - destruct (decide (k ∈ [])) as [Hin|_]; [by apply elem_of_nil in Hin|done].
  - rewrite lookup_delete. destruct (decide (key = k)) as [->|Hne].
    + destruct (decide (k ∈ k :: keys)) as [_|Hnin]; [done|].
      exfalso. apply Hnin. by left.
    + rewrite IH.
      destruct (decide (k ∈ keys)) as [Hin|Hnin];
        destruct (decide (k ∈ key :: keys)) as [Hin'|Hnin']; try done.
      * exfalso. apply Hnin'. by right.
      * apply elem_of_cons in Hin' as [->|?]; done.
Qed.

End IdbFacts.

Section IdbClaims.
Import Idb.

(** What the second half of [saveImagesToCacheWithKeys] leaves: of the
    records sorted newest first, the first [n] stay and the rest go. *)
Lemma prune_lookup (store1 : Store) (n : nat) (k : string) (r : ImageRecord) :
  let sorted := sort newestFirst (getAllRecords store1) in
  deleteKeys ((drop n sorted).*1) store1 !! k = Some r
  <-> (k, r) ∈ take n sorted.
Proof.
  intros sorted.
  assert (Hperm : sorted ≡ₚ map_to_list store1)
    by apply sorted_records_perm.
  assert (Hnodup : NoDup ((take n sorted).*1 ++ (drop n sorted).*1)).
  { rewrite <- fmap_app, take_drop, Hperm. apply NoDup_fst_map_to_list. }
  apply NoDup_app in Hnodup as (_ & Hdisj & _).
  rewrite deleteKeys_lookup.
  destruct (decide (k ∈ (drop n sorted).*1)) as [Hin|Hnin].
  - split; [done|]. intros Hkept. exfalso.
    apply (Hdisj k); [|done].
    by apply (list_elem_of_fmap_2 fst) in Hkept.
  - rewrite <- elem_of_map_to_list, <- Hperm.
    rewrite <- (take_drop n sorted) at 1. rewrite elem_of_app.
    split; [|by left].
    intros [Hkept|Hdropped]; [done|]. exfalso. apply Hnin.
    by apply (list_elem_of_fmap_2 fst) in Hdropped.
Qed.

Lemma prune_size (store1 : Store) (n : nat) :
  let sorted := sort newestFirst (getAllRecords store1) in
  size (deleteKeys ((drop n sorted).*1) store1) = min n (size store1).
Proof.
  intros sorted.
  assert (Hperm : sorted ≡ₚ map_to_list store1)
    by apply sorted_records_perm.
  assert (Hkept : map_to_list (deleteKeys ((drop n sorted).*1) store1)
                  ≡ₚ take n sorted).
  { apply NoDup_Permutation.
    - apply NoDup_map_to_list.
    - assert (Hnd : NoDup (take n sorted ++ drop n sorted)).
      { rewrite take_drop, Hperm. apply NoDup_map_to_list. }
      by apply NoDup_app in Hnd as (? & _).
    - intros [k r]. rewrite elem_of_map_to_list. apply prune_lookup. }
  rewrite <- length_map_to_list, Hkept, length_take.
  by rewrite Hperm, length_map_to_list.
Qed.

(** With files to save, the guard at the top is passed. *)
Lemma save_nonempty (timestamp : Z) (suffix : nat -> string)
    (files : list Blob) (limit : Z) (store : Store) :
  files <> [] ->
  saveImagesToCacheWithKeys timestamp suffix files limit store
  = (let store1 := putFiles timestamp suffix 0 files store in
     let sorted := sort newestFirst (getAllRecords store1) in
     (match fst <$> slice_from sorted limit with
      | [] => store1
      | _ => deleteKeys (fst <$> slice_from sorted limit) store1
      end,
      withUrl <$> slice sorted 0 limit)).
Proof. by destruct files. Qed.

(** C10, as the code has it.  After [saveImagesToCacheWithKeys(files,
    limit)] with a non-empty [files] and a limit that is not negative has
    resolved, the cache holds at most [limit] records: the records it held
    once the files were put, cut down to the [limit] newest by [createdAt]
    (every record kept is at least as new as every record removed); and the
    list returned holds exactly the records kept, newest first, each as its
    key with the object URL of its blob. *)
Theorem save_keeps_newest (timestamp : Z) (suffix : nat -> string)
    (files : list Blob) (limit : Z) (store : Store) :
  files <> [] ->
  (0 <= limit)%Z ->
  let store1 := putFiles timestamp suffix 0 files store in
  let store2 :=
    fst (saveImagesToCacheWithKeys timestamp suffix files limit store) in
  let result :=
    snd (saveImagesToCacheWithKeys timestamp suffix files limit store) in
  (Z.of_nat (size store2) <= limit)%Z
  /\ size store2 = min (Z.to_nat limit) (size store1)
  /\ store2 ⊆ store1
  /\ (forall k r k' r',
         store2 !! k = Some r -> store1 !! k' = Some r' ->
         store2 !! k' = None ->
         (createdAt r' <= createdAt r)%Z)
  /\ exists kept : list (string * ImageRecord),
      result = (fun kr => (fst kr, ObjectURL (blob (snd kr)))) <$> kept
      /\ (forall k r, (k, r) ∈ kept <-> store2 !! k = Some r)
      /\ NoDup kept.*1
      /\ StronglySorted
           (fun a b => (createdAt (snd b) <= createdAt (snd a))%Z) kept.
Proof.
  intros Hfiles Hlimit store1 store2 result.
  set (sorted := sort newestFirst (getAllRecords store1)).
  set (n := Z.to_nat limit).
  assert (Hstore2 : store2 = deleteKeys ((drop n sorted).*1) store1).
  { unfold store2. rewrite save_nonempty by done. simpl.
    fold store1. fold sorted. rewrite slice_from_drop by done. fold n.
    by destruct ((drop n sorted).*1). }
  assert (Hresult : result = withUrl <$> take n sorted).
  { unfold result. rewrite save_nonempty by done. simpl.
    fold store1. fold sorted. by rewrite slice_take by done. }
  assert (Hlook : forall k r, store2 !! k = Some r <-> (k, r) ∈ take n sorted).
  { intros k r. rewrite Hstore2. apply prune_lookup. }
  assert (Hsize : size store2 = min n (size store1)).
  { rewrite Hstore2. apply prune_size. }
  assert (Hsorted : StronglySorted newerOrEqual (take n sorted ++ drop n sorted)).
  { rewrite take_drop. apply sort_sorted. }
  assert (Hperm : sorted ≡ₚ map_to_list store1)
    by apply sorted_records_perm.
  split; [lia|]. split; [exact Hsize|].
  split.
  { apply map_subseteq_spec. intros k r Hk.
    rewrite Hstore2, deleteKeys_lookup in Hk.
    by destruct (decide (k ∈ (drop n sorted).*1)). }
  split.
  { intros k r k' r' Hk Hk' Hgone.
    apply Hlook in Hk.
    assert (Hdropped : (k', r') ∈ drop n sorted).
    { apply elem_of_map_to_list in Hk'. rewrite <- Hperm in Hk'.
      rewrite <- (take_drop n sorted) in Hk'.
      apply elem_of_app in Hk' as [Hkept|?]; [|done].
      apply Hlook in Hkept. congruence. }
    apply (StronglySorted_app_1_elem_of _ _ _ _ _ Hsorted Hk Hdropped). }
  exists (take n sorted).
  split; [exact Hresult|].
  split; [intros k r; symmetry; apply Hlook|].
  split.
  { assert (Hnd : NoDup ((take n sorted).*1 ++ (drop n sorted).*1)).
    { rewrite <- fmap_app, take_drop, Hperm. apply NoDup_fst_map_to_list. }
    by apply NoDup_app in Hnd as (? & _). }
  by apply StronglySorted_app_1_l in Hsorted.
Qed.

(** Three files saved into an empty cache with a limit of two. *)
Lemma save_keeps_newest_three_files :
  (Z.of_nat
     (size (fst (saveImagesToCacheWithKeys
                   1700000000000 (fun _ => "9f3a"%string)
                   ["x"; "y"; "z"]%string 2 ∅))) <= 2)%Z.
Proof.
  refine (proj1 (save_keeps_newest 1700000000000 (fun _ => "9f3a"%string)
                                   ["x"; "y"; "z"]%string 2 ∅ _ _)).
  - discriminate.
  - lia.
Defined.

(** C10 as stated fails for an empty [files]: the call returns at once.
    With a cache of two records the list returned is empty rather than
    those two records (limit [50]), and under a limit of [1] the cache is
    left with its two records. *)
Lemma save_nothing_prunes_nothing :
  saveImagesToCacheWithKeys 1700000000000 (fun _ => "9f3a"%string) [] 50
                            exampleStore
  = (exampleStore, [])
  /\ saveImagesToCacheWithKeys 1700000000000 (fun _ => "9f3a"%string) [] 1
                               exampleStore
     = (exampleStore, [])
  /\ size exampleStore = 2%nat
  /\ ~ (Z.of_nat
          (size (fst (saveImagesToCacheWithKeys
                        1700000000000 (fun _ => "9f3a"%string) [] 1
                        exampleStore))) <= 1)%Z.
Proof.
  assert (Hsize : size exampleStore = 2%nat) by (vm_compute; reflexivity).
  split; [reflexivity|].
  split; [reflexivity|].
  split; [exact Hsize|].
  cbn [saveImagesToCacheWithKeys fst]. rewrite Hsize. lia.
Qed.

End IdbClaims.

(** ** More on the image cache *)

Section StringOrder.

Lemma ascii_compare_lt_trans (a b c : Ascii.ascii) :
  Ascii.compare a b = Lt -> Ascii.compare b c = Lt -> Ascii.compare a c = Lt.
Proof.
  unfold Ascii.compare. rewrite !N.compare_lt_iff. lia.
Qed.

Lemma ascii_compare_refl (a : Ascii.ascii) : Ascii.compare a a = Eq.
Proof. unfold Ascii.compare. apply N.compare_refl. Qed.


Lemma string_compare_lt_trans (s1 s2 s3 : string) :
  String.compare s1 s2 = Lt -> String.compare s2 s3 = Lt ->
  String.compare s1 s3 = Lt.
Proof.
  revert s2 s3. induction s1 as [|a s1 IH]; intros [|b s2] [|c s3]; simpl;
    try done.
  destruct (Ascii.compare a b) eqn:Hab; try done;
    destruct (Ascii.compare b c) eqn:Hbc; try done.
  - apply Ascii.compare_eq_iff in Hab as ->.
    apply Ascii.compare_eq_iff in Hbc as ->.
    rewrite ascii_compare_refl. apply IH.
  - apply Ascii.compare_eq_iff in Hab as ->. by rewrite Hbc.
  - apply Ascii.compare_eq_iff in Hbc as <-. by rewrite Hab.
  - by rewrite (ascii_compare_lt_trans a b c).
Qed.


Lemma string_compare_gt_lt (s1 s2 : string) :
  String.compare s1 s2 = Gt -> String.compare s2 s1 = Lt.
Proof.
  intros H. rewrite String.compare_antisym, H. done.
Qed.

End StringOrder.

Section IdbOrder.
Import Idb.

Lemma byKey_insert_sorted (x : string * ImageRecord)
    (l : list (string * ImageRecord)) :
  StronglySorted keyBefore l -> fst x ∉ l.*1 ->
  StronglySorted keyBefore (sort_insert byKey x l).
Proof.
  induction l as [|y l IH]; simpl; intros Hs Hfresh.
  - repeat constructor.
  - apply StronglySorted_cons in Hs as [Hall Hs].
    apply not_elem_of_cons in Hfresh as [Hne Hfresh].
    unfold byKey at 1, key_cmp.
    destruct (String.compare (fst x) (fst y)) eqn:Hcmp; simpl.
    + by apply String.compare_eq_iff in Hcmp.
    + constructor; [by constructor|].
      constructor; [done|].
      eapply Forall_impl; [exact Hall|].
      intros z Hz. unfold keyBefore in *.
      by apply (string_compare_lt_trans _ (fst y)).
    + constructor; [by apply IH|].
      rewrite sort_insert_perm. constructor; [|done].
      by apply string_compare_gt_lt.
Qed.

Lemma byKey_sort_sorted (l : list (string * ImageRecord)) :
  NoDup l.*1 -> StronglySorted keyBefore (sort byKey l).
Proof.
  unfold sort. induction l as [|x l IH]; simpl; intros Hnd; [constructor|].
  apply NoDup_cons in Hnd as [Hfresh Hnd].
  apply byKey_insert_sorted; [by apply IH|].
  fold (sort byKey l). by rewrite sort_perm.
Qed.

(** [getAllRecords] hands out the records in strictly increasing key
    order. *)
Lemma getAllRecords_sorted (store : Store) :
  StronglySorted keyBefore (getAllRecords store).
Proof. apply byKey_sort_sorted, NoDup_fst_map_to_list. Qed.

Lemma getAllRecords_perm (store : Store) :
  getAllRecords store ≡ₚ map_to_list store.
Proof. apply sort_perm. Qed.

Lemma newestFirst_insert_listed (x : string * ImageRecord)
    (l : list (string * ImageRecord)) :
  StronglySorted listedBefore l -> Forall (keyBefore x) l ->
  StronglySorted listedBefore (sort_insert newestFirst x l).
Proof.
  induction l as [|y l IH]; simpl; intros Hs Hkeys.
  - repeat constructor.
  - apply StronglySorted_cons in Hs as [Hall Hs].
    apply Forall_cons in Hkeys as [Hxy Hkeys].
    destruct (Z.leb_spec (newestFirst x y) 0) as [Hle|Hgt];
      unfold newestFirst in *.
    + constructor; [by constructor|].
      constructor.
      { unfold listedBefore, keyBefore in *.
        destruct (decide (createdAt (snd y) = createdAt (snd x)));
          [right|left]; [by split|lia]. }
      rewrite Forall_forall in Hall, Hkeys. apply Forall_forall.
      intros z Hz. specialize (Hall z Hz). specialize (Hkeys z Hz).
      unfold listedBefore, keyBefore in *.
      destruct (decide (createdAt (snd z) = createdAt (snd x)));
        [right|left]; [by split|lia].
    + constructor; [by apply IH|].
      rewrite sort_insert_perm. constructor; [|done].
      left. lia.
Qed.

(** Sorting the records newest first keeps records of one age in key
    order. *)
Lemma newestFirst_sort_listed (l : list (string * ImageRecord)) :
  StronglySorted keyBefore l ->
  StronglySorted listedBefore (sort newestFirst l).
Proof.
  unfold sort. induction l as [|x l IH]; simpl; intros Hs; [constructor|].
  apply StronglySorted_cons in Hs as [Hall Hs].
  apply newestFirst_insert_listed; [by apply IH|].
  fold (sort newestFirst l). by rewrite sort_perm.
Qed.

Lemma sorted_records_listed (store : Store) :
  StronglySorted listedBefore (sort newestFirst (getAllRecords store)).
Proof. apply newestFirst_sort_listed, getAllRecords_sorted. Qed.



Lemma listedBefore_newer (a b : string * ImageRecord) :
  listedBefore a b -> newerOrEqual a b.
Proof. unfold listedBefore, newerOrEqual. intros [?|[? _]]; lia. Qed.

End IdbOrder.

Section IdbKeys.
Import Idb.

Lemma pretty_N_go_dashFree (x : N) (s : string) :
  dashFree s -> dashFree (pretty_N_go x s).
Proof.
  revert s. induction (N.lt_wf_0 x) as [x _ IH]; intros s Hs.
  assert (x = 0 \/ 0 < x)%N as [->|Hpos] by lia.
  - by rewrite pretty_N_go_0.
  - rewrite pretty_N_go_step by done. apply IH.
    { by apply N.div_lt. }
    simpl. split; [|done].
    unfold pretty_N_char. by repeat case_match.
Qed.

Lemma pretty_nat_dashFree (n : nat) : dashFree (pretty n).
Proof.
  unfold pretty, pretty_nat, pretty, pretty_N.
  case_decide; [by simpl|]. by apply pretty_N_go_dashFree.
Qed.

Lemma append_inj_l (s a b : string) : s +:+ a = s +:+ b -> a = b.
Proof.
  induction s as [|c s IH]; simpl; [done|].
  intros [= H]. by apply IH.
Qed.

Lemma dashFree_split (a b x y : string) :
  dashFree a -> dashFree b ->
  a +:+ String "-" x = b +:+ String "-" y -> a = b /\ x = y.
Proof.
  revert b. induction a as [|c a IH]; intros [|d b]; simpl.
  - intros _ _ [= ->]. done.
  - intros _ [Hd _] [= Hc _]. by subst.
  - intros [Hc _] _ [= Hd _]. by subst.
  - intros [_ Ha] [_ Hb] [= -> Hrest].
    destruct (IH b Ha Hb Hrest) as [-> ->]. done.
Qed.

(** Two files of one batch never share a key. *)
Lemma fileKey_inj (timestamp : Z) (suffix : nat -> string) (i j : nat) :
  fileKey timestamp suffix i = fileKey timestamp suffix j -> i = j.
Proof.
  unfold fileKey. intros H.
  apply append_inj_l in H. simpl in H. injection H as H.
  apply dashFree_split in H as [H _]; try apply pretty_nat_dashFree.
  by apply (inj pretty) in H.
Qed.

Lemma putFiles_lookup_other (timestamp : Z) (suffix : nat -> string)
    (files : list Blob) (idx0 : nat) (store : Store) (k : string) :
  (forall j, (idx0 <= j < idx0 + length files)%nat ->
             fileKey timestamp suffix j <> k) ->
  putFiles timestamp suffix idx0 files store !! k = store !! k.
Proof.
  revert idx0 store. induction files as [|file files IH]; intros idx0 store Hk;
    simpl; [done|].
  rewrite IH.
  - apply lookup_insert_ne. apply Hk. simpl. lia.
  - intros j Hj. apply Hk. simpl. lia.
Qed.

Lemma putFiles_lookup_file (timestamp : Z) (suffix : nat -> string)
    (files : list Blob) (idx0 : nat) (store : Store) (i : nat) (file : Blob) :
  files !! i = Some file ->
  putFiles timestamp suffix idx0 files store
    !! fileKey timestamp suffix (idx0 + i)
  = Some (mkImageRecord file (timestamp + Z.of_nat (idx0 + i))).
Proof.
  revert idx0 store i.
  induction files as [|f files IH]; intros idx0 store i; [done|].
  destruct i as [|i]; simpl.
  - intros [= ->]. rewrite Nat.add_0_r.
    rewrite putFiles_lookup_other; [apply lookup_insert_eq|].
    intros j Hj Heq. apply fileKey_inj in Heq. lia.
  - intros Hi. rewrite <- Nat.add_succ_comm. by apply IH.
Qed.

Lemma putFiles_size (timestamp : Z) (suffix : nat -> string)
    (files : list Blob) (idx0 : nat) (store : Store) :
  (size store <= size (putFiles timestamp suffix idx0 files store)
   <= size store + length files)%nat.
Proof.
  revert idx0 store. induction files as [|f files IH]; intros idx0 store;
    simpl; [lia|].
  specialize (IH (S idx0)
                 (<[fileKey timestamp suffix idx0 :=
                      mkImageRecord f (timestamp + Z.of_nat idx0)]> store)).
  destruct (store !! fileKey timestamp suffix idx0) eqn:Hlook.
  - rewrite map_size_insert_Some in IH by eauto. lia.
  - rewrite map_size_insert_None in IH by done. lia.
Qed.

End IdbKeys.

Section IdbExtras.
Import Idb.

Lemma elem_of_slice {A} (l : list A) (start finish : Z) (x : A) :
  x ∈ slice l start finish -> x ∈ l.
Proof.
  unfold slice. intros Hx.
  apply elem_of_take in Hx as (i & Hi & _).
  rewrite lookup_drop in Hi. by apply list_elem_of_lookup_2 in Hi.
Qed.


(** X1.  Deleting removes exactly the listed keys: they are gone, every other
    key keeps its record, a second deletion changes nothing, and no later
    listing of the cache shows a deleted key. *)
Theorem delete_removes_listed_keys (keys : list string) (store : Store) :
  let after := deleteCachedImages keys store in
  (forall k, k ∈ keys -> after !! k = None)
  /\ (forall k, k ∉ keys -> after !! k = store !! k)
  /\ deleteCachedImages keys after = after
  /\ (forall limit k u,
         (k, u) ∈ loadCachedImagesWithKeys limit after -> k ∉ keys).
Proof.
  intros after. unfold after, deleteCachedImages.
  assert (Hin : forall k, k ∈ keys -> deleteKeys keys store !! k = None).
  { intros k Hk. rewrite deleteKeys_lookup. by rewrite decide_True. }
  split; [exact Hin|].
  split.
  { intros k Hk. rewrite deleteKeys_lookup. by rewrite decide_False. }
  split.
  { apply map_eq. intros k. rewrite (deleteKeys_lookup keys (deleteKeys _ _)).
    destruct (decide (k ∈ keys)) as [Hk|Hk]; [|done].
    symmetry. by apply Hin. }
  intros limit k u Hku Hk.
  unfold loadCachedImagesWithKeys in Hku.
  apply list_elem_of_fmap in Hku as ([k' r] & [= -> ->] & Hrec).
  apply elem_of_slice in Hrec.
  rewrite sorted_records_perm in Hrec.
  apply elem_of_map_to_list in Hrec.
  rewrite Hin in Hrec by done. done.
Qed.

(** X2.  [loadCachedImagesWithKeys] with a limit that is not negative lists
    [min(limit, size)] records of the cache, none twice, each as its key
    with the object URL of its blob, newest first and, among records of
    one age, in key order; no record left out is newer than a listed
    one. *)
Theorem load_lists_newest (limit : Z) (store : Store) :
  (0 <= limit)%Z ->
  let result := loadCachedImagesWithKeys limit store in
  length result = min (Z.to_nat limit) (size store)
  /\ exists listed : list (string * ImageRecord),
      result = (fun kr => (fst kr, ObjectURL (blob (snd kr)))) <$> listed
      /\ (forall k r, (k, r) ∈ listed -> store !! k = Some r)
      /\ NoDup listed.*1
      /\ StronglySorted listedBefore listed
      /\ (forall k r k' r',
             (k, r) ∈ listed -> store !! k' = Some r' ->
             (k', r') ∉ listed -> (createdAt r' <= createdAt r)%Z).
Proof.
  intros Hlimit result.
  set (sorted := sort newestFirst (getAllRecords store)).
  set (n := Z.to_nat limit).
  assert (Hperm : sorted ≡ₚ map_to_list store) by apply sorted_records_perm.
  assert (Hresult : result = withUrl <$> take n sorted).
  { unfold result, loadCachedImagesWithKeys. fold sorted.
    by rewrite slice_take by done. }
  assert (Hlisted : StronglySorted listedBefore (take n sorted ++ drop n sorted)).
  { rewrite take_drop. apply sorted_records_listed. }
  split.
  { rewrite Hresult, length_fmap, length_take, Hperm, length_map_to_list.
    done. }
  exists (take n sorted).
  split; [exact Hresult|].
  split.
  { intros k r Hk. apply elem_of_map_to_list. rewrite <- Hperm.
    rewrite <- (take_drop n sorted). apply elem_of_app. by left. }
  split.
  { assert (Hnd : NoDup ((take n sorted).*1 ++ (drop n sorted).*1)).
    { rewrite <- fmap_app, take_drop, Hperm. apply NoDup_fst_map_to_list. }
    by apply NoDup_app in Hnd as (? & _). }
  split; [by apply StronglySorted_app_1_l in Hlisted|].
  intros k r k' r' Hk Hk' Hout.
  apply elem_of_map_to_list in Hk'. rewrite <- Hperm in Hk'.
  rewrite <- (take_drop n sorted) in Hk'.
  apply elem_of_app in Hk' as [?|Hdropped]; [done|].
  apply (listedBefore_newer (k, r) (k', r')).
  apply (StronglySorted_app_1_elem_of _ _ _ _ _ Hlisted Hk Hdropped).
Qed.

(** A cache of two records listed with a limit of one. *)
Lemma load_lists_newest_one :
  length (loadCachedImagesWithKeys 1 exampleStore)
  = min (Z.to_nat 1) (size exampleStore).
Proof.
  refine (proj1 (load_lists_newest 1 exampleStore _)). lia.
Defined.



(** X4.  Each file of a batch is stored under its own key with its blob and
    [createdAt = timestamp + index]; keys that are not keys of the batch
    keep what they had; the batch adds at most one record per file. *)
Theorem putFiles_stores_each_file (timestamp : Z) (suffix : nat -> string)
    (files : list Blob) (store : Store) :
  let store1 := putFiles timestamp suffix 0 files store in
  (forall i file,
      files !! i = Some file ->
      store1 !! fileKey timestamp suffix i
      = Some (mkImageRecord file (timestamp + Z.of_nat i)))
  /\ (forall k,
         (forall i, (i < length files)%nat -> fileKey timestamp suffix i <> k) ->
         store1 !! k = store !! k)
  /\ (forall i j, fileKey timestamp suffix i = fileKey timestamp suffix j ->
                  i = j)
  /\ (size store <= size store1 <= size store + length files)%nat.
Proof.
  intros store1. split.
  { intros i file Hi.
    apply (putFiles_lookup_file timestamp suffix files 0 store i file Hi). }
  split.
  { intros k Hk. apply putFiles_lookup_other.
    intros j Hj. apply Hk. lia. }
  split; [apply fileKey_inj|apply putFiles_size].
Qed.

(** X5.  While the cache stays within the limit nothing is deleted, and every
    file of the batch is in the list returned, under its own key with the
    object URL of its own blob. *)
Theorem save_within_limit_keeps_all (timestamp : Z) (suffix : nat -> string)
    (files : list Blob) (limit : Z) (store : Store) :
  files <> [] ->
  (Z.of_nat (size (putFiles timestamp suffix 0 files store)) <= limit)%Z ->
  let saved := saveImagesToCacheWithKeys timestamp suffix files limit store in
  fst saved = putFiles timestamp suffix 0 files store
  /\ length (snd saved) = size (putFiles timestamp suffix 0 files store)
  /\ forall i file,
      files !! i = Some file ->
      (fileKey timestamp suffix i, ObjectURL file) ∈ snd saved.
Proof.
  intros Hfiles Hsize saved. unfold saved.
  rewrite save_nonempty by done. simpl.
  set (store1 := putFiles timestamp suffix 0 files store) in *.
  set (sorted := sort newestFirst (getAllRecords store1)).
  assert (Hlimit : (0 <= limit)%Z) by lia.
  assert (Hlen : length sorted = size store1).
  { unfold sorted. by rewrite sorted_records_perm, length_map_to_list. }
  rewrite slice_from_drop, slice_take by done.
  rewrite drop_ge, take_ge by lia. simpl.
  split; [done|]. split; [by rewrite length_fmap|].
  intros i file Hi.
  apply (list_elem_of_fmap_2' withUrl _
           (fileKey timestamp suffix i,
            mkImageRecord file (timestamp + Z.of_nat i))); [|done].
  unfold sorted. rewrite sorted_records_perm.
  apply elem_of_map_to_list.
  apply (putFiles_lookup_file timestamp suffix files 0 store i file Hi).
Qed.

(** Two files saved into an empty cache under the limit of fifty. *)
Lemma save_within_limit_two_files :
  fst (saveImagesToCacheWithKeys 1700000000000 (fun _ => "9f3a"%string)
                                 ["x"; "y"]%string 50 ∅)
  = putFiles 1700000000000 (fun _ => "9f3a"%string) 0 ["x"; "y"]%string ∅.
Proof.
  refine (proj1 (save_within_limit_keeps_all
                   1700000000000 (fun _ => "9f3a"%string)
                   ["x"; "y"]%string 50 ∅ _ _)).
  - discriminate.
  - pose proof (putFiles_size 1700000000000 (fun _ => "9f3a"%string)
                              ["x"; "y"]%string 0 ∅) as Hs.
    rewrite map_size_empty in Hs. cbn [length] in Hs. lia.
Defined.

End IdbExtras.

(** ** The share endpoints *)

Section ShareFacts.
Import Share.

Variable JSON_stringify : Json -> string.

(** The payloads [onRequestPost] accepts: objects whose [images] is an
    array. *)
Lemma accepted_payload (payload : Json) :
  (negb (truthy payload)
   || negb (from_option truthy false (property payload "images"))
   || negb (isArray (property payload "images"))) = false
  <-> exists fields items,
      payload = JObject fields /\ getField "images" fields = Some (JArray items).
Proof.
  split.
  - intros H. apply orb_false_iff in H as [H Harr].
    apply negb_false_iff in Harr.
    destruct payload as [| | | | |fields]; simpl in Harr; try done.
    destruct (getField "images" fields) as [[| | | |items|]|] eqn:Hf;
      try done.
    by exists fields, items.
  - intros (fields & items & -> & Hf). simpl. by rewrite Hf.
Qed.

(** X6.  A payload is stored and answered with its new id; every other request
    leaves the namespace as it was and answers 400 (payload without an
    [images] array) or 500 (no binding, unreadable body, failed write). *)
Theorem post_stores_only_valid_payloads (env : option KV) (request : Body)
    (uuid : string) (putError : option string) :
  let answer := onRequestPost JSON_stringify env request uuid putError in
  (status (fst answer) = 200%nat
   \/ status (fst answer) = 400%nat
   \/ status (fst answer) = 500%nat)
  /\ (status (fst answer) <> 200%nat -> snd answer = env)
  /\ (status (fst answer) = 200%nat <->
      exists kv fields items,
        env = Some kv
        /\ request = Parsed (JObject fields)
        /\ getField "images" fields = Some (JArray items)
        /\ putError = None)
  /\ (status (fst answer) = 400%nat <->
      exists kv payload,
        env = Some kv /\ request = Parsed payload
        /\ ~ exists fields items,
            payload = JObject fields
            /\ getField "images" fields = Some (JArray items))
  /\ (forall kv fields items,
         env = Some kv -> request = Parsed (JObject fields) ->
         getField "images" fields = Some (JArray items) -> putError = None ->
         answer = (mkResponse 200 (SuccessBody uuid) true,
                   Some (<[ uuid := JSON_stringify (JObject fields) ]> kv))).
Proof.
  intros answer. unfold answer, onRequestPost.
  destruct env as [kv|]; simpl.
  2:{ split; [by right; right|]. split; [done|].
      split; [split; [done|by intros (? & ? & ? & ? & _)]|].
      split; [split; [done|by intros (? & ? & ? & _)]|]. done. }
  destruct request as [payload|message]; simpl.
  2:{ split; [by right; right|]. split; [done|].
      split; [split; [done|by intros (? & ? & ? & _ & ? & _)]|].
      split; [split; [done|by intros (? & ? & _ & ? & _)]|]. done. }
  destruct (negb (truthy payload)
            || negb (from_option truthy false (property payload "images"))
            || negb (isArray (property payload "images"))) eqn:Hvalid; simpl.
  - assert (Hbad : ~ exists fields items,
               payload = JObject fields
               /\ getField "images" fields = Some (JArray items)).
    { intros Hok. apply accepted_payload in Hok. congruence. }
    split; [by right; left|]. split; [done|].
    split.
    { split; [done|]. intros (kv' & fields & items & _ & [= ->] & Hf & _).
      exfalso. apply Hbad. eauto. }
    split; [split; [by eauto|done]|].
    intros kv' fields items _ [= ->] Hf _. exfalso. apply Hbad. eauto.
  - apply accepted_payload in Hvalid as (fields & items & -> & Hf).
    destruct putError as [message|]; simpl.
    + split; [by right; right|]. split; [done|].
      split; [split; [done|by intros (? & ? & ? & _ & _ & _ & ?)]|].
      split; [|done].
      split; [done|]. intros (kv' & payload & _ & [= <-] & Hbad).
      exfalso. apply Hbad. eauto.
    + split; [by left|]. split; [done|].
      split; [split; [by eauto 10|done]|].
      split.
      { split; [done|]. intros (kv' & payload & _ & [= <-] & Hbad).
        exfalso. apply Hbad. eauto. }
      by intros kv' fields' items' [= <-] [= <-] _ _.
Qed.

(** X7.  [onRequestGet] answers 400 for a missing or empty id (even without the
    binding), 500 without the binding, 404 for a key that is absent or
    holds the empty string, and otherwise 200 with the stored value as it
    is. *)
Theorem get_answers (env : option KV) (id : option IdParam) :
  let answer := onRequestGet env id in
  (idKey id = None \/ idKey id = Some EmptyString ->
   answer = mkResponse 400 (ErrorBody "Missing ID") false)
  /\ (forall key, idKey id = Some key -> key <> EmptyString -> env = None ->
        answer = mkResponse 500 (ErrorBody "KV binding TREE_KV not found") true)
  /\ (forall key kv,
         idKey id = Some key -> key <> EmptyString -> env = Some kv ->
         answer
         = match kv !! key with
           | Some value =>
             if decide (value = EmptyString)
             then mkResponse 404 (ErrorBody "Not found") true
             else mkResponse 200 (StoredValue value) true
           | None => mkResponse 404 (ErrorBody "Not found") true
           end)
  /\ (status answer = 200%nat <->
      exists key kv value,
        idKey id = Some key /\ key <> EmptyString /\ env = Some kv
        /\ kv !! key = Some value /\ value <> EmptyString
        /\ body answer = StoredValue value).
Proof.
  intros answer. unfold answer, onRequestGet.
  split.
  { intros [->| ->]; [done|]. by rewrite decide_True. }
  split.
  { intros key -> Hkey ->. by rewrite decide_False. }
  split.
  { intros key kv -> Hkey ->. by rewrite decide_False. }
  destruct (idKey id) as [key|]; simpl.
  2:{ split; [done|]. by intros (? & ? & ? & ? & _). }
  destruct (decide (key = EmptyString)) as [->|Hkey]; simpl.
  { split; [done|]. by intros (? & ? & ? & [= <-] & ? & _). }
  destruct env as [kv|]; simpl.
  2:{ split; [done|]. by intros (? & ? & ? & _ & _ & ? & _). }
  destruct (kv !! key) as [value|] eqn:Hlook; simpl.
  2:{ split; [done|].
      intros (? & ? & ? & [= <-] & _ & [= <-] & Hl & _). congruence. }
  destruct (decide (value = EmptyString)) as [->|Hvalue]; simpl.
  { split; [done|].
    intros (? & ? & ? & [= <-] & _ & [= <-] & Hl & Hne & _). congruence. }
  split; [|done]. intros _. by exists key, kv, value.
Qed.

(** X8.  Round trip: the id a successful POST answers with reads back, through
    [onRequestGet], exactly the stored [JSON.stringify(payload)], while
    every other id reads what it read before. *)
Theorem share_round_trip (kv : KV) (fields : list (string * Json))
    (items : list Json) (uuid : string) :
  getField "images" fields = Some (JArray items) ->
  uuid <> EmptyString ->
  JSON_stringify (JObject fields) <> EmptyString ->
  let posted :=
    onRequestPost JSON_stringify (Some kv) (Parsed (JObject fields)) uuid None in
  fst posted = mkResponse 200 (SuccessBody uuid) true
  /\ onRequestGet (snd posted) (Some (IdString uuid))
     = mkResponse 200 (StoredValue (JSON_stringify (JObject fields))) true
  /\ onRequestGet (snd posted) (Some (IdArray [uuid]))
     = mkResponse 200 (StoredValue (JSON_stringify (JObject fields))) true
  /\ forall other,
      idKey other <> Some uuid ->
      onRequestGet (snd posted) other = onRequestGet (Some kv) other.
Proof.
  intros Hf Huuid Hjson posted.
  assert (Hposted : posted
            = (mkResponse 200 (SuccessBody uuid) true,
               Some (<[ uuid := JSON_stringify (JObject fields) ]> kv))).
  { unfold posted, onRequestPost. simpl. by rewrite Hf. }
  rewrite Hposted. simpl.
  split; [done|].
  assert (Hget : forall id, idKey id = Some uuid ->
            onRequestGet
              (Some (<[ uuid := JSON_stringify (JObject fields) ]> kv)) id
            = mkResponse 200 (StoredValue (JSON_stringify (JObject fields)))
                         true).
  { intros id Hid. unfold onRequestGet. rewrite Hid.
    rewrite decide_False by done. rewrite lookup_insert_eq.
    by rewrite decide_False. }
  split; [by apply Hget|]. split; [by apply Hget|].
  intros other Hother. unfold onRequestGet.
  destruct (idKey other) as [key|]; [|done].
  destruct (decide (key = EmptyString)); [done|].
  rewrite lookup_insert_ne; [done|]. congruence.
Qed.

End ShareFacts.

(** A tree with no images shared into an empty namespace and read back. *)
Lemma share_round_trip_empty_tree :
  Share.onRequestGet
    (snd (Share.onRequestPost Share.stringifyExample (Some ∅)
            (Share.Parsed (Share.JObject [("images"%string, Share.JArray [])]))
            "3f6c" None))
    (Some (Share.IdString "3f6c"))
  = Share.mkResponse 200 (Share.StoredValue "{}") true.
Proof.
  refine (proj1 (proj2 (share_round_trip Share.stringifyExample ∅
                          [("images"%string, Share.JArray [])] [] "3f6c"
                          _ _ _))).
  - reflexivity.
  - discriminate.
  - discriminate.
Defined.

(** ** Asset paths *)

Section AssetPathFacts.
Import AssetPath.

Lemma stripLeadingSlashes_idem (s : string) :
  stripLeadingSlashes (stripLeadingSlashes s) = stripLeadingSlashes s.
Proof.
  induction s as [|c s IH]; simpl; [done|].
  destruct (decide (c = "/"%char)) as [->|Hc]; [done|].
  simpl. by rewrite decide_False.
Qed.

Lemma stripLeadingSlashes_head (s : string) (rest : string) :
  stripLeadingSlashes s <> String "/" rest.
Proof.
  induction s as [|c s IH]; simpl; [done|].
  destruct (decide (c = "/"%char)) as [->|Hc]; [done|]. congruence.
Qed.

(** X9.  [resolveAssetPath] puts the path under [/christmas-assets/] after
    dropping every leading slash: one more or fewer leading slash gives
    the same result, the part after the folder never starts with a slash,
    a path without a leading slash is appended as it is, and two paths
    resolve to the same asset exactly when they agree once their leading
    slashes are dropped. *)
Theorem resolveAssetPath_leading_slashes (p q : string) :
  resolveAssetPath (String "/" p) = resolveAssetPath p
  /\ (exists rest, resolveAssetPath p = "/christmas-assets/" +:+ rest
                   /\ forall tail, rest <> String "/" tail)
  /\ ((forall tail, p <> String "/" tail) ->
      resolveAssetPath p = "/christmas-assets/" +:+ p)
  /\ (resolveAssetPath p = resolveAssetPath q
      <-> stripLeadingSlashes p = stripLeadingSlashes q).
Proof.
  unfold resolveAssetPath. split; [done|].
  split.
  { exists (stripLeadingSlashes p). split; [done|].
    intros tail. apply stripLeadingSlashes_head. }
  split.
  { intros Hp. f_equal. destruct p as [|c p]; simpl; [done|].
    destruct (decide (c = "/"%char)) as [->|]; [|done].
    by destruct (Hp p). }
  split; [|by intros ->].
  intros H. by apply append_inj_l in H.
Qed.

End AssetPathFacts.

(** ** The scene controller *)

Section ControllerFacts.
Import Num SceneController.
Local Open Scope R_scope.

Lemma step_zoomTarget (c : Controller) (ev : Event) :
  12 <= zoomTarget c <= 55 -> 12 <= zoomTarget (step c ev) <= 55.
Proof.
  intros Hz. destruct ev as [dy|p b x|p|p x|ts|ts| |input delta]; simpl.
  - apply clamp_range. lra.
  - unfold onPointerDown. by destruct (_ && _).
  - unfold onPointerUp. by destruct p.
  - unfold onPointerMove.
    destruct (_ && _); [|done].
    by destruct (groupRotationY c), (lastTouchDistance c).
  - unfold onTouchStart. by destruct (touchDistance ts).
  - unfold onTouchMove. destruct (touchDistance ts); [|done]. simpl.
    destruct (lastTouchDistance c); [|done]. apply clamp_range. lra.
  - done.
  - unfold useFrame.
    destruct (groupRotationY c); [|done].
    destruct (_ && _ && _).
    + destruct (lastHandX c); [|done]. by destruct (bool_decide _).
    + by destruct (negb (isDragging c)).
Qed.

(** X10.  Whatever is done to the scene, the zoom target stays between 12 and
    55. *)
Theorem zoom_stays_in_range (camera : Vector3) (group : option R)
    (events : list Event) :
  12 <= zoomTarget (run (mount camera group) events) <= 55.
Proof.
  unfold run.
  assert (Hgen : forall c, 12 <= zoomTarget c <= 55 ->
                           12 <= zoomTarget (foldl step c events) <= 55).
  { induction events as [|ev events IH]; intros c Hc; simpl; [done|].
    by apply IH, step_zoomTarget. }
  apply Hgen. simpl. lra.
Qed.

Lemma safeDelta_range (delta : R) : 0 <= delta -> 0 <= Rmin delta 0.1 <= 0.1.
Proof. intros Hd. unfold Rmin. destruct (Rle_dec delta 0.1); lra. Qed.

Lemma useFrame_camera (input : InputRef) (delta : R) (c : Controller) :
  cameraPosition (useFrame input delta c)
  = lerpVectors (cameraPosition c)
      (mkVector3
         (MathUtils_lerp (currentInput_x c) (in_x input)
                         (4.0 * Rmin delta 0.1) * 4)
         (MathUtils_lerp (currentInput_y c) (in_y input)
                         (4.0 * Rmin delta 0.1) * 2)
         (zoomTarget c
          + Rabs (MathUtils_lerp (currentInput_x c) (in_x input)
                                 (4.0 * Rmin delta 0.1)) * 2))
      (4.0 * Rmin delta 0.1).
Proof.
  unfold useFrame.
  destruct (groupRotationY c); [|done].
  destruct (_ && _ && _).
  - destruct (lastHandX c); [|done]. by destruct (bool_decide _).
  - by destruct (negb (isDragging c)).
Qed.

Lemma step_camera_z (c : Controller) (ev : Event) :
  forwardInTime ev ->
  12 <= zoomTarget c <= 55 -> 12 <= vz (cameraPosition c) ->
  12 <= vz (cameraPosition (step c ev)).
Proof.
  intros Hev Hz Hc.
  destruct ev as [dy|p b x|p|p x|ts|ts| |input delta]; simpl.
  - done.
  - unfold onPointerDown. by destruct (_ && _).
  - unfold onPointerUp. by destruct p.
  - unfold onPointerMove.
    destruct (_ && _); [|done].
    by destruct (groupRotationY c), (lastTouchDistance c).
  - unfold onTouchStart. by destruct (touchDistance ts).
  - unfold onTouchMove. by destruct (touchDistance ts).
  - done.
  - simpl in Hev. rewrite useFrame_camera. simpl.
    pose proof (safeDelta_range delta Hev) as Hs.
    pose proof (Rabs_pos (MathUtils_lerp (currentInput_x c) (in_x input)
                                         (4.0 * Rmin delta 0.1))) as Ha.
    nra.
Qed.

(** X11.  With time running forward, a camera that starts at a depth of at
    least 12 never comes closer to the scene centre plane than 12. *)
Theorem camera_keeps_its_distance (camera : Vector3) (group : option R)
    (events : list Event) :
  12 <= vz camera ->
  Forall forwardInTime events ->
  12 <= vz (cameraPosition (run (mount camera group) events)).
Proof.
  intros Hcam Hev. unfold run.
  assert (Hgen : forall c,
             12 <= zoomTarget c <= 55 -> 12 <= vz (cameraPosition c) ->
             12 <= vz (cameraPosition (foldl step c events))).
  { induction Hev as [|ev events Hfw Hrest IH]; intros c Hz Hc; simpl;
      [done|].
    apply IH; [by apply step_zoomTarget|by apply step_camera_z]. }
  apply Hgen; simpl; [lra|done].
Qed.

(** The canvas camera at depth 32 through a wheel turn and a frame. *)
Lemma camera_keeps_its_distance_example :
  12 <= vz (cameraPosition
              (run (mount (mkVector3 0 0 32) (Some 0))
                   [Wheel (-2000); Frame initialInput (1 / 60)])).
Proof.
  apply camera_keeps_its_distance.
  - simpl. lra.
  - repeat constructor. simpl. lra.
Defined.

(** A frame longer than a tenth of a second counts as a tenth of a
    second. *)
Theorem long_frames_are_capped (input : InputRef) (delta : R)
    (c : Controller) :
  0.1 <= delta -> useFrame input delta c = useFrame input 0.1 c.
Proof.
  intros Hd. unfold useFrame.
  replace (Rmin delta 0.1) with (Rmin 0.1 0.1); [done|].
  unfold Rmin. repeat destruct Rle_dec; lra.
Qed.

(** A frame of two seconds. *)
Lemma long_frames_are_capped_example :
  useFrame initialInput 2 (mount (mkVector3 0 0 32) (Some 0))
  = useFrame initialInput 0.1 (mount (mkVector3 0 0 32) (Some 0)).
Proof. apply long_frames_are_capped. lra. Defined.

Lemma useFrame_held (input : InputRef) (delta : R) (c : Controller) :
  isDragging c = true ->
  groupRotationY (useFrame input delta c) = groupRotationY c
  /\ isDragging (useFrame input delta c) = true.
Proof.
  intros Hd. unfold useFrame.
  destruct (groupRotationY c) as [ry|] eqn:Hry; simpl; [|done].
  rewrite Hd. by rewrite andb_false_r.
Qed.

Lemma run_frame_cons (c : Controller) (f : InputRef * R)
    (frames : list (InputRef * R)) :
  run c ((fun f => Frame (fst f) (snd f)) <$> (f :: frames))
  = run (useFrame (fst f) (snd f) c)
        ((fun f => Frame (fst f) (snd f)) <$> frames).
Proof. reflexivity. Qed.

(** X12.  Once the primary button grabs the tree, no number of frames turns it,
    whatever the hand input and the velocity it had: it turns again only
    through pointer moves or after the release. *)
Theorem held_tree_does_not_turn (clientX : R) (c : Controller)
    (frames : list (InputRef * R)) :
  let grabbed := onPointerDown true 0 clientX c in
  let later := run grabbed ((fun f => Frame (fst f) (snd f)) <$> frames) in
  groupRotationY later = groupRotationY c
  /\ isDragging later = true
  /\ rotationVelocity grabbed = 0.
Proof.
  intros grabbed later.
  assert (Hgen : forall c0, isDragging c0 = true ->
            let c1 := run c0 ((fun f => Frame (fst f) (snd f)) <$> frames) in
            groupRotationY c1 = groupRotationY c0 /\ isDragging c1 = true).
  { induction frames as [|f frames IH]; intros c0 Hc0; [done|].
    rewrite run_frame_cons.
    destruct (useFrame_held (fst f) (snd f) c0 Hc0) as [Hr Hd].
    destruct (IH _ Hd) as [Hr' Hd'].
    split; [by rewrite Hr', Hr|done]. }
  destruct (Hgen grabbed eq_refl) as [Hr Hd].
  split; [exact Hr|]. split; [exact Hd|done].
Qed.

Lemma MathUtils_lerp_between (x y t : R) :
  0 <= t <= 1 ->
  Rmin x y <= MathUtils_lerp x y t <= Rmax x y.
Proof.
  intros Ht. unfold MathUtils_lerp, Rmin, Rmax.
  destruct (Rle_dec x y); nra.
Qed.

Lemma useFrame_idle (input : InputRef) (delta : R) (c : Controller)
    (rotationY : R) :
  in_isOpen input = None ->
  groupRotationY c = Some rotationY ->
  isDragging c = false -> wasDetected c = false ->
  let c' := useFrame input delta c in
  rotationVelocity c'
  = MathUtils_lerp (rotationVelocity c) 0.002 (Rmin delta 0.1 * 0.5)
  /\ groupRotationY c' = Some (rotationY + rotationVelocity c)
  /\ isDragging c' = false /\ wasDetected c' = false
  /\ lastHandX c' = None.
Proof.
  intros Hopen Hry Hd Hw. unfold useFrame.
  rewrite Hopen, Hry, Hd, Hw. simpl.
  by rewrite andb_false_r.
Qed.

(** X13.  Left alone, the tree's spin moves toward the base speed of 0.002 per
    frame and never past it: after any number of frames without an open
    hand, with time running forward, the velocity lies between the base
    speed and the velocity it started from. *)
Theorem spin_settles_to_base_speed (c : Controller) (rotationY : R)
    (frames : list (InputRef * R)) :
  groupRotationY c = Some rotationY ->
  isDragging c = false ->
  wasDetected c = false ->
  Forall (fun f => in_isOpen (fst f) = None /\ 0 <= snd f) frames ->
  let later := run c ((fun f => Frame (fst f) (snd f)) <$> frames) in
  Rmin (rotationVelocity c) 0.002 <= rotationVelocity later
  <= Rmax (rotationVelocity c) 0.002.
Proof.
  intros Hry Hd Hw Hframes. cbv zeta.
  revert c rotationY Hry Hd Hw.
  induction Hframes as [|f frames [Hopen Hdelta] _ IH];
    intros c rotationY Hry Hd Hw.
  - simpl. unfold Rmin, Rmax.
    destruct (Rle_dec (rotationVelocity c) 0.002); lra.
  - rewrite run_frame_cons.
    destruct (useFrame_idle (fst f) (snd f) c rotationY Hopen Hry Hd Hw)
      as (Hv & Hr & Hd' & Hw' & _).
    specialize (IH _ _ Hr Hd' Hw'). rewrite Hv in IH.
    pose proof (safeDelta_range (snd f) Hdelta) as Hs.
    pose proof (MathUtils_lerp_between (rotationVelocity c) 0.002
                  (Rmin (snd f) 0.1 * 0.5)) as Hb.
    assert (Hb' := Hb ltac:(lra)). clear Hb.
    revert IH Hb'. unfold Rmin, Rmax.
    repeat destruct Rle_dec; lra.
Qed.

(** A tree flicked to ten times the base speed, then three frames. *)
Lemma spin_settles_to_base_speed_example :
  let c := onPointerUp true
             (onPointerMove true 4
                (onPointerDown true 0 0 (mount (mkVector3 0 0 32) (Some 0)))) in
  Rmin (rotationVelocity c) 0.002
  <= rotationVelocity
       (run c ((fun f => Frame (fst f) (snd f))
               <$> [(initialInput, 1 / 60); (initialInput, 1 / 60);
                    (initialInput, 1 / 30)]))
  <= Rmax (rotationVelocity c) 0.002.
Proof.
  apply (spin_settles_to_base_speed _ (0 + (4 - 0) * 0.005)).
  - reflexivity.
  - reflexivity.
  - reflexivity.
  - repeat constructor; simpl; lra.
Defined.

Lemma handleGesture_input_isOpen (data : HandGesture) (current : InputRef) :
  in_isOpen current = None ->
  in_isOpen (handleGesture_input data current) = None.
Proof. unfold handleGesture_input. by destruct (hg_isDetected data). Qed.

(** X14.  The input [App] hands to the controller never carries [isOpen], and
    with such input the hand-wave branch of the frame callback never runs:
    from the mount on, without pointer events, the tree turns by exactly
    the base speed 0.002 on every frame, whatever the frame times and the
    hand positions are. *)
Theorem app_input_never_waves :
  (forall gestures : list HandGesture,
      in_isOpen (foldl (fun input data => handleGesture_input data input)
                       initialInput gestures) = None)
  /\ forall (camera : Vector3) (rotationY : R) (frames : list (InputRef * R)),
      Forall (fun f => in_isOpen (fst f) = None) frames ->
      let later :=
        run (mount camera (Some rotationY))
            ((fun f => Frame (fst f) (snd f)) <$> frames) in
      lastHandX later = None
      /\ rotationVelocity later = 0.002
      /\ groupRotationY later
         = Some (rotationY + 0.002 * INR (length frames)).
Proof.
  split.
  { intros gestures.
    assert (Hgen : forall input, in_isOpen input = None ->
              in_isOpen (foldl (fun input data =>
                                  handleGesture_input data input)
                               input gestures) = None).
    { induction gestures as [|g gestures IH]; intros input Hin; simpl;
        [done|].
      by apply IH, handleGesture_input_isOpen. }
    by apply Hgen. }
  intros camera rotationY frames Hframes. simpl.
  assert (Hgen : forall c r,
            groupRotationY c = Some r -> isDragging c = false ->
            wasDetected c = false -> rotationVelocity c = 0.002 ->
            lastHandX c = None ->
            let later := run c ((fun f => Frame (fst f) (snd f)) <$> frames) in
            lastHandX later = None
            /\ rotationVelocity later = 0.002
            /\ groupRotationY later = Some (r + 0.002 * INR (length frames))).
  { induction Hframes as [|f frames Hopen _ IH];
      intros c r Hry Hd Hw Hv Hl; cbv zeta.
    - simpl. split; [done|]. split; [done|]. rewrite Hry. f_equal. lra.
    - rewrite run_frame_cons.
      destruct (useFrame_idle (fst f) (snd f) c r Hopen Hry Hd Hw)
        as (Hv' & Hr' & Hd' & Hw' & Hl').
      rewrite Hv in Hv', Hr'.
      assert (Hv2 : rotationVelocity (useFrame (fst f) (snd f) c) = 0.002).
      { rewrite Hv'. unfold MathUtils_lerp. lra. }
      destruct (IH _ _ Hr' Hd' Hw' Hv2 Hl') as (H1 & H2 & H3).
      split; [exact H1|]. split; [exact H2|].
      rewrite H3. f_equal. rewrite length_cons, S_INR. lra. }
  by apply Hgen.
Qed.

End ControllerFacts.

(** ** The mix target and the photo editor *)

Section AppFacts.
Import Num Texture Ornaments App.
Local Open Scope R_scope.

Lemma mixStep_binary (prev : R) (ev : MixEvent) :
  prev = 0 \/ prev = 1 -> mixStep prev ev = 0 \/ mixStep prev ev = 1.
Proof.
  intros Hprev. destruct ev as [d o| | | |]; simpl; auto.
  - unfold handleGesture. destruct d; [|done].
    destruct o; destruct (Req_dec_T prev _); auto.
  - unfold toggleState. destruct (Req_dec_T prev 1); auto.
Qed.

Lemma targetMix_binary (events : list MixEvent) :
  targetMix events = 0 \/ targetMix events = 1.
Proof.
  unfold targetMix.
  assert (Hgen : forall prev, prev = 0 \/ prev = 1 ->
            foldl mixStep prev events = 0 \/ foldl mixStep prev events = 1).
  { induction events as [|ev events IH]; intros prev Hprev; simpl; [done|].
    by apply IH, mixStep_binary. }
  apply Hgen. by right.
Qed.

(** X15.  The mix target is always one of the two poles: whatever gestures,
    toggles, uploads and card additions happen, [targetMix] is [0] or [1];
    a detected hand sets it by its pose alone, an undetected hand leaves
    it, and toggling twice gives it back.  Hence a click on an attached
    photo frame with an entry is accepted exactly while the target is
    chaos. *)
Theorem mix_target_is_binary (events : list MixEvent) :
  (targetMix events = 0 \/ targetMix events = 1)
  /\ (forall isOpen,
         targetMix (events ++ [Gesture true isOpen])
         = if isOpen then 0 else 1)
  /\ (forall isOpen,
         targetMix (events ++ [Gesture false isOpen]) = targetMix events)
  /\ targetMix (events ++ [ToggleState; ToggleState]) = targetMix events
  /\ (forall entry parentToWorld window e st,
         is_Some (PhotoFrameMesh_onPointerDown true (Some entry)
                    (targetMix events) parentToWorld window e st)
         <-> targetMix events = 0).
Proof.
  pose proof (targetMix_binary events) as Hbin.
  split; [exact Hbin|].
  split.
  { intros isOpen. unfold targetMix. rewrite foldl_app. simpl.
    unfold handleGesture. by destruct isOpen, (Req_dec_T _ _). }
  split.
  { intros isOpen. unfold targetMix. by rewrite foldl_app. }
  split.
  { unfold targetMix in *. rewrite foldl_app. simpl. unfold toggleState.
    destruct Hbin as [-> | ->].
    - destruct (Req_dec_T 0 1); [lra|]. destruct (Req_dec_T 1 1); lra.
    - destruct (Req_dec_T 1 1); [|lra]. destruct (Req_dec_T 0 1); lra. }
  intros entry parentToWorld window e st.
  unfold PhotoFrameMesh_onPointerDown. simpl.
  destruct Hbin as [-> | ->].
  - rewrite bool_decide_true by lra.
    split; [done|]. intros _. by destruct (pf_groupRef st).
  - rewrite bool_decide_false by lra.
    split; [by intros [? ?]|lra].
Qed.



Lemma editorStep_read_only (ed : Editor) (ev : EditorEvent) :
  editorStep false ed ev = ed.
Proof. by destruct ev. Qed.



End AppFacts.

(** ** The gallery *)

Section GalleryFacts.
Import Num Texture App.

Lemma keptTransforms_fold (records : list ImageRef)
    (prev acc : gmap string StoredTransform) (k : string) :
  foldl (fun next rec =>
           match prev !! ref_key rec with
           | Some t => <[ ref_key rec := t ]> next
           | None => next
           end) acc records !! k
  = if decide (k ∈ ref_key <$> records)
    then match prev !! k with Some t => Some t | None => acc !! k end
    else acc !! k.
Proof.
  revert acc. induction records as [|r records IH]; intros acc; cbn [foldl].
  - by rewrite decide_False by apply not_elem_of_nil.
  - rewrite IH, fmap_cons. clear IH.
    destruct (decide (k = ref_key r)) as [->|Hne].
    + rewrite (decide_True (P := ref_key r ∈ ref_key r :: _)) by (by left).
      destruct (prev !! ref_key r) as [t|] eqn:Hp.
      * rewrite lookup_insert_eq. by destruct (decide _).
      * by destruct (decide _).
    + assert (Hacc : match prev !! ref_key r with
                     | Some t => <[ref_key r:=t]> acc
                     | None => acc
                     end !! k = acc !! k).
      { destruct (prev !! ref_key r); [|done].
        by rewrite lookup_insert_ne. }
      rewrite Hacc.
      destruct (decide (k ∈ ref_key <$> records)) as [Hin|Hnin].
      * by rewrite decide_True by (by right).
      * rewrite decide_False; [done|]. by intros [?|?]%elem_of_cons.
Qed.

Lemma keptTransforms_lookup (records : list ImageRef)
    (prev : gmap string StoredTransform) (k : string) :
  keptTransforms records prev !! k
  = if decide (k ∈ ref_key <$> records) then prev !! k else None.
Proof.
  unfold keptTransforms.
  set (next := foldl _ ∅ records).
  assert (Hnext : forall k', next !! k'
            = if decide (k' ∈ ref_key <$> records) then prev !! k' else None).
  { intros k'. unfold next. rewrite keptTransforms_fold, lookup_empty.
    destruct (decide _); [|done]. by destruct (prev !! k'). }
  destruct (decide (size prev = size next)) as [Hsize|_]; [|apply Hnext].
  assert (Heq : next = prev).
  { apply map_subseteq_size_eq; [|lia].
    apply map_subseteq_spec. intros k' t. rewrite Hnext.
    by destruct (decide _). }
  rewrite <- Heq at 1. apply Hnext.
Qed.

(** X17.  [applyImageRecords] shows exactly the URLs of the new records, keeps
    the transforms of their keys and drops all others, and revokes an
    object URL only when it was shown before and is no longer shown: a URL
    that is still shown is never revoked by it, and every [blob:] URL that
    went away is. *)
Theorem applyImageRecords_spec (records : list ImageRef) (g : Gallery) :
  let g' := applyImageRecords records g in
  userImages g' = ref_url <$> records
  /\ userImageRecords g' = records
  /\ photoSignatures g' = photoSignatures g
  /\ (forall k, photoTransforms g' !! k
                = if decide (k ∈ ref_key <$> records)
                  then photoTransforms g !! k else None)
  /\ (forall u, u ∈ revoked g' <->
                u ∈ revoked g
                \/ (u ∈ userImages g /\ (u ∉ userImages g')
                    /\ isBlobUrl u = true)).
Proof.
  intros g'. unfold g', applyImageRecords. simpl.
  split; [done|]. split; [done|]. split; [done|].
  split; [intros k; apply keptTransforms_lookup|].
  intros u. unfold revokeBlobUrls.
  rewrite elem_of_app, !list_elem_of_filter. tauto.
Qed.

(** X18.  Deleting a photo removes its record, its signature and its transform,
    and its cache entry when the cache accepts the deletion; the records,
    signatures and cache entries of every other key stay as they are, and
    so do the transforms of the other keys that still have a record. *)
Theorem handleDeletePhoto_spec (recordKey url : string) (deleted : bool)
    (g : Gallery) (cache : Idb.Store) :
  let after := handleDeletePhoto recordKey url deleted g cache in
  (forall r, r ∈ userImageRecords (fst after) <->
             r ∈ userImageRecords g /\ ref_key r <> recordKey)
  /\ userImages (fst after) = ref_url <$> userImageRecords (fst after)
  /\ photoSignatures (fst after) !! recordKey = None
  /\ photoTransforms (fst after) !! recordKey = None
  /\ (forall k, k <> recordKey ->
                photoSignatures (fst after) !! k = photoSignatures g !! k)
  /\ (forall k r, k <> recordKey -> r ∈ userImageRecords g ->
                  ref_key r = k ->
                  photoTransforms (fst after) !! k = photoTransforms g !! k)
  /\ (deleted = true -> snd after !! recordKey = None)
  /\ (forall k, k <> recordKey -> snd after !! k = cache !! k).
Proof.
  intros after. unfold after, handleDeletePhoto. simpl.
  split.
  { intros r. rewrite list_elem_of_filter. tauto. }
  split; [done|].
  split; [apply lookup_delete_eq|].
  split; [apply lookup_delete_eq|].
  split.
  { intros k Hk. by rewrite lookup_delete_ne. }
  split.
  { intros k r Hk Hr Hkey. rewrite lookup_delete_ne by done.
    rewrite keptTransforms_lookup. rewrite decide_True; [done|].
    apply list_elem_of_fmap. exists r. split; [done|].
    apply list_elem_of_filter. split; [congruence|done]. }
  split.
  { intros ->. unfold Idb.deleteCachedImages. simpl.
    apply lookup_delete_eq. }
  intros k Hk. destruct deleted; [|done].
  unfold Idb.deleteCachedImages. simpl. by rewrite lookup_delete_ne.
Qed.

End GalleryFacts.

(** ** The photo entries *)

Section RegistryFacts.
Import Num Texture Ornaments Registry.

Lemma dashFree_no_dash (x y : string) :
  ~ Idb.dashFree (x +:+ String "-" y).
Proof.
  induction x as [|c x IH]; simpl.
  - by intros [? _].
  - intros [_ ?]. by apply IH.
Qed.

Lemma last_dash_split (a b d1 d2 : string) :
  Idb.dashFree d1 -> Idb.dashFree d2 ->
  a +:+ String "-" d1 = b +:+ String "-" d2 -> d1 = d2.
Proof.
  intros H1 H2. revert b.
  induction a as [|c a IH]; intros [|c' b]; simpl.
  - by intros [= ->].
  - intros [= _ ->]. by apply dashFree_no_dash in H1.
  - intros [= _ <-]. by apply dashFree_no_dash in H2.
  - intros [= _ H]. by apply (IH b).
Qed.

Lemma indexed_key_inj (a b : string) (i j : nat) :
  a +:+ "-" +:+ pretty i = b +:+ "-" +:+ pretty j -> i = j.
Proof.
  intros H. apply (inj pretty).
  apply (last_dash_split a b); [apply pretty_nat_dashFree..|done].
Qed.

Lemma imageEntries_key (keyMap : gmap string string)
    (signatureText : option string)
    (photoTransforms : gmap string PhotoTransform)
    (idx0 : nat) (userImages : list string) (e : Entry) :
  e ∈ imageEntries keyMap signatureText photoTransforms idx0 userImages ->
  exists idx url,
    (idx0 <= idx)%nat
    /\ userImages !! (idx - idx0)%nat = Some url
    /\ url <> EmptyString
    /\ e = imageEntry keyMap signatureText photoTransforms idx url.
Proof.
  revert idx0. induction userImages as [|url rest IH]; intros idx0; simpl.
  - by intros ?%elem_of_nil.
  - intros He.
    assert (Hlater : e ∈ imageEntries keyMap signatureText photoTransforms
                          (S idx0) rest ->
              exists idx url0,
                (idx0 <= idx)%nat
                /\ (url :: rest) !! (idx - idx0)%nat = Some url0
                /\ url0 <> EmptyString
                /\ e = imageEntry keyMap signatureText photoTransforms
                                  idx url0).
    { intros Hin. apply IH in Hin as (idx & url0 & Hle & Hlook & Hne & ->).
      exists idx, url0. split; [lia|]. split; [|done].
      replace (idx - idx0)%nat with (S (idx - S idx0)) by lia. done. }
    destruct (decide (url = EmptyString)) as [->|Hurl]; [by apply Hlater|].
    apply elem_of_cons in He as [->|Hin]; [|by apply Hlater].
    exists idx0, url. split; [lia|]. rewrite Nat.sub_diag. done.
Qed.

Lemma imageEntries_NoDup_keys (keyMap : gmap string string)
    (signatureText : option string)
    (photoTransforms : gmap string PhotoTransform)
    (idx0 : nat) (userImages : list string) :
  NoDup ((fun e : Entry => pe_key (fst e))
         <$> imageEntries keyMap signatureText photoTransforms idx0
                          userImages).
Proof.
  revert idx0. induction userImages as [|url rest IH]; intros idx0; simpl.
  - constructor.
  - destruct (decide (url = EmptyString)); [apply IH|].
    rewrite fmap_cons. constructor; [|apply IH].
    intros Hin. apply list_elem_of_fmap in Hin as (e & Hkey & He).
    apply imageEntries_key in He as (idx & url0 & Hle & _ & _ & ->).
    simpl in Hkey. apply indexed_key_inj in Hkey. lia.
Qed.

Lemma imageEntries_length (keyMap : gmap string string)
    (signatureText : option string)
    (photoTransforms : gmap string PhotoTransform)
    (idx0 : nat) (userImages : list string) :
  length (imageEntries keyMap signatureText photoTransforms idx0 userImages)
  = shownImages userImages.
Proof.
  unfold shownImages. revert idx0.
  induction userImages as [|url rest IH]; intros idx0; simpl; [done|].
  destruct (decide (url = EmptyString)) as [->|Hurl].
  - rewrite filter_cons_False by (intros H; by apply H). apply IH.
  - rewrite filter_cons_True by done. simpl. by rewrite IH.
Qed.

Lemma shownImages_le (userImages : list string) :
  (shownImages userImages <= length userImages)%nat.
Proof. unfold shownImages. apply length_filter. Qed.

Lemma imageKeyMap_lookup (records : list App.ImageRef) (rec : App.ImageRef) :
  NoDup (App.ref_url <$> records) ->
  rec ∈ records ->
  imageKeyMap records !! App.ref_url rec = Some (App.ref_key rec).
Proof.
  unfold imageKeyMap.
  assert (Hgen : forall acc : gmap string string,
            NoDup (App.ref_url <$> records) ->
            (rec ∈ records
             -> foldl (fun map r => <[App.ref_url r := App.ref_key r]> map)
                      acc records !! App.ref_url rec
                = Some (App.ref_key rec))
            /\ (App.ref_url rec ∉ App.ref_url <$> records
                -> foldl (fun map r => <[App.ref_url r := App.ref_key r]> map)
                         acc records !! App.ref_url rec
                   = acc !! App.ref_url rec)).
  { induction records as [|r records IH]; intros acc Hnd; cbn [foldl].
    - split; [by intros ?%elem_of_nil|done].
    - rewrite fmap_cons in Hnd. apply NoDup_cons in Hnd as [Hfresh Hnd].
      destruct (IH (<[App.ref_url r:=App.ref_key r]> acc) Hnd) as [Hin Hout].
      split.
      + intros [->|Hrec]%elem_of_cons; [|by apply Hin].
        rewrite Hout by done. apply lookup_insert_eq.
      + rewrite fmap_cons. intros Hnot.
        apply not_elem_of_cons in Hnot as [Hne Hnot].
        rewrite Hout by done. by rewrite lookup_insert_ne. }
  intros Hnd Hrec. by apply (Hgen ∅).
Qed.

Lemma photoEntries_length (userImages : list string)
    (keyMap : gmap string string) (signatureText : option string)
    (customCards : list Card)
    (photoTransforms : gmap string PhotoTransform) :
  length (photoEntries userImages keyMap signatureText customCards
                       photoTransforms)
  = (shownImages userImages + length customCards)%nat.
Proof.
  unfold photoEntries.
  by rewrite length_app, length_fmap, imageEntries_length.
Qed.

Lemma photoEntries_drawn (userImages : list string)
    (keyMap : gmap string string) (signatureText : option string)
    (customCards : list Card)
    (photoTransforms : gmap string PhotoTransform) (e : Entry) :
  e ∈ photoEntries userImages keyMap signatureText customCards
                   photoTransforms ->
  pe_editable (fst e) = false /\ drawn e = true.
Proof.
  unfold photoEntries. intros [He|He]%elem_of_app.
  - apply imageEntries_key in He as (idx & url & _ & _ & Hurl & ->).
    split; [done|]. unfold drawn. simpl. by rewrite bool_decide_false.
  - apply list_elem_of_fmap in He as (c & -> & _). done.
Qed.

Lemma imageEntries_urls (keyMap : gmap string string)
    (signatureText : option string)
    (photoTransforms : gmap string PhotoTransform)
    (idx0 : nat) (userImages : list string) :
  (fun e : Entry => pe_url (fst e))
  <$> imageEntries keyMap signatureText photoTransforms idx0 userImages
  = Some <$> filter (fun url => url <> EmptyString) userImages.
Proof.
  revert idx0. induction userImages as [|url rest IH]; intros idx0; simpl;
    [done|].
  destruct (decide (url = EmptyString)) as [->|Hurl].
  - rewrite filter_cons_False by (intros H; by apply H). apply IH.
  - rewrite filter_cons_True by done. rewrite !fmap_cons. simpl.
    by rewrite IH.
Qed.

(** X19.  The photo entries of a layer are one image entry per user image
    that is not the empty URL, in the order of the images, followed by
    one card entry per card, in the order of the cards: the URLs of the
    first entries are the non-empty user images in order, each of those
    entries is built for a position [idx] of [userImages] and has the key
    [cacheKey-idx], and the entries after them are the cards' entries,
    with each card's id, message and signature and the key [card-id].
    Every entry is drawn and none is editable; the React keys of the
    image entries are pairwise distinct; each image entry carries the
    transform stored under its cache key; and with the key map built from
    records of distinct URLs and non-empty keys, the cache key of a
    record's URL is the record's key. *)
Theorem photo_entries_registry (userImages : list string)
    (keyMap : gmap string string) (signatureText : option string)
    (customCards : list Card)
    (photoTransforms : gmap string PhotoTransform) :
  let entries :=
    photoEntries userImages keyMap signatureText customCards photoTransforms in
  let n := shownImages userImages in
  length entries = (n + length customCards)%nat
  /\ (fun e : Entry => pe_url (fst e)) <$> take n entries
     = Some <$> filter (fun url => url <> EmptyString) userImages
  /\ (forall e, e ∈ take n entries ->
                pe_kind (fst e) = image
                /\ pe_signatureText (fst e) = signatureText
                /\ exists idx url,
                    userImages !! idx = Some url
                    /\ url <> EmptyString
                    /\ pe_url (fst e) = Some url
                    /\ pe_cacheKey (fst e) = Some (cacheKeyOf keyMap idx url)
                    /\ pe_key (fst e)
                       = cacheKeyOf keyMap idx url +:+ "-" +:+ pretty idx)
  /\ (forall j c,
         customCards !! j = Some c ->
         exists e,
           entries !! (n + j)%nat = Some e
           /\ pe_kind (fst e) = card
           /\ pe_id (fst e) = Some (card_id c)
           /\ pe_message (fst e) = Some (card_message c)
           /\ pe_signatureText (fst e) = Some (card_signature c)
           /\ pe_key (fst e) = "card-" +:+ card_id c
           /\ snd e = None)
  /\ (forall e, e ∈ entries ->
                pe_editable (fst e) = false /\ drawn e = true)
  /\ NoDup ((fun e : Entry => pe_key (fst e)) <$> take n entries)
  /\ (forall e, e ∈ take n entries ->
                exists key, pe_cacheKey (fst e) = Some key
                            /\ snd e = photoTransforms !! key)
  /\ (forall (records : list App.ImageRef) (rec : App.ImageRef) (idx : nat),
         NoDup (App.ref_url <$> records) -> rec ∈ records ->
         App.ref_key rec <> EmptyString ->
         cacheKeyOf (imageKeyMap records) idx (App.ref_url rec)
         = App.ref_key rec).
Proof.
  intros entries n. unfold entries, n, photoEntries.
  set (imgs := imageEntries keyMap signatureText photoTransforms 0 userImages).
  assert (Hlen : length imgs = shownImages userImages)
    by apply imageEntries_length.
  assert (Htake : take (shownImages userImages) (imgs ++ (cardEntry <$> customCards))
                  = imgs).
  { rewrite <- Hlen. by rewrite take_app_length. }
  rewrite Htake.
  split; [apply photoEntries_length|].
  split; [apply imageEntries_urls|].
  split.
  { intros e He.
    apply imageEntries_key in He as (idx & url & _ & Hlook & Hurl & ->).
    rewrite Nat.sub_0_r in Hlook.
    split; [done|]. split; [done|]. by exists idx, url. }
  split.
  { intros j c Hc. exists (cardEntry c). split; [|done].
    rewrite <- Hlen. rewrite lookup_app_r; [|apply Nat.le_add_r].
    rewrite Nat.add_comm, Nat.add_sub.
    by rewrite list_lookup_fmap, Hc. }
  split; [apply photoEntries_drawn|].
  split; [apply imageEntries_NoDup_keys|].
  split.
  { intros e He.
    apply imageEntries_key in He as (idx & url & _ & _ & _ & ->).
    by eexists. }
  intros records rec idx Hnd Hrec Hkey. unfold cacheKeyOf.
  rewrite imageKeyMap_lookup by done. by rewrite decide_False.
Qed.

(** X20.  Binding by position: the photo layer renders nothing at all when it
    has no entries; otherwise slot [i] of the layout carries entry [i]
    for every [i] below the number of entries and nothing above it, so
    exactly as many frames are drawn as there are entries, and a layout
    built for these images and cards has a slot for every entry. *)
Theorem photos_bound_by_position
    (randomVector3 : R -> Rng -> Vector3 * Rng) (count : nat)
    (colors : option (list string)) (scale : R) (g : Rng)
    (userImages : list string) (keyMap : gmap string string)
    (signatureText : option string) (customCards : list Card)
    (photoTransforms : gmap string PhotoTransform) :
  let entries :=
    photoEntries userImages keyMap signatureText customCards photoTransforms in
  let slots :=
    data randomVector3 PHOTO count colors scale
         (length userImages) (length customCards) g in
  (length entries <= length slots)%nat
  /\ (renderPhotos slots entries = None <-> entries = [])
  /\ forall rendered,
      renderPhotos slots entries = Some rendered ->
      length rendered = length slots
      /\ (forall i entry,
             entries !! i = Some entry ->
             exists item, slots !! i = Some item
                          /\ rendered !! i = Some (Some (item, entry)))
      /\ (forall i, (length entries <= i < length slots)%nat ->
                    rendered !! i = Some None).
Proof.
  intros entries slots.
  assert (Hlen : length entries
                 = (shownImages userImages + length customCards)%nat).
  { apply photoEntries_length. }
  assert (Hslots : length slots
                   = (length userImages + length customCards)%nat).
  { unfold slots. rewrite data_length. by rewrite decide_True. }
  assert (Hle : (length entries <= length slots)%nat).
  { rewrite Hlen, Hslots. pose proof (shownImages_le userImages). lia. }
  split; [exact Hle|].
  split.
  { unfold renderPhotos. by destruct entries. }
  intros rendered Hr.
  assert (Hrendered : rendered
            = imap (fun i item =>
                      match entries !! i with
                      | Some entry =>
                        if drawn entry then Some (item, entry) else None
                      | None => None
                      end) slots).
  { unfold renderPhotos in Hr. destruct entries; [done|]. by injection Hr. }
  rewrite Hrendered. split; [apply length_imap|].
  split.
  - intros i entry Hi.
    assert (Hlt : (i < length slots)%nat).
    { apply lookup_lt_Some in Hi. lia. }
    apply lookup_lt_is_Some in Hlt as [item Hitem].
    exists item. split; [done|].
    rewrite list_lookup_imap, Hitem. simpl. rewrite Hi.
    assert (Hdrawn : drawn entry = true).
    { apply list_elem_of_lookup_2 in Hi.
      by apply (photoEntries_drawn userImages keyMap signatureText
                  customCards photoTransforms). }
    by rewrite Hdrawn.
  - intros i [Hge Hlt].
    apply lookup_lt_is_Some in Hlt as [item Hitem].
    rewrite list_lookup_imap, Hitem. simpl.
    by rewrite (lookup_ge_None_2 entries i).
Qed.

End RegistryFacts.

(** ** The frame around a photo *)

Section PhotoFrameFacts.
Import Num Texture PhotoFrame.
Local Open Scope R_scope.

Lemma num_or_pos (a b : R) : 0 <= a -> 0 < b -> 0 < num_or a b.
Proof. unfold num_or. destruct (Req_dec_T a 0); lra. Qed.

(** X21.  The frame of a photo, for a canvas of any size (a side of zero counts
    as one): the photo keeps the proportions of the canvas and its longer
    side is 0.85; the frame leaves 0.08 on the left, on the right and
    above the photo; the signature band is as wide as the frame and fills
    exactly the space between the lower edge of the photo and the lower
    edge of the frame. *)
Theorem frame_wraps_photo_and_signature (imgWidth imgHeight : R) :
  0 <= imgWidth -> 0 <= imgHeight ->
  let L := frameLayout imgWidth imgHeight in
  let pw := fst (photoArgs L) in
  let ph := snd (photoArgs L) in
  let fw := fst (fst (frameArgs L)) in
  let fh := snd (fst (frameArgs L)) in
  let py := vy (photoPos L) in
  let ty := vy (textPos L) in
  let th := snd (textArgs L) in
  pw * num_or imgHeight 1 = ph * num_or imgWidth 1
  /\ 0 < pw /\ 0 < ph /\ Rmax pw ph = 0.85
  /\ (fw - pw) / 2 = 0.08
  /\ fh / 2 - (py + ph / 2) = 0.08
  /\ py - ph / 2 = ty + th / 2
  /\ ty - th / 2 = - (fh / 2)
  /\ fst (textArgs L) = fw
  /\ vx (photoPos L) = 0 /\ vx (textPos L) = 0.
Proof.
  intros Hw Hh. cbv zeta. unfold frameLayout. cbn [fst snd photoArgs frameArgs
    photoPos textPos textArgs vx vy].
  pose proof (num_or_pos imgWidth 1 Hw ltac:(lra)) as HW.
  pose proof (num_or_pos imgHeight 1 Hh ltac:(lra)) as HH.
  set (W := num_or imgWidth 1) in *. set (H := num_or imgHeight 1) in *.
  assert (Ha : 0 < W / H) by (apply Rdiv_lt_0_compat; lra).
  unfold maxSize, mSide, mTop, mBottom.
  destruct (Rge_dec (W / H) 1) as [Hge|Hlt].
  - assert (Hinv : 0 < / (W / H) <= 1).
    { split; [by apply Rinv_0_lt_compat|].
      rewrite <- Rinv_1. apply Rinv_le_contravar; lra. }
    refine (conj _ (conj _ (conj _ (conj _ _)))); try lra.
    + field. split; lra.
    + unfold Rdiv at 2. rewrite Rmax_left; [lra|]. nra.
  - assert (Ha1 : W / H < 1) by lra.
    refine (conj _ (conj _ (conj _ (conj _ _)))); try lra.
    + field. lra.
    + rewrite Rmax_right; [lra|]. nra.
Qed.

(** The fallback canvas of 512 by 640 gets a photo of 0.68 by 0.85. *)
Lemma frame_wraps_fallback_canvas :
  (0 <= 512 /\ 0 <= 640)
  /\ fst (photoArgs (frameLayout 512 640)) * num_or 640 1
     = snd (photoArgs (frameLayout 512 640)) * num_or 512 1.
Proof.
  split; [lra|].
  apply (frame_wraps_photo_and_signature 512 640); lra.
Defined.

End PhotoFrameFacts.

(** ** The shape of the layout *)

Section LayoutGeometry.
Import Num Ornaments.
Local Open Scope R_scope.

Variable randomVector3 : R -> Rng -> Vector3 * Rng.

Lemma progress_pos (count i : nat) : (0 < count)%nat -> 0 < progress count i.
Proof.
  intros Hc. unfold progress.
  assert (0 < sqrt ((INR i + 1) / INR count)); [|lra].
  apply sqrt_lt_R0, Rdiv_lt_0_compat.
  - pose proof (pos_INR i). lra.
  - by apply lt_0_INR.
Qed.

Lemma pushOut_pos (type : OrnamentType) : 0 < pushOut type.
Proof. destruct type; simpl; lra. Qed.

Lemma data_from_lookup_inv (type : OrnamentType) (count : nat)
    (colors : option (list string)) (scale : R) (P : Rng -> Prop) :
  (forall i g, P g ->
               P (snd (layout randomVector3 type count colors scale i g))) ->
  forall (n i0 : nat) (g : Rng) (k : nat) (item : OrnamentData),
    P g ->
    data_from randomVector3 type count colors scale n i0 g !! k = Some item ->
    exists g', P g'
      /\ item = fst (layout randomVector3 type count colors scale (i0 + k) g').
Proof.
  intros Hstep n. induction n as [|n IH]; intros i0 g k item Hg; [done|].
  destruct k as [|k]; cbn [data_from lookup list_lookup].
  - intros [= <-]. exists g. by rewrite Nat.add_0_r.
  - intros Hk. apply IH in Hk as (g' & Hg' & ->); [|by apply Hstep].
    exists g'. by rewrite Nat.add_succ_r.
Qed.

Lemma layout_unitDraws (type : OrnamentType) (count : nat)
    (colors : option (list string)) (scale : R) (i : nat) (g : Rng) :
  (forall r g0, unitDraws g0 -> unitDraws (snd (randomVector3 r g0))) ->
  unitDraws g ->
  unitDraws (snd (layout randomVector3 type count colors scale i g)).
Proof.
  intros Hrv Hg. unfold layout. cbn [snd].
  assert (Hshift : forall (g0 : Rng) k,
             unitDraws g0 -> unitDraws (fun n => g0 (k + n)%nat)).
  { intros g0 k H0 n. apply H0. }
  assert (Hnext : forall g0 : Rng,
             unitDraws g0 -> unitDraws (snd (Math_random g0))).
  { intros g0 H0 n. apply H0. }
  apply Hshift.
  destruct (decide (type = PHOTO)) as [->|Hty].
  - cbn [fst snd]. apply Hnext, Hnext. destruct colors; [by apply Hnext|done].
  - cbn [fst snd].
    assert (H1 : unitDraws (snd (randomVector3 25 g))) by by apply Hrv.
    assert (H3 : unitDraws
                   (snd (Math_random
                           match colors with
                           | Some _ => snd (Math_random (snd (randomVector3 25 g)))
                           | None => snd (randomVector3 25 g)
                           end))).
    { apply Hnext. destruct colors; [by apply Hnext|done]. }
    destruct type; try done; by apply Hshift.
Qed.

(** X22.  Every slot of a layout sits on one cone around the vertical axis: at
    height [y] its distance from the axis is [5/12] of the distance below
    the apex, which is at [9] times the push-out factor of the type, and
    no slot reaches the apex.  The slots whose index is below [count] are
    not lower than [-7.2] times that factor. *)
Theorem formed_slots_lie_on_cone (type : OrnamentType) (count : nat)
    (colors : option (list string)) (scale : R) (nImages nCards : nat)
    (g : Rng) (i : nat) (item : OrnamentData) :
  (0 < count)%nat ->
  data randomVector3 type count colors scale nImages nCards g !! i
  = Some item ->
  let p := targetPos item in
  let apex := 9 * pushOut type in
  vx p * vx p + vz p * vz p
  = (5 / 12 * (apex - vy p)) * (5 / 12 * (apex - vy p))
  /\ vy p < apex
  /\ ((i < count)%nat -> -7.2 * pushOut type <= vy p).
Proof.
  intros Hc Hi. apply data_lookup in Hi as [g' ->].
  rewrite layout_targetPos. cbv zeta.
  unfold formedPosition, multiplyScalar, radius, height, treeRadiusBase,
    treeHeight, apexY. cbn [vx vy vz].
  pose proof (progress_pos count i Hc) as Hp.
  assert (Hcap : (i < count)%nat -> progress count i <= 0.9)
    by apply progress_le_cap.
  pose proof (pushOut_pos type) as Hk.
  pose proof (sin2_cos2 (theta type i)) as Hsc. unfold Rsqr in Hsc.
  set (p := progress count i) in *. set (k := pushOut type) in *.
  set (s := sin (theta type i)) in *. set (c := cos (theta type i)) in *.
  clearbody p k s c.
  split; [|split].
  - replace (p * 7.5 * c * k * (p * 7.5 * c * k)
             + p * 7.5 * s * k * (p * 7.5 * s * k))
      with (p * 7.5 * k * (p * 7.5 * k) * (s * s + c * c)) by ring.
    rewrite Hsc. nra.
  - nra.
  - intros Hlt. specialize (Hcap Hlt). nra.
Qed.

End LayoutGeometry.

Section LayoutExamples.
Import Num Ornaments.
Local Open Scope R_scope.

(** One ball: its slot is on the cone. *)
Lemma formed_slots_lie_on_cone_single :
  (0 < 1)%nat
  /\ data randomVector3_origin BALL 1 None 1 0 0 (fun _ => 0) !! 0%nat
     = Some (fst (layout randomVector3_origin BALL 1 None 1 0 (fun _ => 0)))
  /\ vy (targetPos
           (fst (layout randomVector3_origin BALL 1 None 1 0 (fun _ => 0))))
     < 9 * pushOut BALL.
Proof.
  split; [lia|]. split; [reflexivity|].
  refine (proj1 (proj2 (formed_slots_lie_on_cone
                          randomVector3_origin BALL 1 None
                          1 0 0 (fun _ => 0) 0 _ _ _))); [lia|reflexivity].
Defined.

End LayoutExamples.

(** ** The scattered arrangement *)

Section ScatterFacts.
Import Num Ornaments.
Local Open Scope R_scope.

Variable randomVector3 : R -> Rng -> Vector3 * Rng.

Lemma photoChaosTilt_range (i : nat) : -0.3 <= photoChaosTilt i <= 0.3.
Proof.
  unfold photoChaosTilt.
  assert (Hm : (i mod 5 < 5)%nat) by (apply Nat.mod_upper_bound; lia).
  assert (H5 : INR (i mod 5) <= 4).
  { replace 4 with (INR 4) by (simpl; lra). apply le_INR. lia. }
  pose proof (pos_INR (i mod 5)). lra.
Qed.

Lemma photoChaosTilt_period (i : nat) :
  photoChaosTilt (i + 5) = photoChaosTilt i.
Proof.
  unfold photoChaosTilt.
  replace (i + 5)%nat with (i + 1 * 5)%nat by lia.
  by rewrite Nat.Div0.mod_add.
Qed.

(** X23.  The scattered photos: every photo slot sits on the circle of radius 18
    around the vertical axis, never below [-6], and below [6] when its
    index is less than [count]; its tilt is between [-0.3] and [0.3] and
    repeats every five slots. *)
Theorem photo_chaos_ring (count : nat) (colors : option (list string))
    (scale : R) (nImages nCards : nat) (g : Rng) (i : nat)
    (item : OrnamentData) :
  (0 < count)%nat ->
  data randomVector3 PHOTO count colors scale nImages nCards g !! i
  = Some item ->
  let c := chaosPos item in
  vx c * vx c + vz c * vz c = 18 * 18
  /\ -6 <= vy c
  /\ ((i < count)%nat -> vy c < 6)
  /\ -0.3 <= chaosTilt item <= 0.3
  /\ (forall item',
         data randomVector3 PHOTO count colors scale nImages nCards g
           !! (i + 5)%nat = Some item' ->
         chaosTilt item' = chaosTilt item).
Proof.
  intros Hc Hi. apply data_lookup in Hi as [g' ->]. cbv zeta.
  assert (Hpos : forall j g0,
             chaosPos (fst (layout randomVector3 PHOTO count colors scale j g0))
             = photoChaosPosition count j) by reflexivity.
  assert (Htilt : forall j g0,
             chaosTilt (fst (layout randomVector3 PHOTO count colors scale j g0))
             = photoChaosTilt j) by reflexivity.
  rewrite Hpos, Htilt. unfold photoChaosPosition. cbn [vx vy vz].
  assert (Hcount : 0 < INR count) by by apply lt_0_INR.
  assert (Hfrac : 0 <= INR i / INR count).
  { apply Rmult_le_pos; [apply pos_INR|].
    by apply Rlt_le, Rinv_0_lt_compat. }
  split; [|split; [|split; [|split]]].
  - pose proof (sin2_cos2 (INR i * goldenAngle)) as Hsc. unfold Rsqr in Hsc.
    set (s := sin (INR i * goldenAngle)) in *.
    set (c := cos (INR i * goldenAngle)) in *. clearbody s c. nra.
  - lra.
  - intros Hlt.
    assert (INR i / INR count < 1); [|lra].
    apply Rmult_lt_reg_r with (INR count); [done|].
    unfold Rdiv. rewrite Rmult_assoc, Rinv_l by lra.
    rewrite Rmult_1_r, Rmult_1_l. by apply lt_INR.
  - apply photoChaosTilt_range.
  - intros item' Hi'. apply data_lookup in Hi' as [g'' ->].
    rewrite Htilt. apply photoChaosTilt_period.
Qed.

(** X24.  With draws in [[0, 1)]: the formed scale of a slot is a base size
    with sides between 0.6 and 1.3, times the [scale] prop, times a factor
    between 0.8 and 1.2; a photo is between 3.5 and 5 times larger when
    scattered, every other ornament has the same size scattered and
    formed; and the rotation has angles in [[0, PI)] about x and y and none
    about z. *)
Theorem scales_follow_draws (type : OrnamentType) (count : nat)
    (colors : option (list string)) (scale : R) (nImages nCards : nat)
    (g : Rng) (i : nat) (item : OrnamentData) :
  (forall r g0, unitDraws g0 -> unitDraws (snd (randomVector3 r g0))) ->
  unitDraws g ->
  data randomVector3 type count colors scale nImages nCards g !! i
  = Some item ->
  (exists (base : Vector3) (randScale : R),
      targetScale item = multiplyScalar base (scale * randScale)
      /\ 0.8 <= randScale < 1.2
      /\ 0.6 <= vx base < 1.3 /\ 0.6 <= vy base < 1.3
      /\ 0.6 <= vz base < 1.3)
  /\ (type <> PHOTO -> chaosScale item = targetScale item)
  /\ (type = PHOTO ->
      exists k, 3.5 <= k < 5
                /\ chaosScale item = multiplyScalar (targetScale item) k)
  /\ 0 <= ex (rotation item) < PI
  /\ 0 <= ey (rotation item) < PI
  /\ ez (rotation item) = 0.
Proof.
  intros Hrv Hg Hi. unfold data in Hi.
  apply (data_from_lookup_inv randomVector3 type count colors scale unitDraws)
    in Hi as (g' & Hg' & ->); [|by intros; apply layout_unitDraws|done].
  cbn [Nat.add]. unfold layout. cbn [fst snd targetScale chaosScale rotation
    ex ey ez].
  set (g1 := snd (if decide (type = PHOTO)
                  then (photoChaosPosition count i, photoChaosTilt i, g')
                  else (fst (randomVector3 25 g'), 0,
                        snd (randomVector3 25 g')))).
  assert (H1 : unitDraws g1).
  { unfold g1. destruct (decide (type = PHOTO)); cbn [snd]; [done|].
    by apply Hrv. }
  clearbody g1.
  set (g2 := match colors with
             | Some _ => snd (Math_random g1)
             | None => g1
             end).
  assert (H2 : unitDraws g2).
  { unfold g2. destruct colors; [|done]. intros n. apply H1. }
  clearbody g2.
  assert (Hpi : 0 < PI) by apply PI_RGT_0.
  assert (Hunit : forall (g0 : Rng) n, unitDraws g0 -> 0 <= g0 n * PI < PI).
  { intros g0 n H0. specialize (H0 n). nra. }
  pose proof (H2 0%nat) as Hr. pose proof (H2 1%nat) as Ha.
  pose proof (H2 2%nat) as Hb. pose proof (H2 3%nat) as Hc.
  split; [|split; [|split; [|split; [|split]]]].
  - eexists _, (fst (Math_random g2) * 0.4 + 0.8).
    split; [reflexivity|]. cbn [Math_random fst snd].
    split; [lra|].
    destruct type; cbn [setScalar vx vy vz]; lra.
  - intros Hty. by rewrite decide_False.
  - intros ->. rewrite decide_True by done.
    eexists. split; [|reflexivity]. cbn [Math_random fst snd].
    pose proof (H2 1%nat). lra.
  - destruct (decide (type = PHOTO)) as [->|Hty].
    + cbn [Math_random fst snd]. apply (Hunit g2 2%nat H2).
    + destruct type; try done; cbn [Math_random fst snd];
        first [apply (Hunit g2 1%nat H2) | apply (Hunit g2 4%nat H2)].
  - destruct (decide (type = PHOTO)) as [->|Hty].
    + cbn [Math_random fst snd]. apply (Hunit g2 3%nat H2).
    + destruct type; try done; cbn [Math_random fst snd];
        first [apply (Hunit g2 2%nat H2) | apply (Hunit g2 5%nat H2)].
  - done.
Qed.

Lemma lerpVectors_same (v : Vector3) (t : R) : lerpVectors v v t = v.
Proof.
  destruct v as [x y z]. unfold lerpVectors. cbn [vx vy vz].
  f_equal; ring.
Qed.

Lemma renderFrame_scale (type : OrnamentType) (item : OrnamentData)
    (m : MeshState) (f : Frame) :
  type <> PHOTO ->
  slotInv type m ->
  exists t,
    obj_scale <$> object3D (renderFrame type item m f)
    = Some (lerpVectors (chaosScale item) (targetScale item) t).
Proof.
  intros Hty. destruct m as [st|st|st]; simpl.
  - intros (Hp & Hb & [mesh Hmesh] & Hmat).
    unfold OrnamentMesh_useFrame. rewrite Hmesh, Hmat. simpl. eauto.
  - intros (Hb & [group Hgroup]).
    unfold GiftBoxMesh_useFrame. rewrite Hgroup. simpl. eauto.
  - by intros (Hp & _).
Qed.

(** X25.  An ornament that is not a photo keeps one size through the whole
    transition: after every rendered frame its scale is its formed scale,
    whatever the mix, the frame times and the random draws were. *)
Theorem non_photo_scale_never_changes (type : OrnamentType) (count : nat)
    (colors : option (list string)) (scale : R) (nImages nCards : nat)
    (g : Rng) (i : nat) (item : OrnamentData) :
  type <> PHOTO ->
  data randomVector3 type count colors scale nImages nCards g !! i
  = Some item ->
  forall (mixFactor0 : R) (frames : list Frame) (f : Frame),
    obj_scale
    <$> object3D (renderFrames type item mixFactor0 (frames ++ [f]))
    = Some (targetScale item).
Proof.
  intros Hty Hi mixFactor0 frames f.
  assert (Hsame : chaosScale item = targetScale item).
  { apply data_lookup in Hi as [g' ->]. unfold layout.
    cbn [fst chaosScale targetScale]. by rewrite decide_False. }
  unfold renderFrames. rewrite foldl_app. cbn [foldl].
  destruct (renderFrame_scale type item
              (foldl (renderFrame type item) (mountSlot type item mixFactor0)
                     frames) f Hty) as [t Ht].
  { apply foldl_renderFrame_inv, mountSlot_inv. }
  rewrite Ht, Hsame. by rewrite lerpVectors_same.
Qed.

End ScatterFacts.

Section ScatterExamples.
Import Num Ornaments.
Local Open Scope R_scope.

(** One photo: its scattered place is on the circle. *)
Lemma photo_chaos_ring_single :
  (0 < 1)%nat
  /\ data randomVector3_origin PHOTO 1 None 1 1 0 (fun _ => 0) !! 0%nat
     = Some (fst (layout randomVector3_origin PHOTO 1 None 1 0 (fun _ => 0)))
  /\ -6 <= vy (chaosPos
                 (fst (layout randomVector3_origin PHOTO 1 None 1 0
                              (fun _ => 0)))).
Proof.
  split; [lia|]. split; [reflexivity|].
  refine (proj1 (proj2 (photo_chaos_ring randomVector3_origin 1 None 1 1 0
                          (fun _ => 0) 0 _ _ _))); [lia|reflexivity].
Defined.

(** One ball laid out from the stream of zeros. *)
Lemma scales_follow_draws_single :
  (forall r g0, unitDraws g0 ->
                unitDraws (snd (randomVector3_origin r g0)))
  /\ unitDraws (fun _ => 0)
  /\ data randomVector3_origin BALL 1 None 1 0 0 (fun _ => 0) !! 0%nat
     = Some (fst (layout randomVector3_origin BALL 1 None 1 0 (fun _ => 0)))
  /\ ez (rotation
           (fst (layout randomVector3_origin BALL 1 None 1 0 (fun _ => 0))))
     = 0.
Proof.
  assert (H0 : unitDraws (fun _ => 0)) by (intros n; lra).
  assert (Hrv : forall r g0, unitDraws g0 ->
                             unitDraws (snd (randomVector3_origin r g0)))
    by (intros r g0 Hg; exact Hg).
  split; [exact Hrv|]. split; [exact H0|]. split; [reflexivity|].
  refine (proj2 (proj2 (proj2 (proj2 (proj2
    (scales_follow_draws randomVector3_origin BALL 1 None 1 0 0
       (fun _ => 0) 0 _ Hrv H0 _)))))).
  reflexivity.
Defined.

(** One ball rendered for one frame. *)
Lemma non_photo_scale_never_changes_single :
  BALL <> PHOTO
  /\ data randomVector3_origin BALL 1 None 1 0 0 (fun _ => 0) !! 0%nat
     = Some (fst (layout randomVector3_origin BALL 1 None 1 0 (fun _ => 0)))
  /\ obj_scale
     <$> object3D
           (renderFrames BALL
              (fst (layout randomVector3_origin BALL 1 None 1 0 (fun _ => 0)))
              1 ([] ++ [mkFrame 0 exampleFrameState 1]))
     = Some (targetScale
               (fst (layout randomVector3_origin BALL 1 None 1 0
                            (fun _ => 0)))).
Proof.
  split; [discriminate|]. split; [reflexivity|].
  refine (non_photo_scale_never_changes randomVector3_origin BALL 1 None 1 0 0
            (fun _ => 0) 0 _ _ _ 1 [] (mkFrame 0 exampleFrameState 1));
    [discriminate|reflexivity].
Defined.

End ScatterExamples.

(** ** The easing of the mix *)

Section EaseFacts.
Import Num Ornaments.
Local Open Scope R_scope.

Lemma smooth_mono (a b : R) : 0 <= a -> a <= b -> b <= 1 -> smooth a <= smooth b.
Proof.
  intros Ha Hab Hb. unfold smooth.
  assert (Hfac : 0 <= 3 * (a + b) - 2 * (a * a + a * b + b * b)).
  { assert (0 <= a * (1 - b)) by (apply Rmult_le_pos; lra).
    assert (0 <= b * (1 - a)) by (apply Rmult_le_pos; lra).
    assert (0 <= a * (1 - a)) by (apply Rmult_le_pos; lra).
    assert (0 <= b * (1 - b)) by (apply Rmult_le_pos; lra).
    lra. }
  assert (Hprod : 0 <= (b - a) * (3 * (a + b) - 2 * (a * a + a * b + b * b)))
    by (apply Rmult_le_pos; lra).
  lra.
Qed.

Lemma Rpower_one (y : R) : Rpower 1 y = 1.
Proof. unfold Rpower. by rewrite ln_1, Rmult_0_r, exp_0. Qed.

Lemma Math_pow_nonneg (x y : R) : 0 <= Math_pow x y.
Proof.
  unfold Math_pow. destruct (Req_dec_T x 0); [destruct (Req_dec_T y 0); lra|].
  unfold Rpower. apply Rlt_le, exp_pos.
Qed.

Lemma Math_pow_mono (a b : R) :
  0 <= a -> a <= b -> Math_pow a 0.6 <= Math_pow b 0.6.
Proof.
  intros Ha Hab. unfold Math_pow at 1.
  destruct (Req_dec_T a 0) as [->|Hne].
  - destruct (Req_dec_T 0.6 0); [lra|]. apply Math_pow_nonneg.
  - unfold Math_pow. destruct (Req_dec_T b 0); [lra|].
    apply Rle_Rpower_l; lra.
Qed.

(** X26.  The easing of every type runs from 0 to 1 without ever going back:
    for mixes [0 <= a <= b <= 1] the eased values satisfy
    [0 <= ease a <= ease b <= 1], with [ease 0 = 0] and [ease 1 = 1], so
    that the blend of the two poses is the scattered one at mix 0 and the
    formed one at mix 1. *)
Theorem ease_runs_from_chaos_to_formed (type : OrnamentType) (a b : R) :
  0 <= a -> a <= b -> b <= 1 ->
  0 <= ease type a
  /\ ease type a <= ease type b
  /\ ease type b <= 1
  /\ ease type 0 = 0
  /\ ease type 1 = 1
  /\ forall item : OrnamentData,
      lerpVectors (chaosPos item) (targetPos item) (ease type 0)
      = chaosPos item
      /\ lerpVectors (chaosPos item) (targetPos item) (ease type 1)
         = targetPos item.
Proof.
  intros Ha Hab Hb.
  assert (H0 : ease type 0 = 0).
  { destruct type; simpl; try (unfold smooth; lra).
    unfold Math_pow. destruct (Req_dec_T 0 0); [|lra].
    destruct (Req_dec_T 0.6 0); lra. }
  assert (H1 : ease type 1 = 1).
  { destruct type; simpl; try (unfold smooth; lra).
    unfold Math_pow. destruct (Req_dec_T 1 0); [lra|]. apply Rpower_one. }
  assert (Hmono : forall x y, 0 <= x -> x <= y -> y <= 1 ->
                              ease type x <= ease type y).
  { intros x y Hx Hxy Hy.
    destruct type; simpl; try (by apply smooth_mono).
    by apply Math_pow_mono. }
  split; [rewrite <- H0; apply Hmono; lra|].
  split; [by apply Hmono|].
  split; [rewrite <- H1; apply Hmono; lra|].
  split; [done|]. split; [done|].
  intros item. rewrite H0, H1.
  destruct (chaosPos item) as [cx cy cz], (targetPos item) as [tx ty tz].
  unfold lerpVectors. cbn [vx vy vz]. split; f_equal; ring.
Qed.

(** Halfway through the transition. *)
Lemma ease_runs_from_chaos_to_formed_half :
  (0 <= 0.5 /\ 0.5 <= 0.5 /\ 0.5 <= 1)
  /\ 0 <= ease BALL 0.5.
Proof.
  split; [lra|].
  refine (proj1 (ease_runs_from_chaos_to_formed BALL 0.5 0.5 _ _ _)); lra.
Defined.

(** X27.  The glow of a photo: after a frame that leaves a mix that is not
    negative, the emissive intensity of the photo material is positive and
    below 1.13 wherever the camera is, and it is exactly 0.25 once the
    eased mix has reached 0.99. *)
Theorem photo_glow_stays_positive (item : OrnamentData) (mixFactor : R)
    (state : FrameState) (delta : R) (st : PhotoFrameMeshState) :
  is_Some (pf_groupRef st) ->
  is_Some (pf_innerRotationZ st) ->
  is_Some (pf_emissiveIntensity st) ->
  let st' := PhotoFrameMesh_useFrame item mixFactor state delta st in
  0 <= pf_currentMixRef st' ->
  exists e,
    pf_emissiveIntensity st' = Some e
    /\ 0 < e < 1.13
    /\ (0.99 <= Math_pow (pf_currentMixRef st') 0.6 -> e = 0.25).
Proof.
  intros [group Hgroup] [z Hz] [e0 He0]. cbv zeta.
  unfold PhotoFrameMesh_useFrame. rewrite Hgroup, Hz, He0.
  cbn [pf_currentMixRef pf_emissiveIntensity fmap option_fmap option_map].
  set (tRaw := lerp (pf_currentMixRef st) mixFactor (0.8 * delta)).
  clearbody tRaw. intros HtRaw.
  pose proof (Math_pow_nonneg tRaw 0.6) as Ht.
  set (t := Math_pow tRaw 0.6) in *. clearbody t.
  set (d := distanceTo _ _).
  assert (Hd : 0 <= d) by apply sqrt_pos. clearbody d.
  eexists. split; [reflexivity|].
  destruct (bool_decide (t < 0.99)) eqn:Hlt.
  - apply bool_decide_eq_true in Hlt.
    assert (Hb : mapLinear d 12 50 0.9 0.2 <= 1.1211).
    { unfold mapLinear. replace (50 - 12) with 38 by lra. lra. }
    assert (Hmax : 0.2 <= Rmax 0.2 (mapLinear d 12 50 0.9 0.2) <= 1.1211).
    { split; [apply Rmax_l|]. apply Rmax_lub; lra. }
    set (m := Rmax 0.2 (mapLinear d 12 50 0.9 0.2)) in *. clearbody m.
    split; [nra|lra].
  - apply bool_decide_eq_false in Hlt. split; [lra|done].
Qed.

(** A freshly mounted photo frame, rendered once with the target at 1. *)
Lemma photo_glow_stays_positive_formed :
  (is_Some (pf_groupRef (PhotoFrameMesh_mount 1))
   /\ is_Some (pf_innerRotationZ (PhotoFrameMesh_mount 1))
   /\ is_Some (pf_emissiveIntensity (PhotoFrameMesh_mount 1))
   /\ 0 <= pf_currentMixRef
             (PhotoFrameMesh_useFrame exampleItem 1 exampleFrameState 0
                                      (PhotoFrameMesh_mount 1)))
  /\ exists e,
      pf_emissiveIntensity
        (PhotoFrameMesh_useFrame exampleItem 1 exampleFrameState 0
                                 (PhotoFrameMesh_mount 1)) = Some e
      /\ 0 < e < 1.13.
Proof.
  assert (Hmix : 0 <= pf_currentMixRef
                        (PhotoFrameMesh_useFrame exampleItem 1
                           exampleFrameState 0 (PhotoFrameMesh_mount 1))).
  { simpl. unfold lerp. lra. }
  split; [repeat split; [by eexists..|exact Hmix]|].
  destruct (photo_glow_stays_positive exampleItem 1 exampleFrameState 0
              (PhotoFrameMesh_mount 1)) as (e & He & Hrange & _);
    [by eexists..|exact Hmix|].
  exists e. by split.
Defined.

End EaseFacts.

(** ** From a click to the overlay *)

Section FocusFacts.
Import Num Texture Ornaments App Registry.
Local Open Scope R_scope.

Lemma photoClick_entry (host : bool) (en : PhotoEntry) (mixFactor : R)
    (parentToWorld : Vector3 -> Vector3) (window : Window)
    (ev : PointerEvent) (st : PhotoFrameMeshState)
    (m : MediaEntry) (origin : ScreenPos) :
  photoClick host (Some en) mixFactor parentToWorld window ev st
  = Some (m, origin) ->
  m = mkMediaEntry (pe_kind en) (pe_url en) (pe_message en)
                   (pe_signatureText en) (pe_id en) (pe_cacheKey en)
                   (pe_editable en).
Proof.
  unfold photoClick, PhotoFrameMesh_onPointerDown, emitFocus.
  destruct (true && bool_decide (mixFactor < 0.25)); [|done].
  destruct (pf_groupRef st); simpl; destruct host; simpl; congruence.
Qed.

(** X28.  A photo or card opened by a click on the tree is read-only: whatever
    entry of the layer was clicked, the descriptor that reaches the host
    is not editable, the overlay the host opens for it ignores every
    editing event, and its save button leaves the stored transforms as
    they are. *)
Theorem tree_photos_open_read_only (userImages : list string)
    (keyMap : gmap string string) (signatureText : option string)
    (customCards : list Card)
    (photoTransforms : gmap string PhotoTransform) (e : Entry)
    (host : bool) (mixFactor : R) (parentToWorld : Vector3 -> Vector3)
    (window : Window) (ev : PointerEvent) (st : PhotoFrameMeshState)
    (m : MediaEntry) (origin : ScreenPos) :
  e ∈ photoEntries userImages keyMap signatureText customCards
                   photoTransforms ->
  photoClick host (Some (fst e)) mixFactor parentToWorld window ev st
  = Some (m, origin) ->
  me_editable m = false
  /\ forall (signatures : gmap string string)
            (table : gmap string StoredTransform),
      let f := handleFocusMedia (onFocusMedia m) signatures table in
      fe_editable (focusedEntry f) = false
      /\ (forall (ed : Editor) (events : list EditorEvent),
             edit (fe_editable (focusedEntry f)) ed events = ed)
      /\ (forall table' : gmap string StoredTransform,
             saveFocus f table' = table').
Proof.
  intros He Hclick.
  apply photoEntries_drawn in He as [Hedit _].
  apply photoClick_entry in Hclick. subst m. cbn [me_editable].
  split; [done|]. intros signatures table.
  set (f := handleFocusMedia _ _ _).
  assert (Hf : fe_editable (focusedEntry f) = false).
  { unfold f, handleFocusMedia, onFocusMedia. cbn [fr_is_image fr_editable
      me_kind me_editable]. rewrite Hedit.
    by destruct (pe_kind (fst e)). }
  split; [done|]. split.
  - intros ed events. rewrite Hf. unfold edit.
    induction events as [|ev' events IH]; [done|].
    cbn [foldl]. by rewrite editorStep_read_only.
  - intros table'. unfold saveFocus, handleSaveSignature. by rewrite Hf.
Qed.

(** X29.  A photo opened from the manager and saved straight away: it is
    editable; its record's key then holds a transform inside the safe
    ranges, the one stored before (clamped) or scale 1 without offset when
    none was stored; no other key changes; and a stored transform that was
    already inside the ranges is left exactly as it was. *)
Theorem managed_photo_save_round_trip (rec : ImageRef)
    (signatures : gmap string string)
    (table : gmap string StoredTransform) :
  ref_key rec <> EmptyString ->
  let f := handleFocusMedia (managerImage rec) signatures table in
  let table' := saveFocus f table in
  fe_editable (focusedEntry f) = true
  /\ (exists t, table' !! ref_key rec = Some t /\ inSafeRange t)
  /\ (forall key, key <> ref_key rec -> table' !! key = table !! key)
  /\ (table !! ref_key rec = None ->
      table' !! ref_key rec = Some (mkStoredTransform 1 0 0))
  /\ (forall t, table !! ref_key rec = Some t -> inSafeRange t ->
                table' = table).
Proof.
  intros Hkey f table'.
  assert (Htable' :
    table' = <[ ref_key rec :=
                  mkStoredTransform
                    (clampValue (default 1 (st_scale <$> table !! ref_key rec))
                                0.5 2.5)
                    (clampValue
                       (default 0 (st_offset_x <$> table !! ref_key rec))
                       (-0.6) 0.6)
                    (clampValue
                       (default 0 (st_offset_y <$> table !! ref_key rec))
                       (-0.6) 0.6) ]> table).
  { unfold table', f, saveFocus, handleFocusMedia, handleSaveSignature,
      managerImage, str_or.
    simpl. rewrite !decide_False by done. simpl. reflexivity. }
  split; [done|]. rewrite Htable'.
  split.
  { eexists. split; [apply lookup_insert_eq|].
    unfold inSafeRange. cbn [st_scale st_offset_x st_offset_y].
    refine (conj _ (conj _ _)); apply clampValue_range; lra. }
  split; [by intros key Hne; rewrite lookup_insert_ne|].
  split.
  { intros Hnone. rewrite lookup_insert_eq, Hnone. cbn [fmap option_fmap
      option_map default].
    unfold Datatypes.id, clampValue, Rmin, Rmax.
    repeat destruct Rle_dec; try lra; f_equal; f_equal; lra. }
  intros t Ht (Hs & Hx & Hy). rewrite Ht.
  cbn [fmap option_fmap option_map default].
  apply insert_id. rewrite Ht. f_equal.
  destruct t as [s x y]. cbn [st_scale st_offset_x st_offset_y] in *.
  unfold Datatypes.id, clampValue, Rmin, Rmax.
  repeat destruct Rle_dec; try lra; f_equal; lra.
Qed.

End FocusFacts.

Section FocusExamples.
Import Num Texture Ornaments App Registry.
Local Open Scope R_scope.

(** One uploaded photo, clicked while the tree is scattered. *)
Lemma tree_photos_open_read_only_one_photo :
  let e := imageEntry ∅ None ∅ 0 "blob:photo" in
  let m := mkMediaEntry (pe_kind (fst e)) (pe_url (fst e))
                        (pe_message (fst e)) (pe_signatureText (fst e))
                        (pe_id (fst e)) (pe_cacheKey (fst e))
                        (pe_editable (fst e)) in
  let origin := mkScreenPos ((0 / 40 * 0.5 + 0.5) * 1280)
                            ((0 / 40 * -0.5 + 0.5) * 720) in
  (e ∈ photoEntries ["blob:photo"%string] ∅ None [] ∅
   /\ photoClick true (Some (fst e)) 0 (fun v => v) exampleWindow
                 exampleEvent (PhotoFrameMesh_mount 0)
      = Some (m, origin))
  /\ me_editable m = false.
Proof.
  cbv zeta.
  assert (Hin : imageEntry ∅ None ∅ 0 "blob:photo"
                ∈ photoEntries ["blob:photo"%string] ∅ None [] ∅).
  { unfold photoEntries. cbn [imageEntries fmap list_fmap app].
    rewrite decide_False by done. by left. }
  assert (Hclick :
    photoClick true (Some (fst (imageEntry ∅ None ∅ 0 "blob:photo"))) 0
               (fun v => v) exampleWindow exampleEvent (PhotoFrameMesh_mount 0)
    = Some (mkMediaEntry
              (pe_kind (fst (imageEntry ∅ None ∅ 0 "blob:photo")))
              (pe_url (fst (imageEntry ∅ None ∅ 0 "blob:photo")))
              (pe_message (fst (imageEntry ∅ None ∅ 0 "blob:photo")))
              (pe_signatureText (fst (imageEntry ∅ None ∅ 0 "blob:photo")))
              (pe_id (fst (imageEntry ∅ None ∅ 0 "blob:photo")))
              (pe_cacheKey (fst (imageEntry ∅ None ∅ 0 "blob:photo")))
              (pe_editable (fst (imageEntry ∅ None ∅ 0 "blob:photo"))),
            mkScreenPos ((0 / 40 * 0.5 + 0.5) * 1280)
                        ((0 / 40 * -0.5 + 0.5) * 720))).
  { unfold photoClick, PhotoFrameMesh_onPointerDown.
    rewrite bool_decide_true by lra. reflexivity. }
  split; [by split|].
  exact (proj1 (tree_photos_open_read_only _ _ _ _ _ _ _ _ _ _ _ _ _ _
                  Hin Hclick)).
Defined.

(** A record with key [k] and nothing stored for it. *)
Lemma managed_photo_save_round_trip_fresh :
  ref_key (mkImageRef "k" "blob:photo") <> EmptyString
  /\ saveFocus (handleFocusMedia (managerImage (mkImageRef "k" "blob:photo"))
                                 ∅ ∅) ∅
     !! "k"%string
     = Some (mkStoredTransform 1 0 0).
Proof.
  split; [discriminate|].
  refine (proj1 (proj2 (proj2 (proj2
    (managed_photo_save_round_trip (mkImageRef "k" "blob:photo") ∅ ∅ _)))) _);
    [discriminate|reflexivity].
Defined.

End FocusExamples.
